(** * crawl-http: a shallow embedding of [src/crawl-http.js]

    The file models the two functions of the crawler, [getHTMLLinks] and
    [crawl], and states the properties of the specification over them.

    - JavaScript strings are [string]; the string methods the crawler calls
      ([endsWith], [startsWith], [slice(0, -1)], [trim]) are in [JsString].
    - The document cheerio builds is the inductive type [Node]; selecting the
      [a] elements, [text()] and [attr()] are functions over it.
    - What Node's [url] and [path] modules and cheerio's parser compute is
      the interface [NodeLib]: the general theorems hold for every
      implementation of it.  [Posix] implements the interface for plain
      [http://host/path] URLs, for the scenarios.
    - [crawl] mutates objects and arrays that are shared by reference: the
      [World] holds the object heap, the array heap and the log of the
      fetches issued so far.
    - [crawl] recurses on promises; the embedding recurses on a [fuel]
      counter, and [OutOfFuel] stands for a computation that has not
      finished within it. *)

From Stdlib Require Import Ascii ZArith Lia.
From stdpp Require Import base list strings pretty.

Set Warnings "-register-all".

(** ** JavaScript string methods *)

Module JsString.

(** [s.endsWith(suffix)] *)
Fixpoint endsWith (s suffix : string) : bool :=
  if String.eqb s suffix then true
  else match s with
       | EmptyString => false
       | String _ s' => endsWith s' suffix
       end.

(** [s.startsWith(p)] *)
Definition startsWith (s p : string) : bool := String.prefix p s.

(** [s.slice(0, -1)]: [s] without its last character. *)
Fixpoint slice_0_m1 (s : string) : string :=
  match s with
  | EmptyString => EmptyString
  | String c EmptyString => EmptyString
  | String c s' => String c (slice_0_m1 s')
  end.

(** The strings of the model are the bytes of the UTF-8 encoding of the
    JavaScript strings.  White space and line terminators of one byte:
    U+0009 to U+000D and U+0020. *)
Definition is_space (c : ascii) : bool :=
  let n := nat_of_ascii c in
  ((9 <=? n) && (n <=? 13)) || (n =? 32).

(** The white space of two bytes: U+00A0. *)
Definition is_space2 (a b : ascii) : bool :=
  (nat_of_ascii a =? 194) && (nat_of_ascii b =? 160).

(** White space and line terminators of three bytes: U+1680, U+2000 to
    U+200A, U+2028, U+2029, U+202F, U+205F, U+3000 and U+FEFF. *)
Definition is_space3 (a b c : ascii) : bool :=
  let x := nat_of_ascii a in
  let y := nat_of_ascii b in
  let z := nat_of_ascii c in
  ((x =? 225) && (y =? 154) && (z =? 128))
  || ((x =? 226) && (y =? 128)
      && (((128 <=? z) && (z <=? 138)) || (z =? 168) || (z =? 169) || (z =? 175)))
  || ((x =? 226) && (y =? 129) && (z =? 159))
  || ((x =? 227) && (y =? 128) && (z =? 128))
  || ((x =? 239) && (y =? 187) && (z =? 191)).

Fixpoint trimStart (s : string) : string :=
  match s with
  | EmptyString => EmptyString
  | String a s1 =>
      if is_space a then trimStart s1
      else match s1 with
           | String b s2 =>
               if is_space2 a b then trimStart s2
               else match s2 with
                    | String c s3 => if is_space3 a b c then trimStart s3 else s
                    | EmptyString => s
                    end
           | EmptyString => s
           end
  end.

(** [s] is white space only. *)
Definition blank (s : string) : bool := String.eqb (trimStart s) EmptyString.

(** [s] without the longest end of it that is white space only. *)
Fixpoint trimEnd (s : string) : string :=
  match s with
  | EmptyString => EmptyString
  | String c s' => if blank s then EmptyString else String c (trimEnd s')
  end.

(** [s.trim()] *)
Definition trim (s : string) : string := trimEnd (trimStart s).

End JsString.

(** ** The document and the link extractor *)

(** A node of the document [cheerio.load] returns. *)
Inductive Node : Type :=
| TextNode (data : string)
| CommentNode (data : string)
| Element (tagName : string) (attribs : list (string * string)) (children : list Node).

(** [$(el).text()]: the text of the node and of its descendants, in document
    order. *)
Fixpoint node_text (n : Node) : string :=
  match n with
  | TextNode d => d
  | CommentNode _ => ""
  | Element _ _ cs =>
      (fix texts (l : list Node) : string :=
         match l with
         | [] => ""
         | c :: l' => node_text c +:+ texts l'
         end) cs
  end.

(** The [a] elements of the subtree of [n], in document order. *)
Fixpoint select_a (n : Node) : list Node :=
  match n with
  | Element t _ cs =>
      (if String.eqb t "a" then [n] else []) ++
      (fix sel (l : list Node) : list Node :=
         match l with
         | [] => []
         | c :: l' => select_a c ++ sel l'
         end) cs
  | _ => []
  end.

(** [$('a').get()] on a parsed document. *)
Definition select_all_a (doc : list Node) : list Node := flat_map select_a doc.

Fixpoint attribs_lookup (name : string) (l : list (string * string)) : option string :=
  match l with
  | [] => None
  | (k, v) :: l' => if String.eqb k name then Some v else attribs_lookup name l'
  end.

(** [$(el).attr(name)]: [None] is JavaScript's [undefined], what cheerio
    returns for an attribute the element does not have. *)
Definition attr (el : Node) (name : string) : option string :=
  match el with
  | Element _ a _ => attribs_lookup name a
  | _ => None
  end.

(** A link: the array [[$el.text(), $el.attr('href')]]. *)
Definition Link : Type := string * option string.

(** The callback of [.map] in [getHTMLLinks]. *)
Definition link_of (el : Node) : Link := (node_text el, attr el "href").

(** ** The libraries the crawler calls *)

(** What the crawler uses of Node's [url] and [path] modules and of cheerio's
    parser.  [None] from [url_parse] and [url_resolve] is the [TypeError] the
    [URL] constructor throws on an invalid URL. *)
Class NodeLib : Type := {
  URL : Type;
  (** [new url.URL(input)] *)
  url_parse : string -> option URL;
  (** [new url.URL(input, base)] *)
  url_resolve : string -> string -> option URL;
  (** [url.format(urlObj)] *)
  url_format : URL -> string;
  (** [urlObj.host] *)
  url_host : URL -> string;
  (** [urlObj.pathname] *)
  url_pathname : URL -> string;
  (** [path.relative(from, to)] *)
  path_relative : string -> string -> string;
  (** [path.isAbsolute(p)] *)
  path_isAbsolute : string -> bool;
  (** [path.extname(p)] *)
  path_extname : string -> string;
  (** [cheerio.load(text)]: the top-level nodes of the parsed document. *)
  cheerio_load : string -> list Node
}.

(** [getHTMLLinks(text)] *)
Definition getHTMLLinks `{NodeLib} (text : string) : list Link :=
  map link_of (select_all_a (cheerio_load text)).

(** ** Options, results and the world *)

(** The [opts] argument after its destructuring with defaults.  [filterRegex]
    is [None] for [null], and else the predicate [filterRegex.test] of a
    regular expression without the [g] and [y] flags, as [main] makes them
    with [new RegExp(pattern)]: [test] on such an expression does not
    depend on [lastIndex] and does not change it, so its outcome depends
    on the string only. *)
Record Opts : Type := mkOpts {
  verbose : bool;
  maxAttempts : Z;
  keepSeparateHosts : bool;
  stayInSameDirectory : bool;
  keepAnyFileType : bool;
  fileTypes : list string;
  filterRegex : option (string -> bool)
}.

Definition default_opts : Opts :=
  {| verbose := false;
     maxAttempts := 5;
     keepSeparateHosts := false;
     stayInSameDirectory := true;
     keepAnyFileType := false;
     fileTypes := ["wav"; "ogg"; "oga"; "mp3"; "mp4"; "m4a"; "mov"; "mpga"; "mod"];
     filterRegex := None |}.

(** An entry of an [items] list: [{name, downloaderArg}] for a file and
    [{name, items}] for a directory, whose [items] is [None] when the
    property is [undefined].  [source] is not a property of the JavaScript
    object: it records the [linkURL] the directory entry was made for, and
    nothing in the model reads it. *)
Inductive Item : Type :=
| File (name : string) (downloaderArg : string)
| Dir (name : string) (source : string) (items : option (list Item)).

(** What the promise of [crawl] resolves to: the object [{items}], or the
    bare array [[]] of the [.catch] handler. *)
Inductive CrawlResult : Type :=
| ResultObject (items : list Item)
| EmptyArray.

(** The destructuring [({ items })] of a result. *)
Definition result_items (r : CrawlResult) : option (list Item) :=
  match r with
  | ResultObject items => Some items
  | EmptyArray => None
  end.

(** What can be thrown. *)
Inductive JsError : Type :=
| FAILED_DOWNLOAD
| TypeError (message : string)
| BodyReadError.

(** How a call ends: its promise is fulfilled, it is rejected (or the call
    throws), or the model ran out of fuel. *)
Inductive Completion (A : Type) : Type :=
| Fulfilled (a : A)
| Rejected (e : JsError)
| OutOfFuel.
Arguments Fulfilled {A} a.
Arguments Rejected {A} e.
Arguments OutOfFuel {A}.

(** An [internals] object: each property is [None] while it is absent.
    [allURLs] holds a reference into the array heap. *)
Record Internals : Type := mkInternals {
  attempts : option Z;
  allURLs : option nat
}.

(** What [fetch(url)] does: the promise rejects, or it is fulfilled with a
    response of some status whose [text()] gives the body ([None] when
    reading the body fails). *)
Inductive FetchOutcome : Type :=
| FetchRejected
| FetchResponse (status : Z) (text : option string).

(** The fetch capability: the outcome of fetching a URL, given the URLs
    fetched before. *)
Definition Fetch : Type := list string -> string -> FetchOutcome.

Record World : Type := mkWorld {
  objs : list Internals;
  arrays : list (list string);
  fetched : list string
}.

Definition empty_world : World := mkWorld [] [] [].

Definition get_obj (w : World) (i : nat) : Internals :=
  default (mkInternals None None) (objs w !! i).

Definition set_obj (i : nat) (o : Internals) (w : World) : World :=
  mkWorld (<[i := o]> (objs w)) (arrays w) (fetched w).

(** The default value [{}] of the parameter [internals]. *)
Definition internals_param (internals : option nat) (w : World) : nat * World :=
  match internals with
  | Some i => (i, w)
  | None => (length (objs w), mkWorld (objs w ++ [mkInternals None None]) (arrays w) (fetched w))
  end.

(** [if (!internals.attempts) internals.attempts = 0] *)
Definition init_attempts (i : nat) (w : World) : World :=
  let o := get_obj w i in
  match attempts o with
  | Some a => if (a =? 0)%Z then set_obj i (mkInternals (Some 0%Z) (allURLs o)) w else w
  | None => set_obj i (mkInternals (Some 0%Z) (allURLs o)) w
  end.

(** [if (!internals.allURLs) internals.allURLs = []] *)
Definition init_allURLs (i : nat) (w : World) : World :=
  let o := get_obj w i in
  match allURLs o with
  | Some _ => w
  | None =>
      mkWorld (<[i := mkInternals (attempts o) (Some (length (arrays w)))]> (objs w))
              (arrays w ++ [[]]) (fetched w)
  end.

(** [internals.attempts], once initialised. *)
Definition attempts_of (w : World) (i : nat) : Z :=
  default 0%Z (attempts (get_obj w i)).

(** The array [internals.allURLs]. *)
Definition allURLs_of (w : World) (i : nat) : list string :=
  match allURLs (get_obj w i) with
  | Some a => default [] (arrays w !! a)
  | None => []
  end.

(** [internals.allURLs.push(linkURL)] *)
Definition push_URL (i : nat) (linkURL : string) (w : World) : World :=
  match allURLs (get_obj w i) with
  | Some a =>
      mkWorld (objs w) (<[a := default [] (arrays w !! a) ++ [linkURL]]> (arrays w)) (fetched w)
  | None => w
  end.

(** [Object.assign({}, internals)] and, with [Some a],
    [Object.assign({}, internals, {attempts: a})]: a new object that holds
    the same array reference. *)
Definition object_assign (i : nat) (new_attempts : option Z) (w : World) : nat * World :=
  let o := get_obj w i in
  let o' := mkInternals (match new_attempts with Some a => Some a | None => attempts o end)
                        (allURLs o) in
  (length (objs w), mkWorld (objs w ++ [o']) (arrays w) (fetched w)).

(** ** The crawl *)

Section Crawl.
Context `{lib : NodeLib}.
Variable fetch : Fetch.

(** [fetch(absURL)] *)
Definition do_fetch (absURL : string) (w : World) : FetchOutcome * World :=
  (fetch (fetched w) absURL, mkWorld (objs w) (arrays w) (fetched w ++ [absURL])).

(** The conversion of an [href] to a string by the [URL] constructor. *)
Definition href_string (href : option string) : string :=
  default "undefined" href.

(** The name of an entry: lines 58 to 62. *)
Definition entry_name (name : string) : string :=
  JsString.trim (if JsString.endsWith name "/" then JsString.slice_0_m1 name else name).

(** The checks of lines 74 to 90, after the URL was recorded: [true] when
    the link is ignored. *)
Definition ignored (opts : Opts) (absURLObj urlObj : URL) (linkURL : string) : bool :=
  match filterRegex opts with
  | Some test => negb (test linkURL)
  | None => false
  end
  || (negb (keepSeparateHosts opts) && negb (String.eqb (url_host urlObj) (url_host absURLObj)))
  || (stayInSameDirectory opts &&
      let relative := path_relative (url_pathname absURLObj) (url_pathname urlObj) in
      (JsString.startsWith relative ".." || path_isAbsolute relative)).

(** [!keepAnyFileType && !(extensions.includes(path.extname(href)))] *)
Definition bad_extension (opts : Opts) (href : string) : bool :=
  negb (keepAnyFileType opts) &&
  negb (bool_decide (path_extname href ∈ map (fun t => "." +:+ t) (fileTypes opts))).

(** The loop [for (const link of links)] of the first handler, with the
    recursive call abstracted as [rec]. *)
Fixpoint process_links
    (rec : string -> Opts -> option nat -> World -> Completion CrawlResult * World)
    (absURL : string) (absURLObj : URL) (opts : Opts) (internals : nat)
    (links : list Link) (items : list Item) (w : World)
    : Completion (list Item) * World :=
  match links with
  | [] => (Fulfilled items, w)
  | (name, href) :: links' =>
      let continue := process_links rec absURL absURLObj opts internals links' in
      let name := entry_name name in
      match url_resolve (href_string href) (absURL +:+ "/") with
      | None => (Rejected (TypeError "Invalid URL"), w)
      | Some urlObj =>
          let linkURL := url_format urlObj in
          if bool_decide (linkURL ∈ allURLs_of w internals) then continue items w
          else
            let w := push_URL internals linkURL w in
            if ignored opts absURLObj urlObj linkURL then continue items w
            else
              match href with
              | None => (Rejected (TypeError "Cannot read property 'endsWith' of undefined"), w)
              | Some href =>
                  if JsString.endsWith href "/" then
                    let '(child, w) := object_assign internals None w in
                    match rec linkURL opts (Some child) w with
                    | (Fulfilled r, w) => continue (items ++ [Dir name linkURL (result_items r)]) w
                    | (Rejected e, w) => (Rejected e, w)
                    | (OutOfFuel, w) => (OutOfFuel, w)
                    end
                  else if bad_extension opts href then continue items w
                  else continue (items ++ [File name linkURL]) w
              end
      end
  end.

(** The handler of [.catch]. *)
Definition catch_failed_download (r : Completion CrawlResult * World)
    : Completion CrawlResult * World :=
  match r with
  | (Rejected FAILED_DOWNLOAD, w) => (Fulfilled EmptyArray, w)
  | _ => r
  end.

(** [return {items}] *)
Definition return_items (r : Completion (list Item) * World) : Completion CrawlResult * World :=
  match r with
  | (Fulfilled items, w) => (Fulfilled (ResultObject items), w)
  | (Rejected e, w) => (Rejected e, w)
  | (OutOfFuel, w) => (OutOfFuel, w)
  end.

(** The body of [crawl(absURL, opts, internals)], with its recursive
    calls abstracted as [rec].  [internals] is [None] when the argument is
    left out.  An exception of the [URL] constructor at line 43 is
    [Rejected], like a rejected promise. *)
Definition crawl_body
    (rec : string -> Opts -> option nat -> World -> Completion CrawlResult * World)
    (absURL : string) (opts : Opts) (internals : option nat) (w : World)
    : Completion CrawlResult * World :=
  let '(i, w) := internals_param internals w in
  let w := init_attempts i w in
  let w := init_allURLs i w in
  match url_parse absURL with
  | None => (Rejected (TypeError "Invalid URL"), w)
  | Some absURLObj =>
      let '(res, w) := do_fetch absURL w in
      catch_failed_download
        match res with
        | FetchResponse _ (Some text) =>
            return_items
              (process_links rec absURL absURLObj opts i (getHTMLLinks text) [] w)
        | FetchResponse _ None => (Rejected BodyReadError, w)
        | FetchRejected =>
            if (attempts_of w i <? maxAttempts opts)%Z then
              let '(retry, w) := object_assign i (Some (attempts_of w i + 1)%Z) w in
              rec absURL opts (Some retry) w
            else (Rejected FAILED_DOWNLOAD, w)
        end
  end.

(** [crawl], unfolded [fuel] calls deep. *)
Fixpoint crawl (fuel : nat) (absURL : string) (opts : Opts) (internals : option nat)
    (w : World) : Completion CrawlResult * World :=
  match fuel with
  | O => (OutOfFuel, w)
  | S fuel' => crawl_body (crawl fuel') absURL opts internals w
  end.

End Crawl.


(** * The vocabulary of the properties *)


(** ** Entries and their URLs *)

(** The URLs the entries of a tree were made for, in document order: the
    [downloaderArg] of a file, the [linkURL] of a directory followed by the
    URLs of the entries below it. *)
Fixpoint item_urls (it : Item) : list string :=
  match it with
  | File _ u => [u]
  | Dir _ u its =>
      u :: match its with
           | None => []
           | Some l =>
               (fix urls (l : list Item) : list string :=
                  match l with
                  | [] => []
                  | x :: l' => item_urls x ++ urls l'
                  end) l
           end
  end.

Definition items_urls (l : list Item) : list string := flat_map item_urls l.

Definition result_urls (r : CrawlResult) : list string :=
  match r with
  | ResultObject l => items_urls l
  | EmptyArray => []
  end.

(** ** The heap during a crawl *)

(** The contents of the array at reference [a]. *)
Definition visited (a : nat) (w : World) : list string := default [] (arrays w !! a).

(** The object [i] went through lines 30 and 35: it has a number of
    attempts, and its [allURLs] is the array [a]. *)
Definition ready (i a : nat) (w : World) : Prop :=
  (exists n, objs w !! i = Some (mkInternals (Some n) (Some a))) /\ a < length (arrays w).

(** What a crawl over the array [a] may change: it allocates objects that
    hold [a], it pushes the URLs [P] onto [a], all new to [a] and pairwise
    distinct, and it issues fetches. *)
Record extends (a : nat) (w w' : World) (P : list string) : Prop := {
  ext_objs : exists new, objs w' = objs w ++ new
                         /\ Forall (fun o => allURLs o = Some a /\ is_Some (attempts o)) new;
  ext_arrays : arrays w' = <[a := visited a w ++ P]> (arrays w);
  ext_fetched : exists F, fetched w' = fetched w ++ F;
  ext_nodup : NoDup P;
  ext_fresh : forall x, x ∈ P -> x ∉ visited a w
}.

(** The [internals] argument names an object of the heap, whose [allURLs],
    when it has one, is an array of the heap. *)
Definition valid_internals (internals : option nat) (w : World) : Prop :=
  match internals with
  | None => True
  | Some i => exists o, objs w !! i = Some o /\
                        forall a, allURLs o = Some a -> a < length (arrays w)
  end.

(** Lines 11 to 35: the object [crawl] works on, and the world once its
    two properties are initialised. *)
Definition start (internals : option nat) (w : World) : nat * World :=
  let '(i, w0) := internals_param internals w in
  (i, init_allURLs i (init_attempts i w0)).

(** What [crawl] and [process_links] are given for their recursive calls. *)
Definition Rec : Type :=
  string -> Opts -> option nat -> World -> Completion CrawlResult * World.

(** A call on a ready object extends the world, and the URLs of the
    entries of its result are among the URLs it pushed, in their order. *)
Definition rec_frame (rec : Rec) : Prop :=
  forall u opts i a w r w',
    ready i a w -> rec u opts (Some i) w = (r, w') ->
    exists P, extends a w w' P /\ forall c, r = Fulfilled c -> sublist (result_urls c) P.






(** [rec2] completes as [rec1] does wherever [rec1] completes. *)
Definition refines (rec1 rec2 : Rec) : Prop :=
  forall u opts i w r w',
    rec1 u opts i w = (r, w') -> r <> OutOfFuel -> rec2 u opts i w = (r, w').

(** ** Termination *)

(** How many URLs of [site] are not in the list [V]. *)
Definition unvisited (site V : list string) : nat :=
  length (filter (fun x => x ∉ V) site).

(** Every link of every page that [fetch] serves resolves to a URL of
    [site]. *)
Definition links_within `{NodeLib} (fetch : Fetch) (site : list string) : Prop :=
  forall log u st text,
    fetch log u = FetchResponse st (Some text) ->
    forall name href U,
      (name, href) ∈ getHTMLLinks text ->
      url_resolve (href_string href) (u +:+ "/") = Some U ->
      url_format U ∈ site.

(** What is left to do for a call on the object [i] over the array [a]:
    the URLs of the site that are not visited yet, and the attempts the
    object has left. *)
Definition work (site : list string) (opts : Opts) (i a : nat) (w : World) : nat :=
  unvisited site (visited a w) + Z.to_nat (maxAttempts opts - attempts_of w i).

(** [rec] completes whenever the work is less than [b]. *)
Definition completes_within (site : list string) (b : nat) (rec : Rec) : Prop :=
  forall u opts i a w,
    ready i a w -> work site opts i a w < b -> (rec u opts (Some i) w).1 <> OutOfFuel.

(** ** The document, in the words of the specification *)

(** The nodes of the subtree of [n], in document order. *)
Fixpoint nodes (n : Node) : list Node :=
  n :: match n with
       | Element _ _ cs =>
           (fix all (l : list Node) : list Node :=
              match l with
              | [] => []
              | c :: l' => nodes c ++ all l'
              end) cs
       | _ => []
       end.

(** The nodes of a document, in document order. *)
Definition document_order (doc : list Node) : list Node := flat_map nodes doc.

Definition is_anchor (n : Node) : bool :=
  match n with
  | Element t _ _ => String.eqb t "a"
  | _ => false
  end.

Definition attribs_of (n : Node) : list (string * string) :=
  match n with
  | Element _ a _ => a
  | _ => []
  end.

(** The second component of a link as the specification words it: the
    value of the [href] attribute, or the empty string. *)
Definition hrefAttributeValueOrEmpty (el : Node) : string :=
  default "" (attr el "href").

(** The link extractor as the specification words it. *)
Definition extractLinks `{NodeLib} (content : string) : list (string * string) :=
  map (fun el => (node_text el, hrefAttributeValueOrEmpty el))
      (List.filter is_anchor (document_order (cheerio_load content))).

(** Induction over a document: a property of every child is a property of
    the element. *)
Fixpoint Node_children_ind (P : Node -> Prop)
    (HT : forall d, P (TextNode d)) (HC : forall d, P (CommentNode d))
    (HE : forall t a cs, Forall P cs -> P (Element t a cs)) (n : Node) : P n :=
  match n with
  | TextNode d => HT d
  | CommentNode d => HC d
  | Element t a cs =>
      HE t a cs
        ((fix children (l : list Node) : Forall P l :=
            match l with
            | [] => @List.Forall_nil Node P
            | c :: l' => @List.Forall_cons Node P c l' (Node_children_ind P HT HC HE c) (children l')
            end) cs)
  end.

(** ** Node's [url] and [path] on plain http URLs *)

(** An implementation of [NodeLib] for URLs of the form [http://host/path]
    and for references made of path segments: a host of lower-case letters,
    digits and dots, no port, user, query or fragment, no percent-encoding,
    no backslash, and no scheme but [http].  On these, [parse] and [resolve]
    follow the WHATWG URL parser, which Node's [URL] implements: a URL
    without a host is invalid, the segments of a path are kept as they are,
    empty ones too, and the dot segments are resolved.  [relative],
    [isAbsolute] and [extname] follow [path.posix], for absolute paths. *)
Module Posix.

Record Url : Type := mkUrl {
  host : string;
  (** the segments of the path: [/a//] is [["a"; ""; ""]] *)
  segments : list string
}.

(** The pieces of [s] between its slashes. *)
Fixpoint split_slash (s : string) : list string :=
  match s with
  | EmptyString => [""]
  | String c s' =>
      if Ascii.eqb c "/" then "" :: split_slash s'
      else match split_slash s' with
           | h :: t => String c h :: t
           | [] => [String c ""]
           end
  end.

Fixpoint join_slash (l : list string) : string :=
  match l with
  | [] => ""
  | [x] => x
  | x :: l' => x +:+ "/" +:+ join_slash l'
  end.

Fixpoint strip_prefix (p s : string) : option string :=
  match p, s with
  | EmptyString, _ => Some s
  | String a p', String b s' => if Ascii.eqb a b then strip_prefix p' s' else None
  | String _ _, EmptyString => None
  end.

(** The slashes that follow [http://] are skipped. *)
Fixpoint skip_slashes (s : string) : string :=
  match s with
  | String c s' => if Ascii.eqb c "/" then skip_slashes s' else s
  | EmptyString => s
  end.

(** "Shorten a path": remove its last segment, if any. *)
Definition shorten (path : list string) : list string := removelast path.

(** The path state over the segments of the input that are left: a
    double-dot segment shortens the path, a single-dot segment is dropped,
    and either leaves an empty segment when it ends the input. *)
Fixpoint path_state (path segs : list string) : list string :=
  match segs with
  | [] => path
  | seg :: rest =>
      let at_end := match rest with [] => [""] | _ => [] end in
      if String.eqb seg ".." then path_state (shorten path ++ at_end) rest
      else if String.eqb seg "." then path_state (path ++ at_end) rest
      else path_state (path ++ [seg]) rest
  end.

(** [new URL(input)] *)
Definition parse (input : string) : option Url :=
  match strip_prefix "http://" input with
  | None => None
  | Some rest =>
      match split_slash (skip_slashes rest) with
      | h :: segs =>
          if String.eqb h "" then None
          else Some (mkUrl h (path_state [] (match segs with [] => [""] | _ => segs end)))
      | [] => None
      end
  end.

(** [new URL(input, base)] *)
Definition resolve (input base : string) : option Url :=
  match parse base with
  | None => None
  | Some b =>
      match strip_prefix "http://" input with
      | Some _ => parse input
      | None =>
          match input with
          | EmptyString => Some b
          | String c input' =>
              if Ascii.eqb c "/" then
                match input' with
                | String "/" _ => parse ("http:" +:+ input)
                | _ => Some (mkUrl (host b) (path_state [] (split_slash input')))
                end
              else Some (mkUrl (host b) (path_state (shorten (segments b)) (split_slash input)))
          end
      end
  end.

Definition pathname (u : Url) : string := "/" +:+ join_slash (segments u).

(** [url.format(u)], the [href] of [u]. *)
Definition format (u : Url) : string := "http://" +:+ host u +:+ pathname u.

(** [path.posix.resolve] of an absolute path, as its segments. *)
Fixpoint normalize (acc segs : list string) : list string :=
  match segs with
  | [] => acc
  | seg :: rest =>
      if String.eqb seg "" || String.eqb seg "." then normalize acc rest
      else if String.eqb seg ".." then normalize (removelast acc) rest
      else normalize (acc ++ [seg]) rest
  end.

Fixpoint drop_common (from to : list string) : list string * list string :=
  match from, to with
  | f :: from', t :: to' => if String.eqb f t then drop_common from' to' else (from, to)
  | _, _ => (from, to)
  end.

(** [path.posix.relative(from, to)] for absolute paths. *)
Definition relative (from to : string) : string :=
  let '(up, down) := drop_common (normalize [] (split_slash from))
                                 (normalize [] (split_slash to)) in
  join_slash (map (fun _ => "..") up ++ down).

(** [path.posix.isAbsolute(p)] *)
Definition isAbsolute (p : string) : bool := JsString.startsWith p "/".

(** The suffix of [s] from its last dot on, when the dot is not the first
    character of [s]. *)
Fixpoint from_last_dot (s : string) : option string :=
  match s with
  | EmptyString => None
  | String c s' =>
      match from_last_dot s' with
      | Some e => Some e
      | None => if Ascii.eqb c "." then Some s else None
      end
  end.

(** [path.posix.extname(p)] *)
Definition extname (p : string) : string :=
  match last (filter (fun seg => seg ≠ "") (split_slash p)) with
  | None => ""
  | Some base =>
      if String.eqb base ".." then ""
      else match base with
           | EmptyString => ""
           | String c rest => default "" (from_last_dot rest)
           end
  end.

(** The library, over a parser of the pages that are served. *)
Definition lib (load : string -> list Node) : NodeLib :=
  {| URL := Url;
     url_parse := parse;
     url_resolve := resolve;
     url_format := format;
     url_host := host;
     url_pathname := pathname;
     path_relative := relative;
     path_isAbsolute := isAbsolute;
     path_extname := extname;
     cheerio_load := load |}.

End Posix.

(** ** Stubs for the scenarios *)

Module Scenario.

(** A parser known on the pages of a table, and giving the empty document
    elsewhere. *)
Fixpoint load_table (pages : list (string * list Node)) (text : string) : list Node :=
  match pages with
  | [] => []
  | (markup, doc) :: pages' => if String.eqb markup text then doc else load_table pages' text
  end.

(** A server that answers by a table, whatever was fetched before; the
    fetch of a URL that is not in the table is rejected. *)
Fixpoint serve (site : list (string * FetchOutcome)) (log : list string) (url : string)
    : FetchOutcome :=
  match site with
  | [] => FetchRejected
  | (u, r) :: site' => if String.eqb u url then r else serve site' log url
  end.

(** A fetch that is rejected on every call. *)
Definition always_rejected : Fetch := fun _ _ => FetchRejected.

(** The anchor [<a href='href'>label</a>]. *)
Definition anchor (href label : string) : Node :=
  Element "a" [("href", href)] [TextNode label].

Definition listing_markup : string :=
  "<a href='b/'>b/</a><a href='c.mp3'>c.mp3</a><a href='../escape.mp3'>escape.mp3</a>".

Definition listing_doc : list Node :=
  [anchor "b/" "b/"; anchor "c.mp3" "c.mp3"; anchor "../escape.mp3" "escape.mp3"].

Definition pages : list (string * list Node) :=
  [(listing_markup, listing_doc);
   ("<a href='b/'>b/</a>", [anchor "b/" "b/"]);
   ("<a href='x/'>x/</a>", [anchor "x/" "x/"]);
   ("<a>top</a>", [Element "a" [] [TextNode "top"]]);
   ("<a href='http://'>nowhere</a>", [anchor "http://" "nowhere"]);
   ("<a href='c.mp3'>c.mp3</a><a href='./c.mp3'>again</a>",
    [anchor "c.mp3" "c.mp3"; anchor "./c.mp3" "again"])].

Definition lib : NodeLib := Posix.lib (load_table pages).

(** The site of the scenario of the specification: the listing at the
    root, and an empty listing in [b/]. *)
Definition listing_site : Fetch :=
  serve [("http://host/a/", FetchResponse 200 (Some listing_markup));
         ("http://host/a//b/", FetchResponse 200 (Some ""))].

(** The root of the scenarios. *)
Definition root : string := "http://host/a/".

(** A root whose first fetch is rejected and whose later fetches give a
  listing with the one directory [b/]; every other fetch is rejected. *)
Definition flaky_root : Fetch :=
fun log url =>
  if String.eqb url root then
    if bool_decide (root ∈ log) then FetchResponse 200 (Some "<a href='b/'>b/</a>")
    else FetchRejected
  else FetchRejected.


(** A root that answers with a page whose link has no host. *)
Definition hostless_link_site : Fetch :=
serve [(root, FetchResponse 200 (Some "<a href='http://'>nowhere</a>"))].


(** The world in which the caller made an empty [internals] object. *)
Definition caller_world : World := mkWorld [mkInternals None None] [] [].

Definition run (fetch : Fetch) (opts : Opts) : Completion CrawlResult * World :=
crawl (lib := lib) fetch 12 root opts None empty_world.

(** The tree of the scenario. *)
Definition listing_tree : CrawlResult :=
ResultObject [Dir "b" "http://host/a//b/" (Some []);
              File "c.mp3" "http://host/a//c.mp3";
              File "escape.mp3" "http://host/a/escape.mp3"].

(** The URLs the links of the scenario resolve to. *)
Definition listing_urls : list string :=
["http://host/a//b/"; "http://host/a//c.mp3"; "http://host/a/escape.mp3"].


(** The world of a call on [root] once lines 30 and 35 are done. *)
Definition started_world : World := (start None empty_world).2.

Definition root_obj : @URL lib := Posix.mkUrl "host" ["a"; ""].

Definition b_obj : @URL lib := Posix.mkUrl "host" ["a"; ""; "b"; ""].

End Scenario.

(** ** A site without end *)

(** A server that answers every URL with the same page, a listing with the
    one link [x/]: a directory [x] that is its own parent, as a symbolic
    link to [.] makes one. *)
Definition endless_site : Fetch :=
  fun _ _ => FetchResponse 200 (Some "<a href='x/'>x/</a>").

(** [n] times [/x/]. *)
Fixpoint descent (n : nat) : string :=
  match n with
  | O => ""
  | S n' => "/x/" +:+ descent n'
  end.

(** The URL of the directory [n] levels down, as the crawl forms it. *)
Definition level (n : nat) : string := "http://host/a/" +:+ descent n.

(** [n] times the segments [""] and ["x"], then [tl]. *)
Fixpoint descent_segments (n : nat) (tl : list string) : list string :=
  match n with
  | O => tl
  | S n' => "" :: "x" :: descent_segments n' tl
  end.

Definition level_URL (n : nat) : Posix.Url :=
  Posix.mkUrl "host" ("a" :: descent_segments n [""]).

(** [level_URL n], as a URL object of the library of the scenarios. *)
Definition level_obj (n : nat) : @URL Scenario.lib := level_URL n.

(** ** Directories, files and fetches *)

(** The URLs of the directory entries of a tree, at every depth. *)
Fixpoint item_dir_urls (it : Item) : list string :=
  match it with
  | File _ _ => []
  | Dir _ u its =>
      u :: match its with
           | None => []
           | Some l =>
               (fix urls (l : list Item) : list string :=
                  match l with
                  | [] => []
                  | x :: l' => item_dir_urls x ++ urls l'
                  end) l
           end
  end.

Definition items_dir_urls (l : list Item) : list string := flat_map item_dir_urls l.

Definition result_dir_urls (r : CrawlResult) : list string :=
  match r with
  | ResultObject l => items_dir_urls l
  | EmptyArray => []
  end.

(** The [downloaderArg] of the file entries of a tree, at every depth. *)
Fixpoint item_file_urls (it : Item) : list string :=
  match it with
  | File _ u => [u]
  | Dir _ _ its =>
      match its with
      | None => []
      | Some l =>
          (fix urls (l : list Item) : list string :=
             match l with
             | [] => []
             | x :: l' => item_file_urls x ++ urls l'
             end) l
      end
  end.

Definition items_file_urls (l : list Item) : list string := flat_map item_file_urls l.

Definition result_file_urls (r : CrawlResult) : list string :=
  match r with
  | ResultObject l => items_file_urls l
  | EmptyArray => []
  end.

(** Induction over a tree: a property of every entry of a directory is a
    property of the directory. *)
Fixpoint Item_children_ind (P : Item -> Prop)
    (HF : forall name u, P (File name u))
    (HN : forall name u, P (Dir name u None))
    (HD : forall name u l, Forall P l -> P (Dir name u (Some l))) (it : Item) : P it :=
  match it with
  | File name u => HF name u
  | Dir name u None => HN name u
  | Dir name u (Some l) =>
      HD name u l
        ((fix children (l : list Item) : Forall P l :=
            match l with
            | [] => @List.Forall_nil Item P
            | c :: l' =>
                @List.Forall_cons Item P c l' (Item_children_ind P HF HN HD c) (children l')
            end) l)
  end.

(** The fetches a call issues are those of its own URL and of the
    directories of its result; and the call is not rejected with the
    string ['FAILED_DOWNLOAD'], which its own [.catch] handles. *)
Definition rec_fetches (rec : Rec) : Prop :=
  forall u opts i w r w',
    rec u opts i w = (r, w') ->
    r <> Rejected FAILED_DOWNLOAD
    /\ exists F, fetched w' = fetched w ++ F
                 /\ forall c, r = Fulfilled c ->
                      forall x, x ∈ F <-> x = u \/ x ∈ result_dir_urls c.

(** A call does not fetch a URL that is in the visited list when it
    starts, other than the URL it is called with. *)
Definition rec_avoids (rec : Rec) : Prop :=
  forall u opts i a w r w' x,
    ready i a w -> x ∈ visited a w -> x <> u ->
    rec u opts (Some i) w = (r, w') ->
    exists F, fetched w' = fetched w ++ F /\ x ∉ F.

(** The links of a page are recorded: each resolves to a URL that is in
    the list [V]. *)
Definition links_recorded `{NodeLib} (absURL : string) (links : list Link) (V : list string)
    : Prop :=
  forall name href,
    (name, href) ∈ links ->
    exists U, url_resolve (href_string href) (absURL +:+ "/") = Some U /\ url_format U ∈ V.

(** A call that completes with a tree read a page of its URL, and
    recorded all the links of that page in the array of its internals. *)
Definition rec_records `{NodeLib} (fetch : Fetch) (rec : Rec) : Prop :=
  forall u opts i a w items w',
    ready i a w ->
    rec u opts (Some i) w = (Fulfilled (ResultObject items), w') ->
    exists log st text,
      fetch log u = FetchResponse st (Some text)
      /\ links_recorded u (getHTMLLinks text) (visited a w').

(** ** Where the entries come from *)

Section Provenance.
Context `{lib : NodeLib}.
Variable fetch : Fetch.
Variable opts : Opts.

(** [links] are the links of a page that [fetch] gives for [absURL],
    which parses as [absURLObj]. *)
Definition served (absURL : string) (absURLObj : URL) (links : list Link) : Prop :=
  url_parse absURL = Some absURLObj
  /\ exists log st text,
       fetch log absURL = FetchResponse st (Some text) /\ links = getHTMLLinks text.

(** An entry with this name and URL was made for a link of [links] that
    has an [href]: the name is the label of the link as lines 58 to 62
    clean it, the URL is the [href] resolved against the directory, the
    URL passed the checks of lines 74 to 90, a directory is an [href] that
    ends with a slash, and a file passed the check of its extension. *)
Definition made_from (absURL : string) (absURLObj : URL) (links : list Link)
    (name linkURL : string) (is_dir : bool) : Prop :=
  exists label href urlObj,
    (label, Some href) ∈ links
    /\ name = entry_name label
    /\ url_resolve href (absURL +:+ "/") = Some urlObj
    /\ linkURL = url_format urlObj
    /\ ignored opts absURLObj urlObj linkURL = false
    /\ JsString.endsWith href "/" = is_dir
    /\ (is_dir = false -> bad_extension opts href = false).

(** The entry was made for a link of [links], and so were, from a page of
    its own URL, the entries of a directory that has a list. *)
Fixpoint entry_ok (absURL : string) (absURLObj : URL) (links : list Link) (it : Item)
    : Prop :=
  match it with
  | File name u => made_from absURL absURLObj links name u false
  | Dir name u its =>
      made_from absURL absURLObj links name u true
      /\ match its with
         | None => True
         | Some l =>
             exists U' links',
               served u U' links'
               /\ (fix all (l : list Item) : Prop :=
                     match l with
                     | [] => True
                     | c :: l' => entry_ok u U' links' c /\ all l'
                     end) l
         end
  end.

(** The list of a directory: all its entries come from one page of the
    directory. *)
Definition listing_ok (absURL : string) (items : list Item) : Prop :=
  exists U links, served absURL U links /\ Forall (entry_ok absURL U links) items.

End Provenance.

(** The trees that [rec] completes with are made of the links of the pages
    of their directories. *)
Definition rec_listing `{NodeLib} (fetch : Fetch) (rec : Rec) : Prop :=
  forall u opts i w items w',
    rec u opts i w = (Fulfilled (ResultObject items), w') -> listing_ok fetch opts u items.

(** ** The order of the entries *)

(** The name and the URL of an entry. *)
Definition item_head (it : Item) : string * string :=
  match it with
  | File name u => (name, u)
  | Dir name u _ => (name, u)
  end.

(** The name and the URL that the loop computes for a link, when the
    [href] resolves. *)
Definition link_head `{NodeLib} (absURL : string) (l : Link) : option (string * string) :=
  match url_resolve (href_string l.2) (absURL +:+ "/") with
  | Some urlObj => Some (entry_name l.1, url_format urlObj)
  | None => None
  end.

Definition link_heads `{NodeLib} (absURL : string) (links : list Link)
    : list (string * string) :=
  omap (link_head absURL) links.

(** The entries that [rec] completes with are in the order of the links
    of a page of its URL. *)
Definition rec_ordered `{NodeLib} (fetch : Fetch) (rec : Rec) : Prop :=
  forall u opts i w items w',
    rec u opts i w = (Fulfilled (ResultObject items), w') ->
    exists log st text,
      fetch log u = FetchResponse st (Some text)
      /\ sublist (map item_head items) (link_heads u (getHTMLLinks text)).

(** ** What is recorded *)

(** [x] is what a link of a page that [fetch] serves resolves to. *)
Definition linked `{NodeLib} (fetch : Fetch) (x : string) : Prop :=
  exists log p st text name href U,
    fetch log p = FetchResponse st (Some text)
    /\ (name, href) ∈ getHTMLLinks text
    /\ url_resolve (href_string href) (p +:+ "/") = Some U
    /\ url_format U = x.

(** What the array [a] holds in [w'] was in it in [w], or is the URL of a
    link. *)
Definition grown_by_links `{NodeLib} (fetch : Fetch) (a : nat) (w w' : World) : Prop :=
  forall x, x ∈ visited a w' -> x ∈ visited a w \/ linked fetch x.

Definition rec_links_only `{NodeLib} (fetch : Fetch) (rec : Rec) : Prop :=
  forall u opts i a w r w',
    ready i a w -> rec u opts (Some i) w = (r, w') -> grown_by_links fetch a w w'.

(** ** What a rejection comes from *)

(** A page that [fetch] serves makes the loop throw [e]: the body of a
    response cannot be read; or a link has no [href] to call [endsWith]
    on; or the [URL] constructor throws, on the [href] of a link, or in
    the crawl of the URL a link resolved to. *)
Definition thrown_on_page `{NodeLib} (fetch : Fetch) (e : JsError) : Prop :=
  (e = BodyReadError /\ exists log p st, fetch log p = FetchResponse st None)
  \/ exists log p st text name href,
       fetch log p = FetchResponse st (Some text)
       /\ (name, href) ∈ getHTMLLinks text
       /\ ((e = TypeError "Cannot read property 'endsWith' of undefined" /\ href = None)
           \/ (e = TypeError "Invalid URL"
               /\ match url_resolve (href_string href) (p +:+ "/") with
                  | None => True
                  | Some urlObj => url_parse (url_format urlObj) = None
                  end)).

(** What [rec] is rejected with was thrown by the [URL] constructor on
    its own URL, or on a page. *)
Definition rec_thrown `{NodeLib} (fetch : Fetch) (rec : Rec) : Prop :=
  forall u opts i w e w',
    rec u opts i w = (Rejected e, w') ->
    (e = TypeError "Invalid URL" /\ url_parse u = None) \/ thrown_on_page fetch e.

(** The fetches of a call that completes with a tree are that of its URL,
    then those of the directories of the tree, in the order of the
    tree. *)
Definition rec_fetch_order (rec : Rec) : Prop :=
  forall u opts i w c w',
    rec u opts i w = (Fulfilled c, w') -> fetched w' = fetched w ++ u :: result_dir_urls c.

(** ** The attempts of the objects a crawl makes *)

(** The objects of [w'] are those of [w] and new ones, each with at least
    [n] attempts. *)
Definition allocates (n : Z) (w w' : World) : Prop :=
  exists new, objs w' = objs w ++ new
              /\ Forall (fun o => exists m, attempts o = Some m /\ (n <= m)%Z) new.

(** The objects a call makes have at least the attempts of the object
    the call is given. *)
Definition rec_inherits (rec : Rec) : Prop :=
  forall u opts i a w r w',
    ready i a w -> rec u opts (Some i) w = (r, w') -> allocates (attempts_of w i) w w'.

(** * The console *)

(** A line written to the console, by [console.error] or by
    [console.warn]. *)
Inductive ConsoleLine : Type :=
| console_error (text : string)
| console_warn (text : string).

(** A value, and the lines that were written while it was computed. *)
Definition Logged (A : Type) : Type := A * list ConsoleLine.

(** [lines] are written, then [x] is computed. *)
Definition emit {A : Type} (lines : list ConsoleLine) (x : Logged A) : Logged A :=
  (x.1, lines ++ x.2).

(** What [crawl] with its console is given for its recursive calls. *)
Definition RecLog : Type :=
  string -> Opts -> option nat -> World -> Logged (Completion CrawlResult * World).

Section CrawlLog.
Context `{lib : NodeLib}.
Variable fetch : Fetch.

(** How a number is written when it is made part of a string. *)
Variable number : Z -> string.

(** [verboseLog(text)]: lines 37 to 41. *)
Definition verboseLog (opts : Opts) (text : string) : list ConsoleLine :=
  if verbose opts then [console_error text] else [].

(** The loop of lines 52 to 117 with its calls of [verboseLog]. *)
Fixpoint process_links_log (rec : RecLog)
    (absURL : string) (absURLObj : URL) (opts : Opts) (internals : nat)
    (links : list Link) (items : list Item) (w : World)
    : Logged (Completion (list Item) * World) :=
  match links with
  | [] => ((Fulfilled items, w), [])
  | (name, href) :: links' =>
      let continue := process_links_log rec absURL absURLObj opts internals links' in
      let name := entry_name name in
      match url_resolve (href_string href) (absURL +:+ "/") with
      | None => ((Rejected (TypeError "Invalid URL"), w), [])
      | Some urlObj =>
          let linkURL := url_format urlObj in
          if bool_decide (linkURL ∈ allURLs_of w internals) then
            emit (verboseLog opts ("[Ignored] Already done this URL: " +:+ linkURL))
                 (continue items w)
          else
            let w := push_URL internals linkURL w in
            if match filterRegex opts with
               | Some test => negb (test linkURL)
               | None => false
               end
            then emit (verboseLog opts ("[Ignored] Failed regex: " +:+ linkURL))
                      (continue items w)
            else if negb (keepSeparateHosts opts)
                    && negb (String.eqb (url_host urlObj) (url_host absURLObj))
            then emit (verboseLog opts ("[Ignored] Inconsistent host: " +:+ linkURL))
                      (continue items w)
            else if stayInSameDirectory opts &&
                    let relative :=
                      path_relative (url_pathname absURLObj) (url_pathname urlObj) in
                    (JsString.startsWith relative ".." || path_isAbsolute relative)
            then emit (verboseLog opts ("[Ignored] Outside of parent directory: " +:+ linkURL))
                      (continue items w)
            else
              match href with
              | None =>
                  ((Rejected (TypeError "Cannot read property 'endsWith' of undefined"), w), [])
              | Some href =>
                  if JsString.endsWith href "/" then
                    emit (verboseLog opts ("[Dir] " +:+ linkURL))
                      (let '(child, w) := object_assign internals None w in
                       match rec linkURL opts (Some child) w with
                       | ((Fulfilled r, w), out) =>
                           emit out (continue (items ++ [Dir name linkURL (result_items r)]) w)
                       | ((Rejected e, w), out) => ((Rejected e, w), out)
                       | ((OutOfFuel, w), out) => ((OutOfFuel, w), out)
                       end)
                  else if bad_extension opts href then
                    emit (verboseLog opts ("[Ignored] Bad extension: " +:+ linkURL))
                         (continue items w)
                  else
                    emit (verboseLog opts ("[File] " +:+ linkURL))
                         (continue (items ++ [File name linkURL]) w)
              end
      end
  end.

(** The body of [crawl] with the console: the loop with its lines, and
    the lines of the handler of a rejected fetch, lines 122 to 141. *)
Definition crawl_body_log (rec : RecLog)
    (absURL : string) (opts : Opts) (internals : option nat) (w : World)
    : Logged (Completion CrawlResult * World) :=
  let '(i, w) := internals_param internals w in
  let w := init_attempts i w in
  let w := init_allURLs i w in
  match url_parse absURL with
  | None => ((Rejected (TypeError "Invalid URL"), w), [])
  | Some absURLObj =>
      let '(res, w) := do_fetch fetch absURL w in
      let '(r, out) :=
        match res with
        | FetchResponse _ (Some text) =>
            let '(r, out) :=
              process_links_log rec absURL absURLObj opts i (getHTMLLinks text) [] w in
            (return_items r, out)
        | FetchResponse _ None => ((Rejected BodyReadError, w), [])
        | FetchRejected =>
            emit [console_warn ("Failed to download: " +:+ absURL)]
              (if (attempts_of w i <? maxAttempts opts)%Z then
                 emit [console_warn ("Trying again. Attempt "
                                     +:+ number (attempts_of w i + 1)%Z
                                     +:+ "/" +:+ number (maxAttempts opts) +:+ "...")]
                   (let '(retry, w) :=
                      object_assign i (Some (attempts_of w i + 1)%Z) w in
                    rec absURL opts (Some retry) w)
               else
                 ((Rejected FAILED_DOWNLOAD, w),
                  [console_error ("We've hit the download attempt limit ("
                                  +:+ number (maxAttempts opts)
                                  +:+ "). Giving up on this path.")]))
        end in
      (catch_failed_download r, out)
  end.

(** [crawl] with the console, unfolded [fuel] calls deep. *)
Fixpoint crawl_log (fuel : nat) (absURL : string) (opts : Opts) (internals : option nat)
    (w : World) : Logged (Completion CrawlResult * World) :=
  match fuel with
  | O => ((OutOfFuel, w), [])
  | S fuel' => crawl_body_log (crawl_log fuel') absURL opts internals w
  end.

End CrawlLog.

(** The lines that [verboseLog] wrote with the tag [tag], without the
    tag. *)
Definition tagged (tag : string) (out : list ConsoleLine) : list string :=
  omap (fun l => match l with
                 | console_error text => Posix.strip_prefix tag text
                 | console_warn _ => None
                 end) out.

(** The lines of a call that gives up after [k] more attempts, from the
    number of attempts [a]. *)
Fixpoint give_up_lines (number : Z -> string) (absURL : string) (opts : Opts) (a : Z) (k : nat)
    : list ConsoleLine :=
  console_warn ("Failed to download: " +:+ absURL)
  :: match k with
     | O => [console_error ("We've hit the download attempt limit ("
                            +:+ number (maxAttempts opts)
                            +:+ "). Giving up on this path.")]
     | S k' =>
         console_warn ("Trying again. Attempt " +:+ number (a + 1)%Z
                       +:+ "/" +:+ number (maxAttempts opts) +:+ "...")
         :: give_up_lines number absURL opts (a + 1)%Z k'
     end.

(** A line of the handler of a rejected fetch. *)
Definition failure_line (l : ConsoleLine) : bool :=
  match l with
  | console_warn text =>
      JsString.startsWith text "Failed to download: "
      || JsString.startsWith text "Trying again. Attempt "
  | console_error text => JsString.startsWith text "We've hit the download attempt limit ("
  end.

(** [recl] is [rec] with a console. *)
Definition rec_erases (recl : RecLog) (rec : Rec) : Prop :=
  forall u opts i w, (recl u opts i w).1 = rec u opts i w.

(** The tagged lines of a completed call are the files and the directories
    of its tree. *)
Definition rec_tags (recl : RecLog) : Prop :=
  forall u opts i w c w' out,
    verbose opts = true ->
    recl u opts i w = ((Fulfilled c, w'), out) ->
    tagged "[File] " out = result_file_urls c /\ tagged "[Dir] " out = result_dir_urls c.

(** Without [verbose], [recl] writes only the lines of the handler of a
    rejected fetch. *)
Definition rec_quiet (recl : RecLog) : Prop :=
  forall u opts i w r out,
    verbose opts = false ->
    recl u opts i w = (r, out) -> Forall (fun l => failure_line l = true) out.

(** [opts] with [verbose] set to [b]. *)
Definition with_verbose (b : bool) (opts : Opts) : Opts :=
  {| verbose := b;
     maxAttempts := maxAttempts opts;
     keepSeparateHosts := keepSeparateHosts opts;
     stayInSameDirectory := stayInSameDirectory opts;
     keepAnyFileType := keepAnyFileType opts;
     fileTypes := fileTypes opts;
     filterRegex := filterRegex opts |}.

(** [x] and [y] are the same but for the lines of [verboseLog]: the
    values are the same, and the lines of [x] are the lines of [y] that the
    handler of a rejected fetch wrote, in their order. *)
Definition quieter {A : Type} (x y : Logged A) : Prop :=
  x.1 = y.1 /\ x.2 = List.filter failure_line y.2.

(** With [opts], [recq] without [verbose] is [recl] with [verbose], but
    for the lines of [verboseLog]. *)
Definition rec_quieter (opts : Opts) (recq recl : RecLog) : Prop :=
  forall u i w,
    quieter (recq u (with_verbose false opts) i w) (recl u (with_verbose true opts) i w).

(** ** More stubs for the scenarios *)

Module Sites.
Import Scenario.

(** The default options, with [verbose]. *)
Definition verbose_opts : Opts :=
  {| verbose := true;
     maxAttempts := 5;
     keepSeparateHosts := false;
     stayInSameDirectory := true;
     keepAnyFileType := false;
     fileTypes := ["wav"; "ogg"; "oga"; "mp3"; "mp4"; "m4a"; "mov"; "mpga"; "mod"];
     filterRegex := None |}.

(** A server that answers every URL: with the listing of the scenario at
    the root, and with an empty page elsewhere. *)
Definition answering_site : Fetch :=
  fun _ url =>
    if String.eqb url root then FetchResponse 200 (Some listing_markup)
    else FetchResponse 200 (Some "").

(** The world of a call on [root] that has recorded the directory [b/]. *)
Definition b_visited_world : World := push_URL 0 "http://host/a//b/" started_world.

(** The items of [listing_tree]. *)
Definition listing_items : list Item :=
  [Dir "b" "http://host/a//b/" (Some []);
   File "c.mp3" "http://host/a//c.mp3";
   File "escape.mp3" "http://host/a/escape.mp3"].

(** How the scenarios write a number: in decimal. *)
Definition decimal (n : Z) : string := pretty n.

(** The crawl of the scenario with its console, in verbose mode. *)
Definition verbose_run : Logged (Completion CrawlResult * World) :=
  crawl_log (lib := lib) listing_site decimal 12 root verbose_opts None empty_world.

(** The crawl of the flaky root with its console. *)
Definition flaky_run : Logged (Completion CrawlResult * World) :=
  crawl_log (lib := lib) flaky_root decimal 12 root default_opts None empty_world.

(** The world in which the caller made an [internals] object that has
  [attempts] and no [allURLs]. *)
Definition attempts_only_world : World := mkWorld [mkInternals (Some 2%Z) None] [] [].

(** The world in which the caller made an [internals] object that has no
  [attempts], and whose [allURLs] holds the URL of [b/]. *)
Definition allURLs_only_world : World :=
mkWorld [mkInternals None (Some 0)] [["http://host/a//b/"]] [].

End Sites.


(** * Properties *)

Lemma items_urls_app l1 l2 : items_urls (l1 ++ l2) = items_urls l1 ++ items_urls l2.
Proof. unfold items_urls. by rewrite flat_map_app. Qed.

Lemma item_urls_Dir name u r :
  item_urls (Dir name u (result_items r)) = u :: result_urls r.
Proof.
  by destruct r.
Qed.

Lemma visited_insert a V (w : World) :
  a < length (arrays w) ->
  visited a (mkWorld (objs w) (<[a := V]> (arrays w)) (fetched w)) = V.
Proof. intros Ha. unfold visited. simpl. by rewrite list_lookup_insert_eq. Qed.

Lemma extends_refl a w : extends a w w [].
Proof.
  split.
  - exists []. by rewrite app_nil_r.
  - rewrite app_nil_r. unfold visited.
    destruct (arrays w !! a) as [V|] eqn:E; simpl.
    + by rewrite list_insert_id.
    + rewrite list_insert_ge; [done|]. by apply lookup_ge_None.
  - exists []. by rewrite app_nil_r.
  - constructor.
  - intros x Hx. by apply elem_of_nil in Hx.
Qed.

Lemma extends_visited a w w' P :
  a < length (arrays w) -> extends a w w' P -> visited a w' = visited a w ++ P.
Proof.
  intros Ha [_ E _ _ _]. unfold visited at 1. rewrite E.
  by rewrite list_lookup_insert_eq.
Qed.

Lemma extends_length a w w' P : extends a w w' P -> length (arrays w') = length (arrays w).
Proof. intros [_ E _ _ _]. rewrite E. apply length_insert. Qed.

Lemma extends_trans a w1 w2 w3 P Q :
  a < length (arrays w1) ->
  extends a w1 w2 P -> extends a w2 w3 Q -> extends a w1 w3 (P ++ Q).
Proof.
  intros Ha H12 H23.
  pose proof (extends_visited _ _ _ _ Ha H12) as Hv.
  destruct H12 as [(n1 & O1 & F1) A1 (f1 & L1) N1 R1].
  destruct H23 as [(n2 & O2 & F2) A2 (f2 & L2) N2 R2].
  split.
  - exists (n1 ++ n2). rewrite O2, O1, app_assoc. split; [done|]. by apply Forall_app.
  - rewrite A2, Hv, A1, list_insert_insert_eq. by rewrite app_assoc.
  - exists (f1 ++ f2). by rewrite L2, L1, app_assoc.
  - apply NoDup_app. split; [done|]. split; [|done].
    intros x HP HQ. apply R2 in HQ. apply HQ. rewrite Hv. apply elem_of_app. by right.
  - intros x Hx. apply elem_of_app in Hx as [Hx|Hx]; [by apply R1|].
    apply R2 in Hx. rewrite Hv in Hx. intros Hin. apply Hx, elem_of_app. by left.
Qed.

Lemma extends_ready i a w w' P : ready i a w -> extends a w w' P -> ready i a w'.
Proof.
  intros [(n & Hi) Ha] H. split.
  - exists n. destruct H as [(new & O & _) _ _ _ _]. rewrite O.
    by apply lookup_app_l_Some.
  - by rewrite (extends_length _ _ _ _ H).
Qed.

Section Frame.
Context `{lib : NodeLib}.
Variable fetch : Fetch.

Lemma ready_get_obj i a w :
  ready i a w -> exists n, get_obj w i = mkInternals (Some n) (Some a).
Proof. intros [(n & Hi) _]. exists n. unfold get_obj. by rewrite Hi. Qed.

Lemma ready_allURLs_of i a w : ready i a w -> allURLs_of w i = visited a w.
Proof. intros H. destruct (ready_get_obj _ _ _ H) as (n & E). unfold allURLs_of. by rewrite E. Qed.

Lemma ready_init i a w : ready i a w -> init_allURLs i (init_attempts i w) = w.
Proof.
  intros H. destruct (ready_get_obj _ _ _ H) as (n & E). destruct H as [(n' & Hi) _].
  assert (init_attempts i w = w) as ->.
  { unfold init_attempts. rewrite E. simpl. destruct (n =? 0)%Z eqn:En; [|done].
    apply Z.eqb_eq in En. subst n. unfold set_obj. destruct w as [o ar f]. simpl in *.
    f_equal. apply list_insert_id. unfold get_obj in E. simpl in E. rewrite Hi in E.
    simpl in E. by rewrite Hi, E. }
  unfold init_allURLs. by rewrite E.
Qed.

Lemma ready_push i a w x :
  ready i a w -> x ∉ visited a w ->
  extends a w (push_URL i x w) [x] /\ ready i a (push_URL i x w).
Proof.
  intros H Hx. destruct (ready_get_obj _ _ _ H) as (n & E).
  assert (push_URL i x w = mkWorld (objs w) (<[a := visited a w ++ [x]]> (arrays w)) (fetched w)) as ->.
  { unfold push_URL. by rewrite E. }
  split.
  - split; simpl.
    + exists []. by rewrite app_nil_r.
    + done.
    + exists []. by rewrite app_nil_r.
    + apply NoDup_singleton.
    + intros y Hy. apply list_elem_of_singleton in Hy. by subst.
  - destruct H as [Hi Ha]. split; simpl; [done|]. by rewrite length_insert.
Qed.

Lemma ready_assign i a w na j w' :
  ready i a w -> object_assign i na w = (j, w') ->
  extends a w w' [] /\ ready i a w' /\ ready j a w'.
Proof.
  intros H. destruct (ready_get_obj _ _ _ H) as (n & E). destruct H as [Hi Ha].
  unfold object_assign. rewrite E. simpl. intros [= <- <-]. split; [|split].
  - split; simpl.
    + eexists [_]. split; [done|]. apply Forall_singleton. simpl. split; [done|].
      destruct na; by eexists.
    + rewrite app_nil_r. unfold visited.
      destruct (arrays w !! a) as [V|] eqn:EV; simpl.
      * by rewrite list_insert_id.
      * apply lookup_ge_None in EV. lia.
    + exists []. by rewrite app_nil_r.
    + constructor.
    + intros y Hy. by apply elem_of_nil in Hy.
  - split; simpl; [|done]. destruct Hi as (n' & Hi). exists n'. by apply lookup_app_l_Some.
  - split; simpl; [|done]. rewrite lookup_app_r, Nat.sub_diag by lia. simpl.
    destruct na; by eexists.
Qed.

Lemma ready_fetch i a w u res w' :
  ready i a w -> do_fetch fetch u w = (res, w') ->
  res = fetch (fetched w) u /\ extends a w w' [] /\ ready i a w'.
Proof.
  intros [Hi Ha]. unfold do_fetch. intros [= <- <-]. split; [done|]. split.
  - split; simpl.
    + exists []. by rewrite app_nil_r.
    + rewrite app_nil_r. unfold visited.
      destruct (arrays w !! a) as [V|] eqn:EV; simpl.
      * by rewrite list_insert_id.
      * apply lookup_ge_None in EV. lia.
    + by eexists.
    + constructor.
    + intros y Hy. by apply elem_of_nil in Hy.
  - by split.
Qed.

(** The object and the array a call starts on. *)
Lemma start_ready internals w i w1 :
  valid_internals internals w -> start internals w = (i, w1) ->
  exists a, ready i a w1
    /\ fetched w1 = fetched w
    /\ attempts_of w1 i = attempts_of (internals_param internals w).2 i
    /\ (forall rec u opts,
          crawl_body fetch rec u opts internals w = crawl_body fetch rec u opts (Some i) w1)
    /\ (forall j o, length (objs w) <= j -> objs w1 !! j = Some o -> allURLs o = Some a)
    /\ (forall j, j <> i -> j < length (objs w) -> objs w1 !! j = objs w !! j)
    /\ match allURLs (get_obj (internals_param internals w).2 i) with
       | Some a' => a' = a /\ arrays w1 = arrays w
       | None => a = length (arrays w) /\ arrays w1 = arrays w ++ [[]]
       end.
Proof.
  intros Hv Hs.
  assert (Hgen : forall w0, (exists o, objs w0 !! i = Some o /\
                    forall a, allURLs o = Some a -> a < length (arrays w0)) ->
      exists a, ready i a (init_allURLs i (init_attempts i w0))
        /\ fetched (init_allURLs i (init_attempts i w0)) = fetched w0
        /\ attempts_of (init_allURLs i (init_attempts i w0)) i = attempts_of w0 i
        /\ length (objs (init_allURLs i (init_attempts i w0))) = length (objs w0)
        /\ (forall j, j <> i -> objs (init_allURLs i (init_attempts i w0)) !! j = objs w0 !! j)
        /\ match allURLs (get_obj w0 i) with
           | Some a' => a' = a /\ arrays (init_allURLs i (init_attempts i w0)) = arrays w0
           | None => a = length (arrays w0)
                     /\ arrays (init_allURLs i (init_attempts i w0)) = arrays w0 ++ [[]]
           end).
  { intros w0 (o & Ho & Harr).
    assert (Hi : i < length (objs w0)) by (by eapply lookup_lt_Some).
    set (wa := init_attempts i w0).
    assert (Hwa : exists n, objs wa !! i = Some (mkInternals (Some n) (allURLs o))
              /\ n = default 0%Z (attempts o)
              /\ arrays wa = arrays w0 /\ fetched wa = fetched w0
              /\ length (objs wa) = length (objs w0)
              /\ forall j, j <> i -> objs wa !! j = objs w0 !! j).
    { unfold wa, init_attempts, get_obj. rewrite Ho. simpl.
      destruct o as [[n|] al]; simpl.
      - destruct (n =? 0)%Z eqn:En.
        + apply Z.eqb_eq in En. subst n. exists 0%Z. simpl. rewrite list_lookup_insert_eq by done.
          rewrite length_insert. repeat split; try done.
          intros j Hj. by rewrite list_lookup_insert_ne.
        + exists n. done.
      - exists 0%Z. simpl. rewrite list_lookup_insert_eq by done.
        rewrite length_insert. repeat split; try done.
        intros j Hj. by rewrite list_lookup_insert_ne. }
    destruct Hwa as (n & Hoa & Hn & Haa & Hfa & Hla & Hja).
    assert (Hal : allURLs (get_obj w0 i) = allURLs o) by (unfold get_obj; by rewrite Ho).
    assert (Hat : attempts_of w0 i = n).
    { unfold attempts_of, get_obj. by rewrite Ho. }
    rewrite Hal, Hat. unfold init_allURLs, attempts_of. unfold get_obj. rewrite Hoa. simpl.
    destruct (allURLs o) as [a'|] eqn:Ea.
    - exists a'. rewrite Hoa. split; [|by repeat split].
      split; [by exists n|]. rewrite Haa. by apply Harr.
    - exists (length (arrays w0)). simpl. rewrite Haa.
      rewrite list_lookup_insert_eq by lia.
      split; [|repeat split; try done].
      + split; simpl.
        * exists n. apply list_lookup_insert_eq. lia.
        * rewrite length_app. simpl. lia.
      + by rewrite length_insert.
      + intros j Hj. rewrite list_lookup_insert_ne by done. by apply Hja. }
  unfold start in Hs. destruct internals as [i0|]; simpl in Hs, Hv.
  - injection Hs as <- <-. destruct (Hgen w Hv) as (a & Hr & Hf & Hat & Hl & Hj & Harr).
    exists a. split; [done|]. split; [done|]. split; [done|]. split; [|split; [|split]].
    + intros rec u opts. unfold crawl_body, internals_param. cbv beta iota zeta.
      by rewrite (ready_init _ _ _ Hr).
    + intros j o Hlen Hlk. apply lookup_lt_Some in Hlk.
      destruct Hv as (o' & Ho' & _). apply lookup_lt_Some in Ho'.
      destruct (decide (j = i0)); lia.
    + intros j Hne _. by apply Hj.
    + done.
  - injection Hs as <- <-.
    set (w0 := mkWorld (objs w ++ [mkInternals None None]) (arrays w) (fetched w)) in *.
    destruct (Hgen w0) as (a & Hr & Hf & Hat & Hl & Hj & Harr).
    { exists (mkInternals None None). split; [|done]. unfold w0. simpl.
      by rewrite lookup_app_r, Nat.sub_diag by lia. }
    exists a. split; [done|]. split; [done|]. split; [done|]. split; [|split; [|split]].
    + intros rec u opts. unfold crawl_body, internals_param. cbv beta iota zeta.
      fold w0. by rewrite (ready_init _ _ _ Hr).
    + intros j o Hlen Hlk. pose proof (lookup_lt_Some _ _ _ Hlk) as Hlt.
      rewrite Hl in Hlt. unfold w0 in Hlt. simpl in Hlt. rewrite length_app in Hlt.
      simpl in Hlt. assert (j = length (objs w)) as -> by lia.
      destruct Hr as [(n & Hn) _]. rewrite Hn in Hlk. by injection Hlk as <-.
    + intros j Hne Hlt. rewrite Hj by done. unfold w0. simpl. by rewrite lookup_app_l.
    + done.
Qed.

Opaque object_assign push_URL do_fetch allURLs_of attempts_of init_attempts init_allURLs.

Lemma process_links_frame rec absURL absURLObj opts i a :
  rec_frame rec ->
  forall links items w r w',
    ready i a w ->
    process_links rec absURL absURLObj opts i links items w = (r, w') ->
    exists P, extends a w w' P /\
      forall its, r = Fulfilled its ->
        exists new, its = items ++ new /\ sublist (items_urls new) P.
Proof.
  intros Hrec. induction links as [|[name href] links IH]; intros items w r w' Hw Hp; simpl in Hp.
  { inversion Hp; subst. exists []. split; [apply extends_refl|].
    intros its [= <-]. exists []. by rewrite app_nil_r. }
  destruct (url_resolve _ _) as [urlObj|] eqn:Hres.
  2:{ inversion Hp; subst. exists []. split; [apply extends_refl|]. by intros its [=]. }
  rewrite (ready_allURLs_of _ _ _ Hw) in Hp.
  case_bool_decide as Hin; [by eapply IH|].
  destruct (ready_push _ _ _ _ Hw Hin) as [Hext Hw1].
  set (w1 := push_URL i (url_format urlObj) w) in *.
  assert (Ha : a < length (arrays w)) by apply Hw.
  assert (Hskip : forall r w', process_links rec absURL absURLObj opts i links items w1 = (r, w') ->
    exists P, extends a w w' P /\
      forall its, r = Fulfilled its -> exists new, its = items ++ new /\ sublist (items_urls new) P).
  { intros r0 w0 H0. destruct (IH _ _ _ _ Hw1 H0) as (Q & HQ & Hits).
    exists ([url_format urlObj] ++ Q). split; [by eapply extends_trans|].
    intros its ->. destruct (Hits _ eq_refl) as (new & -> & Hsub).
    exists new. split; [done|]. by apply sublist_cons. }
  destruct (ignored _ _ _ _); [by apply Hskip|].
  destruct href as [href|].
  2:{ inversion Hp; subst. exists [url_format urlObj]. split; [done|]. by intros its [=]. }
  destruct (JsString.endsWith href "/").
  - destruct (object_assign i None w1) as [child w2] eqn:Has.
    destruct (ready_assign _ _ _ _ _ _ Hw1 Has) as (Hext2 & Hw2 & Hchild).
    destruct (rec _ _ _ _) as [rc w3] eqn:Hrc.
    destruct (Hrec _ _ _ _ _ _ _ Hchild Hrc) as (Q & HQ & Hsub).
    assert (Hext3 : extends a w w3 ([url_format urlObj] ++ Q)).
    { eapply extends_trans; [done|done|].
      replace Q with ([] ++ Q) by done.
      eapply extends_trans; [|done|done]. by rewrite (extends_length _ _ _ _ Hext). }
    assert (Hw3 : ready i a w3).
    { eapply extends_ready; [|done]. done. }
    destruct rc as [c|e|].
    + destruct (IH _ _ _ _ Hw3 Hp) as (Q' & HQ' & Hits).
      exists (([url_format urlObj] ++ Q) ++ Q'). split; [by eapply extends_trans|].
      intros its ->. destruct (Hits _ eq_refl) as (new & -> & Hsub').
      eexists (_ :: new). split; [by rewrite <- app_assoc|].
      change (items_urls (?x :: new)) with (item_urls x ++ items_urls new).
      rewrite item_urls_Dir. simpl.
      apply sublist_skip. apply sublist_app; [|done]. by apply Hsub.
    + inversion Hp; subst. eexists. split; [done|]. by intros its [=].
    + inversion Hp; subst. eexists. split; [done|]. by intros its [=].
  - destruct (bad_extension _ _); [by apply Hskip|].
    destruct (IH _ _ _ _ Hw1 Hp) as (Q & HQ & Hits).
    exists ([url_format urlObj] ++ Q). split; [by eapply extends_trans|].
    intros its ->. destruct (Hits _ eq_refl) as (new & -> & Hsub).
    eexists (_ :: new). split; [by rewrite <- app_assoc|].
    change (items_urls (?x :: new)) with (item_urls x ++ items_urls new).
    simpl. by apply sublist_skip.
Qed.

Lemma catch_failed_download_inv x r w' :
  catch_failed_download x = (r, w') ->
  x = (r, w') \/ (x = (Rejected FAILED_DOWNLOAD, w') /\ r = Fulfilled EmptyArray).
Proof.
  destruct x as [[c|[]|] w0]; simpl; intros [= <- <-]; auto.
Qed.

Lemma return_items_inv x r w' :
  return_items x = (r, w') ->
  match r with
  | Fulfilled c => exists its, c = ResultObject its /\ x = (Fulfilled its, w')
  | Rejected e => x = (Rejected e, w')
  | OutOfFuel => x = (OutOfFuel, w')
  end.
Proof.
  destruct x as [[its|e|] w0]; simpl; intros [= <- <-]; eauto.
Qed.

Lemma crawl_body_frame rec : rec_frame rec -> rec_frame (crawl_body fetch rec).
Proof.
  intros Hrec u opts i a w r w' Hw H. unfold crawl_body in H.
  change (internals_param (Some i) w) with (i, w) in H. cbv beta iota zeta in H.
  rewrite (ready_init _ _ _ Hw) in H.
  destruct (url_parse u) as [U|].
  2:{ inversion H; subst. exists []. split; [apply extends_refl|]. by intros c [=]. }
  destruct (do_fetch fetch u w) as [res w1] eqn:Hf.
  destruct (ready_fetch _ _ _ _ _ _ Hw Hf) as (_ & Hext1 & Hw1).
  assert (Ha : a < length (arrays w)) by apply Hw.
  assert (Hdone : forall x, x = (r, w') \/ (x = (Rejected FAILED_DOWNLOAD, w') /\ r = Fulfilled EmptyArray) ->
    (forall r0 w0, x = (r0, w0) -> exists P, extends a w1 w0 P /\
       forall c, r0 = Fulfilled c -> sublist (result_urls c) P) ->
    exists P, extends a w w' P /\ forall c, r = Fulfilled c -> sublist (result_urls c) P).
  { intros x [->|[-> ->]] Hx.
    - destruct (Hx _ _ eq_refl) as (P & HP & Hsub). exists ([] ++ P).
      split; [by eapply extends_trans|done].
    - destruct (Hx _ _ eq_refl) as (P & HP & Hsub). exists ([] ++ P).
      split; [by eapply extends_trans|]. intros c [= <-]. apply sublist_nil_l. }
  apply catch_failed_download_inv in H. eapply Hdone; [exact H|]. clear H Hdone.
  intros r0 w0 H. destruct res as [|st [text|]].
  - destruct (attempts_of w1 i <? maxAttempts opts)%Z.
    + destruct (object_assign _ _ _) as [retry w2] eqn:Has.
      destruct (ready_assign _ _ _ _ _ _ Hw1 Has) as (Hext2 & Hw2 & Hretry).
      destruct (Hrec _ _ _ _ _ _ _ Hretry H) as (Q & HQ & Hsub).
      exists ([] ++ Q). split; [|done]. eapply extends_trans; [apply Hw1|done|done].
    + inversion H; subst. exists []. split; [apply extends_refl|]. by intros c [=].
  - apply return_items_inv in H.
    destruct (process_links _ _ _ _ _ _ _ _) as [rp wp] eqn:Hp.
    destruct (process_links_frame _ _ _ _ _ _ Hrec _ _ _ _ _ Hw1 Hp) as (P & HP & Hits).
    destruct r0 as [c|e|].
    + destruct H as (its & -> & [= -> ->]). exists P. split; [done|].
      intros c [= <-]. destruct (Hits _ eq_refl) as (new & -> & Hsub). done.
    + inversion H; subst. exists P. split; [done|]. by intros c [=].
    + inversion H; subst. exists P. split; [done|]. by intros c [=].
  - inversion H; subst. exists []. split; [apply extends_refl|]. by intros c [=].
Qed.

Lemma crawl_frame fuel : rec_frame (crawl fetch fuel).
Proof.
  induction fuel as [|fuel IH].
  - intros u opts i a w r w' _ [= <- <-]. exists []. split; [apply extends_refl|].
    by intros c [=].
  - by apply crawl_body_frame.
Qed.

End Frame.

Section Sharing.
Context `{lib : NodeLib}.
Variable fetch : Fetch.

(** C6: in every crawl that completes, the internals of every recursive
    call hold the one array [a] of the first call (the visited list is
    shared by reference and never copied), every URL an entry was made
    for, at any depth, is in that array when the crawl ends, and no URL
    has more than one entry in the resulting tree. *)
Theorem visited_shared_no_duplicate_entries fuel u opts internals w c w' :
  valid_internals internals w ->
  crawl fetch fuel u opts internals w = (Fulfilled c, w') ->
  exists a,
    allURLs (get_obj w' (start internals w).1) = Some a
    /\ (forall j o, length (objs w) <= j -> objs w' !! j = Some o -> allURLs o = Some a)
    /\ (forall x, x ∈ result_urls c -> x ∈ visited a w')
    /\ NoDup (result_urls c).
Proof.
  intros Hv Hc. destruct fuel as [|fuel]; [done|]. simpl in Hc.
  destruct (start internals w) as [i w1] eqn:Hs.
  destruct (start_ready fetch _ _ _ _ Hv Hs) as (a & Hr & _ & _ & Heq & Hnew & _ & _).
  rewrite Heq in Hc.
  destruct (crawl_body_frame fetch _ (crawl_frame fetch fuel) _ _ _ _ _ _ _ Hr Hc)
    as (P & HP & Hsub).
  specialize (Hsub _ eq_refl).
  assert (Hvis : visited a w' = visited a w1 ++ P).
  { eapply extends_visited; [apply Hr|done]. }
  destruct HP as [(new & Hobjs & Hall) _ _ Hnd _].
  exists a. simpl. split; [|split; [|split]].
  - destruct Hr as [(n & Hn) _]. unfold get_obj. rewrite Hobjs.
    by rewrite (lookup_app_l_Some _ _ _ _ Hn).
  - intros j o Hj Hlk. rewrite Hobjs in Hlk.
    apply lookup_app_Some in Hlk as [Hlk|[_ Hlk]].
    + by eapply Hnew.
    + rewrite Forall_forall in Hall. eapply Hall, list_elem_of_lookup_2, Hlk.
  - intros x Hx. rewrite Hvis. apply elem_of_app. right.
    by apply (sublist_subseteq _ _ Hsub).
  - by eapply sublist_NoDup.
Qed.

(** C10: [crawl] writes into the object of its caller.  Whatever the
    object holds, after a call its [attempts] is the number it had, or 0
    when it had none, and its [allURLs] is the array it had, or a new array
    when it had none: the properties that were absent are assigned on the
    object itself.  A second crawl given the same object starts from that
    number of attempts again and works on that same array: it continues
    the list the first crawl left, and no URL the first crawl recorded
    becomes an entry of the second. *)
Theorem crawl_mutates_caller_internals fuel u opts i o w r w' :
  objs w !! i = Some o ->
  (forall a, allURLs o = Some a -> a < length (arrays w)) ->
  crawl fetch (S fuel) u opts (Some i) w = (r, w') ->
  let n := default 0%Z (attempts o) in
  let a := default (length (arrays w)) (allURLs o) in
  objs w' !! i = Some (mkInternals (Some n) (Some a))
  /\ (allURLs o = None -> length (arrays w') = S (length (arrays w)))
  /\ visited a w `prefix_of` visited a w'
  /\ forall fuel2 u2 opts2 c2 w'',
      crawl fetch fuel2 u2 opts2 (Some i) w' = (Fulfilled c2, w'') ->
      objs w'' !! i = Some (mkInternals (Some n) (Some a))
      /\ visited a w' `prefix_of` visited a w''
      /\ forall x, x ∈ visited a w' -> x ∉ result_urls c2.
Proof.
  intros Hi Hval Hc n a. simpl in Hc.
  assert (Hv : valid_internals (Some i) w) by (by exists o).
  destruct (start (Some i) w) as [i' w1] eqn:Hs.
  assert (i' = i) as -> by (by injection Hs).
  destruct (start_ready fetch _ _ _ _ Hv Hs) as (a' & Hr & _ & Hat & Heq & _ & _ & Harr).
  simpl in Harr, Hat. unfold get_obj in Harr. rewrite Hi in Harr. simpl in Harr.
  assert (Ha : a' = a /\ length (arrays w1) = length (arrays w')
               /\ (allURLs o = None -> length (arrays w1) = S (length (arrays w)))
               /\ visited a w `prefix_of` visited a w1).
  { rewrite Heq in Hc.
    destruct (crawl_body_frame fetch _ (crawl_frame fetch fuel) _ _ _ _ _ _ _ Hr Hc)
      as (P & HP & _).
    rewrite (extends_length _ _ _ _ HP). split; [|split; [done|]].
    - subst a. destruct (allURLs o); simpl; by destruct Harr.
    - subst a. destruct (allURLs o) as [a0|]; simpl; destruct Harr as [_ Harr].
      + split; [done|]. unfold visited. by rewrite Harr.
      + split; [intros _; rewrite Harr, length_app; simpl; lia|].
        unfold visited. rewrite (lookup_ge_None_2 (arrays w)) by lia. apply prefix_nil. }
  destruct Ha as (-> & Hlen & Hnew & Hpre).
  assert (Hn : attempts_of w1 i = n).
  { rewrite Hat. unfold attempts_of, get_obj. by rewrite Hi. }
  rewrite Heq in Hc.
  destruct (crawl_body_frame fetch _ (crawl_frame fetch fuel) _ _ _ _ _ _ _ Hr Hc)
    as (P & HP & _).
  assert (Hr' : ready i a w') by (by eapply extends_ready).
  assert (Hobj : objs w' !! i = Some (mkInternals (Some n) (Some a))).
  { destruct Hr as [(m & Hm) _]. unfold attempts_of, get_obj in Hn. rewrite Hm in Hn.
    simpl in Hn. subst m. destruct HP as [(new & -> & _) _ _ _ _].
    by apply lookup_app_l_Some. }
  split; [done|]. split; [intros Hnone; rewrite <- Hlen; by apply Hnew|]. split.
  { etrans; [exact Hpre|]. rewrite (extends_visited _ _ _ _ (proj2 Hr) HP).
    by apply prefix_app_r. }
  intros fuel2 u2 opts2 c2 w'' Hc2.
  destruct (crawl_frame fetch fuel2 _ _ _ _ _ _ _ Hr' Hc2) as (Q & HQ & Hsub).
  specialize (Hsub _ eq_refl).
  assert (Hvis : visited a w'' = visited a w' ++ Q).
  { eapply extends_visited; [apply Hr'|done]. }
  split; [|split].
  - destruct HQ as [(new & -> & _) _ _ _ _]. by apply lookup_app_l_Some.
  - rewrite Hvis. by apply prefix_app_r.
  - intros x Hx Hin. destruct HQ as [_ _ _ _ Hfresh].
    eapply Hfresh; [|exact Hx]. by apply (sublist_subseteq _ _ Hsub).
Qed.

End Sharing.

Section Failures.
Context `{lib : NodeLib}.
Variable fetch : Fetch.

Lemma attempts_of_init j w :
  attempts_of (init_allURLs j (init_attempts j w)) j = attempts_of w j.
Proof.
  assert (H1 : attempts_of (init_attempts j w) j = attempts_of w j).
  { unfold init_attempts, attempts_of, get_obj, set_obj.
    destruct (objs w !! j) as [[[n|] al]|] eqn:E; simpl.
    - destruct (n =? 0)%Z eqn:En; simpl; [|by rewrite E].
      apply Z.eqb_eq in En. subst.
      rewrite list_lookup_insert_eq; [done|]. by eapply lookup_lt_Some.
    - rewrite list_lookup_insert_eq; [done|]. by eapply lookup_lt_Some.
    - rewrite list_insert_ge; [by rewrite E|]. by apply lookup_ge_None. }
  rewrite <- H1. generalize (init_attempts j w). intros w0.
  unfold init_allURLs, attempts_of, get_obj.
  destruct (objs w0 !! j) as [[n [al|]]|] eqn:E; simpl; rewrite ?E; try done.
  - rewrite list_lookup_insert_eq; [done|]. by eapply lookup_lt_Some.
  - rewrite list_insert_ge; [by rewrite E|]. by apply lookup_ge_None.
Qed.

Lemma fetched_init j w : fetched (init_allURLs j (init_attempts j w)) = fetched w.
Proof.
  unfold init_allURLs, init_attempts, set_obj.
  destruct (attempts (get_obj w j)) as [n|]; [destruct (n =? 0)%Z|];
    match goal with |- context [allURLs (get_obj ?w0 j)] => destruct (allURLs (get_obj w0 j)) end;
    done.
Qed.

Lemma object_assign_attempts i na w j w' :
  object_assign i na w = (j, w') ->
  attempts_of w' j = default (attempts_of w i) na /\ fetched w' = fetched w.
Proof.
  unfold object_assign. intros [= <- <-]. split; [|done].
  unfold attempts_of at 1, get_obj at 1. simpl.
  rewrite lookup_app_r, Nat.sub_diag by lia. simpl. unfold attempts_of.
  destruct na; simpl; [done|]. by destruct (attempts (get_obj w i)).
Qed.

Lemma push_URL_attempts i x w j : attempts_of (push_URL i x w) j = attempts_of w j.
Proof. unfold push_URL, attempts_of, get_obj. by destruct (allURLs _). Qed.

Opaque object_assign push_URL.

(** A URL whose fetch is always rejected: the call fetches it once, and
    once more for each attempt the object has left, and its promise is
    fulfilled with the bare array. *)
Lemma crawl_rejected_forever u opts :
  (forall log, fetch log u = FetchRejected) -> is_Some (url_parse u) ->
  forall k fuel j w,
    Z.to_nat (maxAttempts opts - attempts_of w j) = k -> k < fuel ->
    exists w', crawl fetch fuel u opts (Some j) w = (Fulfilled EmptyArray, w')
               /\ fetched w' = fetched w ++ replicate (S k) u.
Proof.
  intros Hrej [U HU]. induction k as [|k IH]; intros fuel j w Hk Hfuel;
    (destruct fuel as [|fuel]; [lia|]);
    change (crawl fetch (S fuel)) with (crawl_body fetch (crawl fetch fuel));
    unfold crawl_body; change (internals_param (Some j) w) with (j, w);
    cbv beta iota zeta; rewrite HU;
    unfold do_fetch; rewrite Hrej;
    set (w1 := init_allURLs j (init_attempts j w));
    set (w2 := mkWorld (objs w1) (arrays w1) (fetched w1 ++ [u]));
    assert (Hat : attempts_of w2 j = attempts_of w j)
      by (rewrite <- (attempts_of_init j w); done);
    rewrite Hat.
  - destruct (Z.ltb_spec (attempts_of w j) (maxAttempts opts)) as [Hlt|Hge]; [lia|].
    simpl. eexists. split; [done|]. simpl. unfold w1. by rewrite fetched_init.
  - destruct (Z.ltb_spec (attempts_of w j) (maxAttempts opts)) as [Hlt|Hge]; [|lia].
    destruct (object_assign j (Some (attempts_of w j + 1)%Z) w2) as [retry w3] eqn:Has.
    destruct (object_assign_attempts _ _ _ _ _ Has) as [Hat3 Hf3]. simpl in Hat3, Hf3.
    unfold w1 in Hf3. rewrite fetched_init in Hf3.
    destruct (IH fuel retry w3) as (w' & Hc & Hf); [lia|lia|].
    rewrite Hc. simpl. eexists. split; [done|]. rewrite Hf, Hf3, <- app_assoc. done.
Qed.



End Failures.

Section Errors.
Context `{lib : NodeLib}.
Variable fetch : Fetch.



Opaque object_assign push_URL.








End Errors.

Section Fuel.
Context `{lib : NodeLib}.
Variable fetch : Fetch.

Opaque object_assign push_URL do_fetch.

Lemma process_links_refines rec1 rec2 absURL absURLObj opts i links :
  refines rec1 rec2 ->
  forall items w r w',
    process_links rec1 absURL absURLObj opts i links items w = (r, w') ->
    r <> OutOfFuel ->
    process_links rec2 absURL absURLObj opts i links items w = (r, w').
Proof.
  intros Hrec. induction links as [|[name href] links IH]; intros items w r w' Hp Hr;
    simpl in *; [done|].
  destruct (url_resolve _ _) as [U|]; [|done].
  case_bool_decide; [by apply IH|].
  destruct (ignored _ _ _ _); [by apply IH|].
  destruct href as [href|]; [|done].
  destruct (JsString.endsWith href "/").
  - destruct (object_assign _ _ _) as [child w2].
    destruct (rec1 _ _ _ _) as [rc w3] eqn:H1.
    assert (rc <> OutOfFuel) by (intros ->; by injection Hp as <- <-).
    rewrite (Hrec _ _ _ _ _ _ H1) by done.
    destruct rc; [by apply IH|done|done].
  - destruct (bad_extension _ _); by apply IH.
Qed.

Lemma crawl_body_refines rec1 rec2 :
  refines rec1 rec2 -> refines (crawl_body fetch rec1) (crawl_body fetch rec2).
Proof.
  intros Hrec u opts i w r w' Hc Hr. unfold crawl_body in *.
  destruct (internals_param i w) as [j w0]. cbv beta iota zeta in *.
  destruct (url_parse u) as [U|]; [|done].
  destruct (do_fetch fetch u _) as [res w1].
  destruct res as [|st [text|]]; [| |done].
  - destruct (_ <? _)%Z; [|done].
    destruct (object_assign _ _ _) as [retry w2].
    destruct (rec1 _ _ _ _) as [rc w3] eqn:H1.
    assert (rc <> OutOfFuel).
    { intros ->. simpl in Hc. by injection Hc as <- <-. }
    by rewrite (Hrec _ _ _ _ _ _ H1).
  - destruct (process_links rec1 _ _ _ _ _ _ _) as [rp wp] eqn:H1.
    assert (rp <> OutOfFuel).
    { intros ->. simpl in Hc. by injection Hc as <- <-. }
    by rewrite (process_links_refines _ _ _ _ _ _ _ Hrec _ _ _ _ H1).
Qed.

(** A call that completes with some fuel completes in the same way with
    more. *)
Lemma crawl_fuel_S fuel : refines (crawl fetch fuel) (crawl fetch (S fuel)).
Proof.
  induction fuel as [|fuel IH].
  - intros u opts i w r w' [= <- <-] Hr. done.
  - by apply crawl_body_refines.
Qed.

Lemma crawl_fuel_mono fuel fuel' u opts i w r w' :
  crawl fetch fuel u opts i w = (r, w') -> r <> OutOfFuel -> fuel <= fuel' ->
  crawl fetch fuel' u opts i w = (r, w').
Proof.
  intros Hc Hr Hle. induction Hle as [|fuel' Hle IH]; [done|].
  by apply crawl_fuel_S.
Qed.

End Fuel.

Lemma unvisited_mono site V V' : V ⊆ V' -> unvisited site V' <= unvisited site V.
Proof.
  intros Hsub. unfold unvisited. induction site as [|x site IH]; [done|].
  rewrite !filter_cons. destruct (decide (x ∉ V')) as [Hx|Hx].
  - destruct (decide (x ∉ V)) as [Hx'|Hx']; simpl; [lia|].
    destruct Hx'. intros Hin. by apply Hx, Hsub.
  - destruct (decide (x ∉ V)); simpl; lia.
Qed.

Lemma unvisited_push site V V' x :
  x ∈ site -> x ∉ V -> V ⊆ V' -> x ∈ V' -> unvisited site V' < unvisited site V.
Proof.
  intros Hin Hx Hsub Hx'. unfold unvisited. induction site as [|y site IH].
  { by apply elem_of_nil in Hin. }
  pose proof (unvisited_mono site V V' Hsub) as Hmono. unfold unvisited in Hmono.
  rewrite !filter_cons. apply elem_of_cons in Hin as [<-|Hin].
  - rewrite decide_False by (intros H; by apply H).
    rewrite decide_True by done. simpl. lia.
  - specialize (IH Hin). destruct (decide (y ∉ V')) as [Hy|Hy].
    + destruct (decide (y ∉ V)) as [Hy'|Hy']; simpl; [lia|].
      destruct Hy'. intros Hyin. by apply Hy, Hsub.
    + destruct (decide (y ∉ V)); simpl; lia.
Qed.

Section Termination.
Context `{lib : NodeLib}.
Variable fetch : Fetch.
Variable site : list string.

Lemma extends_attempts i a w w' P :
  ready i a w -> extends a w w' P -> attempts_of w' i = attempts_of w i.
Proof.
  intros [(n & Hn) _] [(new & Ho & _) _ _ _ _]. unfold attempts_of, get_obj.
  by rewrite Ho, (lookup_app_l_Some _ _ _ _ Hn), Hn.
Qed.

Lemma extends_work opts i a w w' P :
  ready i a w -> extends a w w' P -> work site opts i a w' <= work site opts i a w.
Proof.
  intros Hw Hext. unfold work. rewrite (extends_attempts _ _ _ _ _ Hw Hext).
  rewrite (extends_visited _ _ _ _ (proj2 Hw) Hext).
  pose proof (unvisited_mono site (visited a w) (visited a w ++ P)) as H.
  assert (visited a w ⊆ visited a w ++ P) by (intros x Hx; apply elem_of_app; by left).
  specialize (H ltac:(done)). lia.
Qed.

Lemma catch_completes x :
  x.1 <> OutOfFuel -> (catch_failed_download x).1 <> OutOfFuel.
Proof. destruct x as [[c|[]|] w]; simpl; congruence. Qed.

Lemma return_completes x : x.1 <> OutOfFuel -> (return_items x).1 <> OutOfFuel.
Proof. destruct x as [[c|e|] w]; simpl; congruence. Qed.

Opaque object_assign push_URL do_fetch.

Lemma process_links_completes b rec absURL absURLObj opts i a links :
  rec_frame rec -> completes_within site b rec ->
  (forall name href U, (name, href) ∈ links ->
     url_resolve (href_string href) (absURL +:+ "/") = Some U -> url_format U ∈ site) ->
  forall items w,
    ready i a w -> work site opts i a w < S b ->
    (process_links rec absURL absURLObj opts i links items w).1 <> OutOfFuel.
Proof.
  intros Hframe Hrec. induction links as [|[name href] links IH]; intros Hsite items w Hw Hb;
    simpl; [done|].
  assert (Hsite' : forall name href U, (name, href) ∈ links ->
     url_resolve (href_string href) (absURL +:+ "/") = Some U -> url_format U ∈ site).
  { intros n0 h0 U0 Hin HU0. eapply Hsite; [right; exact Hin|exact HU0]. }
  specialize (IH Hsite').
  destruct (url_resolve _ _) as [U|] eqn:HU; [|done].
  assert (Hin : url_format U ∈ site) by (eapply Hsite; [by left|done]).
  rewrite (ready_allURLs_of _ _ _ Hw).
  case_bool_decide as Hvis; [by apply IH|].
  destruct (ready_push _ _ _ _ Hw Hvis) as [Hext1 Hw1].
  set (w1 := push_URL i (url_format U) w) in *.
  assert (Hb1 : work site opts i a w1 < b).
  { unfold work in *. rewrite (extends_attempts _ _ _ _ _ Hw Hext1).
    rewrite (extends_visited _ _ _ _ (proj2 Hw) Hext1).
    assert (unvisited site (visited a w ++ [url_format U]) < unvisited site (visited a w)).
    { eapply unvisited_push; [exact Hin|exact Hvis| |].
      - intros x Hx. apply elem_of_app. by left.
      - apply elem_of_app. right. by apply list_elem_of_singleton. }
    lia. }
  destruct (ignored _ _ _ _); [apply IH; [done|lia]|].
  destruct href as [href|]; [|done].
  destruct (JsString.endsWith href "/").
  - destruct (object_assign i None w1) as [child w2] eqn:Has.
    destruct (ready_assign _ _ _ _ _ _ Hw1 Has) as (Hext2 & Hw2 & Hchild).
    assert (Hb2 : work site opts child a w2 < b).
    { unfold work in *. destruct (object_assign_attempts _ _ _ _ _ Has) as [-> _]. simpl.
      rewrite (extends_visited _ _ _ _ (proj2 Hw1) Hext2), app_nil_r. done. }
    pose proof (Hrec (url_format U) opts child a w2 Hchild Hb2) as Hc.
    destruct (rec _ _ _ _) as [rc w3] eqn:Hrc. simpl in Hc.
    destruct (Hframe _ _ _ _ _ _ _ Hchild Hrc) as (Q & HQ & _).
    destruct rc as [c|e|]; [|done|done].
    apply IH.
    + eapply extends_ready; [|exact HQ]. done.
    + pose proof (extends_work opts _ _ _ _ _ Hw2 HQ).
      pose proof (extends_work opts _ _ _ _ _ Hw1 Hext2). lia.
  - destruct (bad_extension _ _); apply IH; (done || lia).
Qed.

Lemma crawl_body_completes b rec :
  links_within fetch site -> rec_frame rec -> completes_within site b rec ->
  completes_within site (S b) (crawl_body fetch rec).
Proof.
  intros Hsite Hframe Hrec u opts i a w Hw Hb. unfold crawl_body.
  change (internals_param (Some i) w) with (i, w). cbv beta iota zeta.
  rewrite (ready_init _ _ _ Hw).
  destruct (url_parse u) as [U|]; [|done].
  destruct (do_fetch fetch u w) as [res w1] eqn:Hf.
  destruct (ready_fetch _ _ _ _ _ _ _ Hw Hf) as (Hres & Hext1 & Hw1).
  pose proof (extends_work opts _ _ _ _ _ Hw Hext1) as Hb1.
  apply catch_completes. destruct res as [|st [text|]]; [| |done].
  - destruct (Z.ltb_spec (attempts_of w1 i) (maxAttempts opts)) as [Hlt|Hge]; [|done].
    destruct (object_assign _ _ _) as [retry w2] eqn:Has.
    destruct (ready_assign _ _ _ _ _ _ Hw1 Has) as (Hext2 & Hw2 & Hretry).
    apply (Hrec u opts retry a w2 Hretry).
    unfold work in *. destruct (object_assign_attempts _ _ _ _ _ Has) as [-> _]. simpl.
    rewrite (extends_visited _ _ _ _ (proj2 Hw1) Hext2), app_nil_r. lia.
  - apply return_completes. eapply process_links_completes; try done; [|lia].
    intros name href U0 Hin HU0. by eapply Hsite.
Qed.

Lemma crawl_completes fuel :
  links_within fetch site -> completes_within site fuel (crawl fetch fuel).
Proof.
  intros Hsite. induction fuel as [|fuel IH].
  - intros u opts i a w _ Hb. lia.
  - apply crawl_body_completes; [done|apply crawl_frame|done].
Qed.

Lemma crawl_completes_from u opts internals w :
  links_within fetch site ->
  valid_internals internals w ->
  exists fuel0, forall fuel, fuel0 <= fuel ->
    (crawl fetch fuel u opts internals w).1 <> OutOfFuel.
Proof.
  intros Hsite Hv. destruct (start internals w) as [i w1] eqn:Hs.
  destruct (start_ready fetch _ _ _ _ Hv Hs) as (a & Hr & _ & _ & Heq & _).
  exists (S (S (work site opts i a w1))). intros fuel Hfuel.
  destruct fuel as [|fuel]; [lia|]. simpl. rewrite Heq.
  apply (crawl_body_completes fuel (crawl fetch fuel) Hsite (crawl_frame fetch fuel)
           (crawl_completes fuel Hsite) u opts i a w1 Hr).
  lia.
Qed.

(** C7, as amended: when every link of every page the server can answer
    with resolves into a finite set of URLs, every crawl ends: from some
    amount of fuel on the call completes, always in the same way, with a
    tree, with the bare array or with a rejection. *)
Theorem crawl_terminates_on_finite_site u opts internals w :
  links_within fetch site ->
  valid_internals internals w ->
  exists fuel0 r w',
    r <> OutOfFuel /\
    forall fuel, fuel0 <= fuel -> crawl fetch fuel u opts internals w = (r, w').
Proof.
  intros Hsite Hv.
  destruct (crawl_completes_from u opts internals w Hsite Hv) as (fuel0 & Hfuel0).
  destruct (crawl fetch fuel0 u opts internals w) as [r w'] eqn:Hc.
  exists fuel0, r, w'. split.
  - specialize (Hfuel0 fuel0 ltac:(lia)). by rewrite Hc in Hfuel0.
  - intros fuel Hle. eapply crawl_fuel_mono; [exact Hc| |exact Hle].
    specialize (Hfuel0 fuel0 ltac:(lia)). by rewrite Hc in Hfuel0.
Qed.

End Termination.

Section Recovery.
Context `{lib : NodeLib}.
Variable fetch : Fetch.
Variable site : list string.

Opaque object_assign push_URL.



End Recovery.

Section Endless.

#[local] Existing Instance Scenario.lib.

Lemma split_slash_descent n t :
  Posix.split_slash (descent n +:+ t) = descent_segments n (Posix.split_slash t).
Proof.
  induction n as [|n IH]; simpl; [done|].
  change ("" +:+ descent n) with (descent n). by rewrite IH.
Qed.

Lemma split_slash_descent0 n :
  Posix.split_slash (descent n) = descent_segments n [""].
Proof.
  induction n as [|n IH]; simpl; [done|].
  change ("" +:+ descent n) with (descent n). by rewrite IH.
Qed.

Lemma path_state_plain segs :
  Forall (fun s => s <> ".." /\ s <> ".") segs ->
  forall path, Posix.path_state path segs = path ++ segs.
Proof.
  induction 1 as [|s segs [H1 H2] _ IH]; intros path; simpl; [by rewrite app_nil_r|].
  apply String.eqb_neq in H1, H2. rewrite H1, H2, IH, <- app_assoc. done.
Qed.

Lemma descent_segments_plain n tl :
  Forall (fun s => s <> ".." /\ s <> ".") tl ->
  Forall (fun s => s <> ".." /\ s <> ".") (descent_segments n tl).
Proof. intros Htl. induction n; simpl; [done|]. repeat constructor; done. Qed.

Lemma descent_segments_snoc n tl :
  descent_segments n ("" :: "x" :: tl) = descent_segments (S n) tl.
Proof. induction n as [|n IH]; simpl; [done|]. by rewrite IH. Qed.

Lemma descent_segments_app n tl l :
  descent_segments n tl ++ l = descent_segments n (tl ++ l).
Proof. induction n as [|n IH]; simpl; [done|]. by rewrite IH. Qed.

Lemma removelast_descent_segments n tl :
  tl <> [] -> removelast (descent_segments n tl) = descent_segments n (removelast tl).
Proof.
  intros Htl. induction n as [|n IH]; [done|].
  simpl. destruct (descent_segments n tl) eqn:E.
  - destruct n; simpl in E; [done|discriminate].
  - by rewrite <- IH.
Qed.

Lemma parse_level n : Posix.parse (level n) = Some (level_URL n).
Proof.
  unfold Posix.parse, level. simpl.
  change ("" +:+ descent n) with (descent n).
  rewrite (split_slash_descent0 n).
  rewrite path_state_plain; [done|].
  apply descent_segments_plain. by repeat constructor.
Qed.

Lemma append_assoc_level n t : level n +:+ t = "http://host/a/" +:+ descent n +:+ t.
Proof. unfold level. simpl. change ("" +:+ descent n) with (descent n). done. Qed.

Lemma resolve_level n : Posix.resolve "x/" (level n +:+ "/") = Some (level_URL (S n)).
Proof.
  unfold Posix.resolve. rewrite append_assoc_level. unfold Posix.parse. simpl.
  change ("" +:+ descent n +:+ "/") with (descent n +:+ "/").
  rewrite (split_slash_descent n "/"). simpl.
  rewrite path_state_plain by (apply descent_segments_plain; by repeat constructor).
  simpl. unfold Posix.shorten.
  destruct (descent_segments n [""; ""]) as [|s l] eqn:E.
  { destruct n; discriminate. }
  rewrite <- E, removelast_descent_segments by done. simpl removelast.
  unfold level_URL. f_equal. f_equal. simpl. f_equal.
  rewrite <- !app_assoc, descent_segments_app. simpl.
  apply descent_segments_snoc.
Qed.

Lemma join_slash_descent n : Posix.join_slash (descent_segments n [""]) = descent n.
Proof.
  induction n as [|n IH]; [done|]. simpl descent_segments.
  change (Posix.join_slash ("" :: "x" :: descent_segments n [""]))
    with ("" +:+ "/" +:+ Posix.join_slash ("x" :: descent_segments n [""])).
  destruct (descent_segments n [""]) as [|s l] eqn:E.
  { destruct n; discriminate. }
  change (Posix.join_slash ("x" :: s :: l)) with ("x" +:+ "/" +:+ Posix.join_slash (s :: l)).
  by rewrite IH.
Qed.

Lemma pathname_level n : Posix.pathname (level_URL n) = "/a/" +:+ descent n.
Proof.
  unfold Posix.pathname, level_URL. simpl Posix.segments.
  destruct (descent_segments n [""]) as [|s l] eqn:E.
  { destruct n; discriminate. }
  change (Posix.join_slash ("a" :: s :: l)) with ("a" +:+ "/" +:+ Posix.join_slash (s :: l)).
  by rewrite <- E, join_slash_descent.
Qed.

Lemma format_level n : Posix.format (level_URL n) = level n.
Proof. unfold Posix.format. rewrite pathname_level. done. Qed.

Lemma normalize_descent n : forall acc,
  Posix.normalize acc (descent_segments n [""]) = acc ++ replicate n "x".
Proof.
  induction n as [|n IH]; intros acc; simpl; [by rewrite app_nil_r|].
  rewrite IH, <- app_assoc. done.
Qed.

Lemma drop_common_descent n l :
  Posix.drop_common (replicate n "x") (replicate n "x" ++ l) = ([], l).
Proof. induction n as [|n IH]; simpl; [by destruct l|done]. Qed.

Lemma relative_level n :
  Posix.relative (Posix.pathname (level_URL n)) (Posix.pathname (level_URL (S n))) = "x".
Proof.
  unfold Posix.relative. rewrite !pathname_level.
  simpl Posix.split_slash.
  change ("" +:+ descent (S n)) with (descent (S n)).
  change ("" +:+ descent n) with (descent n).
  rewrite !split_slash_descent0. simpl Posix.normalize.
  rewrite !normalize_descent.
  change (["a"] ++ replicate n "x") with ("a" :: replicate n "x").
  change (["a"] ++ replicate (S n) "x") with ("a" :: replicate (S n) "x").
  simpl Posix.drop_common.
  replace ("x" :: replicate n "x") with (replicate n "x" ++ ["x"]).
  2:{ clear. induction n; simpl; [done|]. by f_equal. }
  rewrite drop_common_descent. done.
Qed.

Lemma length_level n : String.length (level n) = 14 + 3 * n.
Proof.
  unfold level. simpl. f_equal. f_equal. f_equal. f_equal. f_equal. f_equal. f_equal.
  f_equal. f_equal. f_equal. f_equal. f_equal. f_equal. f_equal.
  change ("" +:+ descent n) with (descent n).
  induction n as [|n IH]; simpl; [done|].
  change ("" +:+ descent n) with (descent n). rewrite IH. lia.
Qed.

Lemma ignored_level n :
  ignored (lib := Scenario.lib) default_opts (level_obj n) (level_obj (S n)) (level (S n))
  = false.
Proof.
  unfold ignored.
  change (path_relative (url_pathname (level_obj n)) (url_pathname (level_obj (S n))))
    with (Posix.relative (Posix.pathname (level_URL n)) (Posix.pathname (level_URL (S n)))).
  rewrite relative_level. reflexivity.
Qed.

Lemma getHTMLLinks_endless :
  getHTMLLinks (H := Scenario.lib) "<a href='x/'>x/</a>" = [("x/", Some "x/")].
Proof. reflexivity. Qed.

Opaque object_assign push_URL do_fetch level.

(** However much fuel there is, the crawl of a level of the endless site
    uses it up. *)
Lemma endless_descent fuel :
  forall n i a w,
    ready i a w ->
    (forall v, v ∈ visited a w -> String.length v < String.length (level (S n))) ->
    (crawl (lib := Scenario.lib) endless_site fuel (level n) default_opts (Some i) w).1
    = OutOfFuel.
Proof.
  induction fuel as [|fuel IH]; intros n i a w Hw Hshort; [done|].
  change (crawl endless_site (S fuel))
    with (crawl_body (lib := Scenario.lib) endless_site (crawl endless_site fuel)).
  unfold crawl_body. change (internals_param (Some i) w) with (i, w). cbv beta iota zeta.
  rewrite (ready_init _ _ _ Hw).
  change (url_parse (level n)) with (Posix.parse (level n)). rewrite parse_level.
  change (Some (level_URL n)) with (Some (level_obj n)).
  destruct (do_fetch endless_site (level n) w) as [res w1] eqn:Hf.
  destruct (ready_fetch _ _ _ _ _ _ _ Hw Hf) as (-> & Hext1 & Hw1).
  unfold endless_site at 1. rewrite getHTMLLinks_endless.
  assert (Hvis1 : visited a w1 = visited a w).
  { rewrite (extends_visited _ _ _ _ (proj2 Hw) Hext1). by rewrite app_nil_r. }
  assert (Hnew : level (S n) ∉ allURLs_of w1 i).
  { rewrite (ready_allURLs_of _ _ _ Hw1), Hvis1. intros Hin. apply Hshort in Hin. lia. }
  assert (Hp : forall items,
    (process_links (crawl (lib := Scenario.lib) endless_site fuel) (level n)
       (level_obj n) default_opts i [("x/", Some "x/")] items w1).1
    = OutOfFuel).
  { intros items. unfold process_links. unfold href_string, default.
    change (url_resolve "x/" (level n +:+ "/")) with (Posix.resolve "x/" (level n +:+ "/")).
    rewrite resolve_level. change (Some (level_URL (S n))) with (Some (level_obj (S n))).
    cbv beta iota zeta.
    change (url_format (level_obj (S n))) with (Posix.format (level_URL (S n))).
    rewrite format_level. rewrite bool_decide_eq_false_2 by done.
    rewrite ignored_level.
    change (JsString.endsWith "x/" "/") with true. cbv iota.
    assert (Hvis1' : level (S n) ∉ visited a w1).
    { by rewrite <- (ready_allURLs_of _ _ _ Hw1). }
    destruct (ready_push _ _ _ _ Hw1 Hvis1') as [Hext2 Hw2].
    destruct (object_assign i None (push_URL i (level (S n)) w1)) as [child w3] eqn:Has.
    destruct (ready_assign _ _ _ _ _ _ Hw2 Has) as (Hext3 & _ & Hchild).
    specialize (IH (S n) child a w3 Hchild).
    destruct (crawl endless_site fuel (level (S n)) default_opts (Some child) w3)
      as [rc w4].
    simpl in IH. rewrite IH; [done|].
    intros v Hv. rewrite (extends_visited _ _ _ _ (proj2 Hw2) Hext3) in Hv.
    rewrite (extends_visited _ _ _ _ (proj2 Hw1) Hext2), Hvis1, app_nil_r in Hv.
    rewrite !length_level. rewrite length_level in Hshort.
    apply elem_of_app in Hv as [Hv|Hv].
    - apply Hshort in Hv. lia.
    - apply list_elem_of_singleton in Hv. subst v. rewrite length_level. lia. }
  specialize (Hp []).
  destruct (process_links _ _ _ _ _ _ _ _) as [rp wp]. simpl in Hp. by subst rp.
Qed.

End Endless.

(** C7, refuted as stated: the server of [endless_site] has one page, and
    the crawl of [http://host/a/] over it never completes, whatever the
    fuel: each level links to a URL that was not visited before. *)
Lemma endless_site_crawl_never_completes :
  ~ exists fuel,
      (crawl (lib := Scenario.lib) endless_site fuel "http://host/a/" default_opts None
         empty_world).1 <> OutOfFuel.
Proof.
  intros [fuel H]. apply H. clear H. destruct fuel as [|fuel]; [done|].
  destruct (start None empty_world) as [i w1] eqn:Hs.
  destruct (start_ready (lib := Scenario.lib) endless_site None empty_world i w1 I Hs)
    as (a & Hr & _ & _ & Heq & _ & _ & Harr).
  assert (Hi : i = 0) by (by injection Hs). subst i.
  simpl in Harr. destruct Harr as [-> Harr].
  change (crawl endless_site (S fuel))
    with (crawl_body (lib := Scenario.lib) endless_site
            (crawl (lib := Scenario.lib) endless_site fuel)).
  rewrite Heq.
  change "http://host/a/" with (level 0).
  apply (endless_descent (S fuel) 0 0 0 w1 Hr).
  intros v Hv. unfold visited in Hv. rewrite Harr in Hv. simpl in Hv.
  by apply elem_of_nil in Hv.
Qed.

Section Extractor.
Context `{lib : NodeLib}.

(** [select_a] keeps the [a] elements of the subtree, in document order. *)
Lemma select_a_filter : forall n, select_a n = List.filter is_anchor (nodes n).
Proof.
  induction n as [d|d|t a cs IH] using Node_children_ind; [done|done|].
  change (select_a (Element t a cs))
    with ((if String.eqb t "a" then [Element t a cs] else []) ++
          (fix sel (l : list Node) : list Node :=
             match l with
             | [] => []
             | c :: l' => select_a c ++ sel l'
             end) cs).
  change (nodes (Element t a cs))
    with (Element t a cs ::
          (fix all (l : list Node) : list Node :=
             match l with
             | [] => []
             | c :: l' => nodes c ++ all l'
             end) cs).
  assert (Hcs :
    (fix sel (l : list Node) : list Node :=
       match l with
       | [] => []
       | c :: l' => select_a c ++ sel l'
       end) cs
    = List.filter is_anchor
        ((fix all (l : list Node) : list Node :=
            match l with
            | [] => []
            | c :: l' => nodes c ++ all l'
            end) cs)).
  { induction IH as [|c cs Hc _ IHcs]; [done|]. by rewrite List.filter_app, <- IHcs, Hc. }
  rewrite Hcs. simpl. by destruct (String.eqb t "a").
Qed.

Lemma select_all_a_filter doc :
  select_all_a doc = List.filter is_anchor (document_order doc).
Proof.
  unfold select_all_a, document_order. induction doc as [|n doc IH]; [done|].
  simpl. by rewrite List.filter_app, IH, select_a_filter.
Qed.

Lemma attribs_lookup_Some name l v :
  attribs_lookup name l = Some v -> (name, v) ∈ l.
Proof.
  induction l as [|[k v'] l IH]; simpl; [done|].
  destruct (String.eqb_spec k name) as [->|_].
  - intros [= ->]. by left.
  - intros H. right. by apply IH.
Qed.

Lemma attribs_lookup_None name l :
  attribs_lookup name l = None <-> forall v, (name, v) ∉ l.
Proof.
  induction l as [|[k v'] l IH]; simpl.
  - split; [|done]. intros _ v Hv. by apply elem_of_nil in Hv.
  - destruct (String.eqb_spec k name) as [->|Hne].
    + split; [done|]. intros H. destruct (H v'). by left.
    + rewrite IH. split.
      * intros H v Hv. apply elem_of_cons in Hv as [[= <- _]|Hv]; [done|by apply (H v)].
      * intros H v Hv. apply (H v). by right.
Qed.

(** C8, as amended: for every string, [getHTMLLinks] returns one pair for
    each [a] element of the parsed document, in document order; the pair
    holds the text of the element and the value of its [href] attribute,
    and that second component is undefined, not the empty string, exactly
    when the element has no [href] attribute.  The function reads nothing
    but its argument and changes nothing. *)
Theorem getHTMLLinks_pairs text :
  let anchors := List.filter is_anchor (document_order (cheerio_load text)) in
  getHTMLLinks text = map link_of anchors
  /\ length (getHTMLLinks text) = length anchors
  /\ forall el, el ∈ anchors ->
       (link_of el).1 = node_text el
       /\ (forall v, (link_of el).2 = Some v -> ("href", v) ∈ attribs_of el)
       /\ ((link_of el).2 = None <-> forall v, ("href", v) ∉ attribs_of el).
Proof.
  intros anchors. unfold getHTMLLinks. rewrite select_all_a_filter. fold anchors.
  split; [done|]. split; [by rewrite length_map|].
  intros el Hel. apply list_elem_of_In, List.filter_In in Hel as [_ Hel].
  destruct el as [d|d|t a cs]; [done|done|].
  unfold link_of. simpl. split; [done|]. split.
  - intros v. apply attribs_lookup_Some.
  - apply attribs_lookup_None.
Qed.

End Extractor.

(** C8, refuted as stated: on the named anchor [<a>top</a>], which has no
    [href], [getHTMLLinks] returns the pair of [top] and [undefined], and
    not the pair of [top] and the empty string that the specification
    words. *)
Lemma getHTMLLinks_href_is_undefined :
  getHTMLLinks (H := Scenario.lib) "<a>top</a>" = [("top", None)]
  /\ extractLinks (H := Scenario.lib) "<a>top</a>" = [("top", "")]
  /\ getHTMLLinks (H := Scenario.lib) "<a>top</a>"
     <> map (fun l => (l.1, Some l.2)) (extractLinks (H := Scenario.lib) "<a>top</a>").
Proof. split; [done|]. split; [done|]. vm_compute. discriminate. Qed.

Section More.
Context `{lib : NodeLib}.
Variable fetch : Fetch.

(** X1: a URL whose fetch is always rejected is fetched once, and once
    more for each attempt its internals have left below [maxAttempts];
    then the promise is fulfilled with the bare array. *)
Theorem always_rejected_fetch_count u opts fuel j w :
  (forall log, fetch log u = FetchRejected) ->
  is_Some (url_parse u) ->
  Z.to_nat (maxAttempts opts - attempts_of w j) < fuel ->
  exists w', crawl fetch fuel u opts (Some j) w = (Fulfilled EmptyArray, w')
             /\ fetched w'
                = fetched w ++ replicate (S (Z.to_nat (maxAttempts opts - attempts_of w j))) u.
Proof.
  intros Hrej HU Hfuel. by apply (crawl_rejected_forever fetch u opts Hrej HU _ fuel j w).
Qed.

(** X2: the visited list only grows: what a call leaves in the array of
    its internals starts with what the array held before, and what was
    added is free of duplicates and new to the array. *)
Theorem visited_only_grows fuel u opts i a w r w' :
  ready i a w ->
  crawl fetch fuel u opts (Some i) w = (r, w') ->
  exists P, visited a w' = visited a w ++ P /\ NoDup P /\ forall x, x ∈ P -> x ∉ visited a w.
Proof.
  intros Hw Hc. destruct (crawl_frame fetch fuel _ _ _ _ _ _ _ Hw Hc) as (P & HP & _).
  exists P. split; [|split].
  - eapply extends_visited; [apply Hw|done].
  - apply HP.
  - apply HP.
Qed.

Opaque object_assign push_URL.

(** X3: a link whose URL is in the visited list has no effect, wherever
    it stands on the page: the loop over the links gives the same items,
    the same heap and the same fetches as the loop over the links without
    it, whatever the links before it do, the crawls of directories
    among them included: what is in the list stays in it. *)
Theorem visited_link_is_skipped fuel absURL absURLObj opts i a name href urlObj before after :
  url_resolve (href_string href) (absURL +:+ "/") = Some urlObj ->
  forall items w,
    ready i a w ->
    url_format urlObj ∈ visited a w ->
    process_links (crawl fetch fuel) absURL absURLObj opts i
      (before ++ (name, href) :: after) items w
    = process_links (crawl fetch fuel) absURL absURLObj opts i (before ++ after) items w.
Proof.
  intros Hres.
  assert (extends_visited_in : forall w0 w1 P x,
            a < length (arrays w0) -> extends a w0 w1 P -> x ∈ visited a w0 ->
            x ∈ visited a w1).
  { intros w0 w1 P x Ha Hext Hx. rewrite (extends_visited _ _ _ _ Ha Hext).
    apply elem_of_app. by left. }
  induction before as [|[name0 href0] before IH]; intros items w Hw Hin.
  { simpl. rewrite Hres, (ready_allURLs_of _ _ _ Hw). by rewrite bool_decide_eq_true_2. }
  simpl. destruct (url_resolve (href_string href0) _) as [urlObj0|]; [|done].
  rewrite (ready_allURLs_of _ _ _ Hw).
  case_bool_decide as Hin0; [by apply IH|].
  destruct (ready_push _ _ _ _ Hw Hin0) as [Hext1 Hw1].
  assert (Hin1 : url_format urlObj ∈ visited a (push_URL i (url_format urlObj0) w)).
  { eapply extends_visited_in; [apply Hw|done|done]. }
  destruct (ignored _ _ _ _); [by apply IH|].
  destruct href0 as [href0|]; [|done].
  destruct (JsString.endsWith href0 "/").
  - destruct (object_assign i None _) as [child w2] eqn:Has.
    destruct (ready_assign _ _ _ _ _ _ Hw1 Has) as (Hext2 & Hw2 & Hchild).
    destruct (crawl fetch fuel _ _ _ _) as [[c|e|] w3] eqn:Hrc; [|done|done].
    destruct (crawl_frame fetch fuel _ _ _ _ _ _ _ Hchild Hrc) as (Q & HQ & _).
    apply IH; [by eapply extends_ready|].
    eapply extends_visited_in; [apply Hw2|done|].
    eapply extends_visited_in; [apply Hw1|done|done].
  - destruct (bad_extension _ _); by apply IH.
Qed.

End More.

Module Runs.
Import Scenario.

(** C1, on the code: with [maxAttempts = 5], a root whose fetch is always
  rejected is fetched six times, not five, and the promise is fulfilled
  with the bare array, not with an object that has [items]. *)
Lemma always_rejected_root_is_fetched_six_times :
(run always_rejected default_opts).1 = Fulfilled EmptyArray
/\ fetched (run always_rejected default_opts).2 = replicate 6 root
/\ result_items EmptyArray = None.
Proof. vm_compute. repeat split. Qed.

(** C2, on the code: after one rejected fetch of the root, the crawl of the
  directory [b/] is given an object whose [attempts] is 1, not 0: the
  third object of the heap is that copy of the internals of the retry.
  The directory, whose fetch is always rejected, is then fetched five
  times where the root would be fetched six times. *)
Lemma child_inherits_attempts_of_parent :
objs (run flaky_root default_opts).2 !! 1 = Some (mkInternals (Some 1%Z) (Some 0))
/\ objs (run flaky_root default_opts).2 !! 2 = Some (mkInternals (Some 1%Z) (Some 0))
/\ fetched (run flaky_root default_opts).2
   = [root; root] ++ replicate 5 "http://host/a//b/"
/\ (run flaky_root default_opts).1
   = Fulfilled (ResultObject [Dir "b" "http://host/a//b/" None]).
Proof. vm_compute. repeat split. Qed.

(** C5, on the code: the listing of the scenario gives three entries.  The
  base of the resolution is the root with one more slash, so [c.mp3] is
  recorded as [http://host/a//c.mp3] and [../escape.mp3] resolves to
  [http://host/a/escape.mp3], inside the directory of the root: it is
  kept. *)
Lemma listing_scenario_keeps_escape :
(run listing_site default_opts).1
= Fulfilled (ResultObject
    [Dir "b" "http://host/a//b/" (Some []);
     File "c.mp3" "http://host/a//c.mp3";
     File "escape.mp3" "http://host/a/escape.mp3"]).
Proof. vm_compute. reflexivity. Qed.



End Runs.

Module Witnesses.
Import Scenario Runs.

Lemma getHTMLLinks_listing :
getHTMLLinks (H := lib) listing_markup
= [("b/", Some "b/"); ("c.mp3", Some "c.mp3"); ("escape.mp3", Some "../escape.mp3")].
Proof. reflexivity. Defined.

Lemma listing_site_links_within : links_within (H := lib) listing_site listing_urls.
Proof.
intros log u st text H name href U Hin HU. unfold listing_site, serve in H.
destruct (String.eqb_spec "http://host/a/" u) as [<-|_].
- injection H as <- <-. rewrite getHTMLLinks_listing in Hin.
  apply list_elem_of_In in Hin. simpl in Hin.
  destruct Hin as [Hin|[Hin|[Hin|[]]]]; injection Hin as <- <-;
    vm_compute in HU; injection HU as <-; apply list_elem_of_In; vm_compute; tauto.
- destruct (String.eqb_spec "http://host/a//b/" u) as [<-|_]; [|discriminate].
  injection H as <- <-. apply list_elem_of_In in Hin. destruct Hin.
Defined.





Lemma visited_shared_witness :
exists a,
  allURLs (get_obj (run listing_site default_opts).2 (start None empty_world).1) = Some a
  /\ (forall j o, length (objs empty_world) <= j ->
        objs (run listing_site default_opts).2 !! j = Some o -> allURLs o = Some a)
  /\ (forall x, x ∈ result_urls listing_tree -> x ∈ visited a (run listing_site default_opts).2)
  /\ NoDup (result_urls listing_tree).
Proof.
apply (visited_shared_no_duplicate_entries (lib := lib) listing_site 12 root default_opts
         None empty_world listing_tree (run listing_site default_opts).2).
- exact I.
- vm_compute. reflexivity.
Defined.

Lemma crawl_mutates_caller_internals_witness :
(let w' := (crawl (lib := lib) listing_site 12 root default_opts (Some 0)
              Sites.attempts_only_world).2 in
 objs w' !! 0 = Some (mkInternals (Some 2%Z) (Some 0))
 /\ (allURLs (mkInternals (Some 2%Z) None) = None ->
      length (arrays w') = S (length (arrays Sites.attempts_only_world)))
 /\ visited 0 Sites.attempts_only_world `prefix_of` visited 0 w'
 /\ forall fuel2 u2 opts2 c2 w'',
     crawl (lib := lib) listing_site fuel2 u2 opts2 (Some 0) w' = (Fulfilled c2, w'') ->
     objs w'' !! 0 = Some (mkInternals (Some 2%Z) (Some 0))
     /\ visited 0 w' `prefix_of` visited 0 w''
     /\ forall x, x ∈ visited 0 w' -> x ∉ result_urls c2)
/\ (let w' := (crawl (lib := lib) listing_site 12 root default_opts (Some 0)
                 Sites.allURLs_only_world).2 in
    objs w' !! 0 = Some (mkInternals (Some 0%Z) (Some 0))
    /\ (allURLs (mkInternals None (Some 0)) = None ->
         length (arrays w') = S (length (arrays Sites.allURLs_only_world)))
    /\ visited 0 Sites.allURLs_only_world `prefix_of` visited 0 w'
    /\ forall fuel2 u2 opts2 c2 w'',
        crawl (lib := lib) listing_site fuel2 u2 opts2 (Some 0) w' = (Fulfilled c2, w'') ->
        objs w'' !! 0 = Some (mkInternals (Some 0%Z) (Some 0))
        /\ visited 0 w' `prefix_of` visited 0 w''
        /\ forall x, x ∈ visited 0 w' -> x ∉ result_urls c2)
/\ (let w' := (crawl (lib := lib) listing_site 12 root default_opts (Some 0)
                 caller_world).2 in
    objs w' !! 0 = Some (mkInternals (Some 0%Z) (Some 0))
    /\ (allURLs (mkInternals None None) = None ->
         length (arrays w') = S (length (arrays caller_world)))
    /\ visited 0 caller_world `prefix_of` visited 0 w'
    /\ forall fuel2 u2 opts2 c2 w'',
        crawl (lib := lib) listing_site fuel2 u2 opts2 (Some 0) w' = (Fulfilled c2, w'') ->
        objs w'' !! 0 = Some (mkInternals (Some 0%Z) (Some 0))
        /\ visited 0 w' `prefix_of` visited 0 w''
        /\ forall x, x ∈ visited 0 w' -> x ∉ result_urls c2).
Proof.
split; [|split].
- apply (crawl_mutates_caller_internals (lib := lib) listing_site 11 root default_opts 0
           (mkInternals (Some 2%Z) None) Sites.attempts_only_world
           (crawl (lib := lib) listing_site 12 root default_opts (Some 0)
              Sites.attempts_only_world).1
           (crawl (lib := lib) listing_site 12 root default_opts (Some 0)
              Sites.attempts_only_world).2).
  + reflexivity.
  + intros a. discriminate.
  + vm_compute. reflexivity.
- apply (crawl_mutates_caller_internals (lib := lib) listing_site 11 root default_opts 0
           (mkInternals None (Some 0)) Sites.allURLs_only_world
           (crawl (lib := lib) listing_site 12 root default_opts (Some 0)
              Sites.allURLs_only_world).1
           (crawl (lib := lib) listing_site 12 root default_opts (Some 0)
              Sites.allURLs_only_world).2).
  + reflexivity.
  + intros a [= <-]. vm_compute. lia.
  + vm_compute. reflexivity.
- apply (crawl_mutates_caller_internals (lib := lib) listing_site 11 root default_opts 0
           (mkInternals None None) caller_world
           (crawl (lib := lib) listing_site 12 root default_opts (Some 0) caller_world).1
           (crawl (lib := lib) listing_site 12 root default_opts (Some 0) caller_world).2).
  + reflexivity.
  + intros a. discriminate.
  + vm_compute. reflexivity.
Defined.


Lemma crawl_terminates_witness :
exists fuel0 r w',
  r <> OutOfFuel /\
  forall fuel, fuel0 <= fuel ->
    crawl (lib := lib) listing_site fuel root default_opts None empty_world = (r, w').
Proof.
exact (crawl_terminates_on_finite_site (lib := lib) listing_site listing_urls root
         default_opts None empty_world listing_site_links_within I).
Defined.

Lemma always_rejected_fetch_count_witness :
exists w', crawl (lib := lib) always_rejected 12 root default_opts (Some 0) started_world
             = (Fulfilled EmptyArray, w')
           /\ fetched w'
              = fetched started_world
                ++ replicate (S (Z.to_nat (maxAttempts default_opts - attempts_of started_world 0)))
                     root.
Proof.
apply (always_rejected_fetch_count (lib := lib) always_rejected root default_opts 12 0
         started_world).
- intros log. reflexivity.
- vm_compute. eexists. reflexivity.
- vm_compute. lia.
Defined.

Lemma visited_only_grows_witness :
exists P,
  visited 0 (crawl (lib := lib) listing_site 12 root default_opts (Some 0) started_world).2
  = visited 0 started_world ++ P
  /\ NoDup P /\ forall x, x ∈ P -> x ∉ visited 0 started_world.
Proof.
apply (visited_only_grows (lib := lib) listing_site 12 root default_opts 0 0 started_world
         (crawl (lib := lib) listing_site 12 root default_opts (Some 0) started_world).1).
- split; [exists 0%Z; reflexivity|vm_compute; lia].
- vm_compute. reflexivity.
Defined.

Lemma visited_link_is_skipped_witness :
process_links (crawl (lib := lib) listing_site 12) root root_obj default_opts 0
  ([("c.mp3", Some "c.mp3")] ++ ("b/", Some "b/") :: [("escape.mp3", Some "../escape.mp3")])
  [] (push_URL 0 "http://host/a//b/" started_world)
= process_links (crawl (lib := lib) listing_site 12) root root_obj default_opts 0
    ([("c.mp3", Some "c.mp3")] ++ [("escape.mp3", Some "../escape.mp3")])
    [] (push_URL 0 "http://host/a//b/" started_world).
Proof.
apply (visited_link_is_skipped (lib := lib) listing_site 12 root root_obj default_opts 0 0
         "b/" (Some "b/") b_obj).
- vm_compute. reflexivity.
- split; [exists 0%Z; reflexivity|vm_compute; lia].
- vm_compute. apply list_elem_of_In. left. reflexivity.
Defined.

End Witnesses.

Lemma item_dir_urls_Dir name u r :
  item_dir_urls (Dir name u (result_items r)) = u :: result_dir_urls r.
Proof. by destruct r. Qed.

Lemma items_dir_urls_app l1 l2 :
  items_dir_urls (l1 ++ l2) = items_dir_urls l1 ++ items_dir_urls l2.
Proof. unfold items_dir_urls. by rewrite flat_map_app. Qed.

Lemma fetched_push_URL i x w : fetched (push_URL i x w) = fetched w.
Proof. unfold push_URL. by destruct (allURLs _). Qed.

Lemma fetched_object_assign i na w : fetched (object_assign i na w).2 = fetched w.
Proof. done. Qed.

Lemma fetched_start internals w : fetched (start internals w).2 = fetched w.
Proof.
  unfold start. destruct (internals_param internals w) as [i w0] eqn:E. simpl.
  rewrite fetched_init. unfold internals_param in E. destruct internals; by injection E as <- <-.
Qed.

Section Fetches.
Context `{lib : NodeLib}.
Variable fetch : Fetch.

Opaque object_assign push_URL.

Lemma process_links_fetches rec absURL absURLObj opts i links :
  rec_fetches rec ->
  forall items w r w',
    process_links rec absURL absURLObj opts i links items w = (r, w') ->
    r <> Rejected FAILED_DOWNLOAD
    /\ exists F, fetched w' = fetched w ++ F
              /\ forall its, r = Fulfilled its ->
                   exists new, its = items ++ new
                               /\ forall x, x ∈ F <-> x ∈ items_dir_urls new.
Proof.
  intros Hrec. induction links as [|[name href] links IH]; intros items w r w' Hp; simpl in Hp.
  { injection Hp as <- <-. split; [done|]. exists []. split; [by rewrite app_nil_r|].
    intros its [= <-]. exists []. split; [by rewrite app_nil_r|]. done. }
  assert (Hfail : forall m w0, (Rejected (TypeError m), w0) = (r, w') -> fetched w0 = fetched w ->
    r <> Rejected FAILED_DOWNLOAD
    /\ exists F, fetched w' = fetched w ++ F
              /\ forall its, r = Fulfilled its ->
                   exists new, its = items ++ new /\ forall x, x ∈ F <-> x ∈ items_dir_urls new).
  { intros m w0 [= <- <-] Hf. split; [done|]. exists []. split; [by rewrite app_nil_r|].
    by intros its [=]. }
  destruct (url_resolve _ _) as [urlObj|]; [|by eapply Hfail].
  case_bool_decide; [by eapply IH|].
  set (w1 := push_URL i (url_format urlObj) w) in *.
  assert (Hf1 : fetched w1 = fetched w) by apply fetched_push_URL.
  assert (Hskip : forall r w', process_links rec absURL absURLObj opts i links items w1 = (r, w') ->
    r <> Rejected FAILED_DOWNLOAD
    /\ exists F, fetched w' = fetched w ++ F
              /\ forall its, r = Fulfilled its ->
                   exists new, its = items ++ new /\ forall x, x ∈ F <-> x ∈ items_dir_urls new).
  { intros r0 w0 H0. destruct (IH _ _ _ _ H0) as (Hr & F & HF & Hits). split; [done|].
    exists F. split; [by rewrite HF, Hf1|done]. }
  destruct (ignored _ _ _ _); [by apply Hskip|].
  destruct href as [href|]; [|by eapply Hfail; [done|apply fetched_push_URL]].
  destruct (JsString.endsWith href "/").
  - pose proof (fetched_object_assign i None w1) as Hf2.
    destruct (object_assign i None w1) as [child w2]. simpl in Hf2.
    destruct (rec _ _ _ _) as [rc w3] eqn:Hrc.
    destruct (Hrec _ _ _ _ _ _ Hrc) as (Hne & F1 & HF1 & Hdirs).
    destruct rc as [c|e|].
    + destruct (IH _ _ _ _ Hp) as (Hr & F2 & HF2 & Hits). split; [done|].
      exists (F1 ++ F2). split; [by rewrite HF2, HF1, Hf2, Hf1, app_assoc|].
      intros its ->. destruct (Hits _ eq_refl) as (new & -> & Hnew).
      eexists (_ :: new). split; [by rewrite <- app_assoc|].
      intros x. change (items_dir_urls (?y :: new)) with (item_dir_urls y ++ items_dir_urls new).
      rewrite item_dir_urls_Dir. rewrite elem_of_app, elem_of_app, elem_of_cons.
      rewrite (Hdirs _ eq_refl x), (Hnew x). tauto.
    + injection Hp as <- <-. split; [intros [= ->]; by apply Hne|].
      exists F1. split; [by rewrite HF1, Hf2, Hf1|]. by intros its [=].
    + injection Hp as <- <-. split; [done|].
      exists F1. split; [by rewrite HF1, Hf2, Hf1|]. by intros its [=].
  - destruct (bad_extension _ _); [by apply Hskip|].
    destruct (IH _ _ _ _ Hp) as (Hr & F & HF & Hits). split; [done|]. exists F.
    split; [by rewrite HF, Hf1|].
    intros its ->. destruct (Hits _ eq_refl) as (new & -> & Hnew).
    eexists (_ :: new). split; [by rewrite <- app_assoc|]. done.
Qed.

Lemma catch_failed_download_ne x r w' :
  catch_failed_download x = (r, w') -> r <> Rejected FAILED_DOWNLOAD.
Proof. destruct x as [[c|[]|] w0]; simpl; intros [= <- <-]; done. Qed.

Lemma crawl_body_fetches rec : rec_fetches rec -> rec_fetches (crawl_body fetch rec).
Proof.
  intros Hrec u opts i w r w' Hc. unfold crawl_body in Hc.
  pose proof (fetched_start i w) as Hfs. unfold start in Hfs.
  destruct (internals_param i w) as [j w0]. simpl in Hfs. cbv beta iota zeta in Hc.
  set (w1 := init_allURLs j (init_attempts j w0)) in *.
  destruct (url_parse u) as [U|].
  2:{ injection Hc as <- <-. split; [done|]. exists []. split; [by rewrite app_nil_r|].
      by intros c [=]. }
  unfold do_fetch in Hc.
  set (w2 := mkWorld (objs w1) (arrays w1) (fetched w1 ++ [u])) in *.
  assert (Hf2 : fetched w2 = fetched w ++ [u]) by (simpl; by rewrite Hfs).
  pose proof (catch_failed_download_ne _ _ _ Hc) as Hr.
  apply catch_failed_download_inv in Hc.
  destruct (fetch (fetched w1) u) as [|st [text|]].
  - destruct (_ <? _)%Z.
    + pose proof (fetched_object_assign j (Some (attempts_of w2 j + 1)%Z) w2) as Hf3.
      destruct (object_assign _ _ _) as [retry w3]. change (fetched w3 = fetched w2) in Hf3.
      destruct (rec u opts (Some retry) w3) as [rc w4] eqn:Hrc.
      destruct (Hrec _ _ _ _ _ _ Hrc) as (Hne & F & HF & Hdirs).
      destruct Hc as [[= <- <-]|[[= -> _] _]]; [|done].
      split; [done|]. exists ([u] ++ F). split; [by rewrite HF, Hf3, Hf2, <- app_assoc|].
      intros c ->. intros x. rewrite elem_of_app, list_elem_of_singleton.
      rewrite (Hdirs _ eq_refl x). tauto.
    + destruct Hc as [[= <- <-]|[[= <-] ->]]; [done|].
      split; [done|]. exists [u]. split; [done|].
      intros c [= <-] x. rewrite list_elem_of_singleton. simpl. rewrite elem_of_nil. tauto.
  - destruct (process_links _ _ _ _ _ _ _ _) as [rp wp] eqn:Hp.
    destruct (process_links_fetches _ _ _ _ _ _ Hrec _ _ _ _ Hp) as (Hne & F & HF & Hits).
    destruct rp as [its|e|]; simpl in Hc.
    + destruct Hc as [[= <- <-]|[[=] _]]. split; [done|].
      exists ([u] ++ F). split; [by rewrite HF, Hf2, <- app_assoc|].
      intros c [= <-] x. destruct (Hits _ eq_refl) as (new & Hnew & Hx). simpl in Hnew.
      subst new. rewrite elem_of_app, list_elem_of_singleton, (Hx x). done.
    + destruct Hc as [[= <- <-]|[[= ->] _]]; [|done]. split; [done|].
      exists ([u] ++ F). split; [by rewrite HF, Hf2, <- app_assoc|]. by intros c [=].
    + destruct Hc as [[= <- <-]|[[=] _]]. split; [done|].
      exists ([u] ++ F). split; [by rewrite HF, Hf2, <- app_assoc|]. by intros c [=].
  - destruct Hc as [[= <- <-]|[[=] _]]. split; [done|].
    exists [u]. split; [done|]. by intros c [=].
Qed.

Lemma crawl_fetches fuel : rec_fetches (crawl fetch fuel).
Proof.
  induction fuel as [|fuel IH].
  - intros u opts i w r w' [= <- <-]. split; [done|]. exists [].
    split; [by rewrite app_nil_r|]. by intros c [=].
  - by apply crawl_body_fetches.
Qed.

(** X4: the URLs a completed crawl fetched are the URL it was called
    with and the URLs of the directory entries of its tree, at every
    depth: every directory of the tree was fetched, and nothing else
    was. *)
Theorem fetched_are_root_and_directories fuel u opts internals w c w' :
  crawl fetch fuel u opts internals w = (Fulfilled c, w') ->
  exists F, fetched w' = fetched w ++ F
            /\ forall x, x ∈ F <-> x = u \/ x ∈ result_dir_urls c.
Proof.
  intros Hc. destruct (crawl_fetches fuel _ _ _ _ _ _ Hc) as (_ & F & HF & Hx).
  exists F. split; [done|]. by apply Hx.
Qed.

End Fetches.

Lemma item_file_urls_in it x : x ∈ item_file_urls it -> x ∈ item_urls it.
Proof.
  induction it as [name u|name u|name u l IH] using Item_children_ind; simpl; [done| |].
  { intros Hx. by apply elem_of_nil in Hx. }
  intros Hx. right. revert Hx. induction IH as [|c l Hc _ IHl]; [done|].
  rewrite !elem_of_app. intros [Hx|Hx]; [left; by apply Hc|right; by apply IHl].
Qed.

Lemma item_dir_urls_in it x : x ∈ item_dir_urls it -> x ∈ item_urls it.
Proof.
  induction it as [name u|name u|name u l IH] using Item_children_ind; simpl; [|done|].
  { intros Hx. by apply elem_of_nil in Hx. }
  rewrite !elem_of_cons. intros [->|Hx]; [by left|]. right.
  revert Hx. induction IH as [|c l Hc _ IHl]; [done|].
  rewrite !elem_of_app. intros [Hx|Hx]; [left; by apply Hc|right; by apply IHl].
Qed.

Lemma items_file_urls_in l x : x ∈ items_file_urls l -> x ∈ items_urls l.
Proof.
  unfold items_file_urls, items_urls. induction l as [|c l IH]; simpl; [done|].
  rewrite !elem_of_app. intros [Hx|Hx]; [left; by apply item_file_urls_in|right; by apply IH].
Qed.

Lemma items_dir_urls_in l x : x ∈ items_dir_urls l -> x ∈ items_urls l.
Proof.
  unfold items_dir_urls, items_urls. induction l as [|c l IH]; simpl; [done|].
  rewrite !elem_of_app. intros [Hx|Hx]; [left; by apply item_dir_urls_in|right; by apply IH].
Qed.

Lemma items_file_not_dir_from l :
  Forall (fun it => NoDup (item_urls it) ->
                    forall x, x ∈ item_file_urls it -> x ∉ item_dir_urls it) l ->
  NoDup (items_urls l) -> forall x, x ∈ items_file_urls l -> x ∉ items_dir_urls l.
Proof.
  induction 1 as [|c l Hc _ IHl]; intros Hnd x Hx Hd.
  { by apply elem_of_nil in Hx. }
  change (items_urls (c :: l)) with (item_urls c ++ items_urls l) in Hnd.
  change (items_file_urls (c :: l)) with (item_file_urls c ++ items_file_urls l) in Hx.
  change (items_dir_urls (c :: l)) with (item_dir_urls c ++ items_dir_urls l) in Hd.
  apply NoDup_app in Hnd as (Hn1 & Hdisj & Hn2).
  apply elem_of_app in Hx as [Hx|Hx]; apply elem_of_app in Hd as [Hd|Hd].
  - by apply (Hc Hn1 x).
  - apply (Hdisj x); [by apply item_file_urls_in|by apply items_dir_urls_in].
  - apply (Hdisj x); [by apply item_dir_urls_in|by apply items_file_urls_in].
  - by apply (IHl Hn2 x).
Qed.

(** In a tree without two entries for one URL, no URL is both a file and a
    directory. *)
Lemma item_file_not_dir it :
  NoDup (item_urls it) -> forall x, x ∈ item_file_urls it -> x ∉ item_dir_urls it.
Proof.
  induction it as [name u|name u|name u l IH] using Item_children_ind; simpl.
  - intros _ x _ Hx. by apply elem_of_nil in Hx.
  - intros _ x Hx. by apply elem_of_nil in Hx.
  - change ((fix urls (l0 : list Item) : list string :=
               match l0 with [] => [] | x :: l' => item_urls x ++ urls l' end) l)
      with (items_urls l).
    change ((fix urls (l0 : list Item) : list string :=
               match l0 with [] => [] | x :: l' => item_file_urls x ++ urls l' end) l)
      with (items_file_urls l).
    change ((fix urls (l0 : list Item) : list string :=
               match l0 with [] => [] | x :: l' => item_dir_urls x ++ urls l' end) l)
      with (items_dir_urls l).
    intros Hnd x Hx. apply NoDup_cons in Hnd as [Hu Hnd].
    rewrite elem_of_cons. intros [->|Hd].
    + by apply Hu, items_file_urls_in.
    + by apply (items_file_not_dir_from l IH Hnd x).
Qed.

Lemma result_file_not_dir c :
  NoDup (result_urls c) -> forall x, x ∈ result_file_urls c -> x ∉ result_dir_urls c.
Proof.
  destruct c as [l|]; simpl; [|intros _ x Hx; by apply elem_of_nil in Hx].
  apply items_file_not_dir_from. apply Forall_forall. intros it _. apply item_file_not_dir.
Qed.

Section Files.
Context `{lib : NodeLib}.
Variable fetch : Fetch.

(** The entries of the tree of a completed crawl have pairwise distinct
    URLs. *)
Lemma crawl_result_urls_NoDup fuel u opts internals w c w' :
  valid_internals internals w ->
  crawl fetch fuel u opts internals w = (Fulfilled c, w') ->
  NoDup (result_urls c).
Proof.
  intros Hv Hc. destruct fuel as [|fuel]; [done|]. simpl in Hc.
  destruct (start internals w) as [i w1] eqn:Hs.
  destruct (start_ready fetch _ _ _ _ Hv Hs) as (a & Hr & _ & _ & Heq & _).
  rewrite Heq in Hc.
  destruct (crawl_body_frame fetch _ (crawl_frame fetch fuel) _ _ _ _ _ _ _ Hr Hc)
    as (P & HP & Hsub).
  apply (sublist_NoDup _ P); [apply HP|by apply Hsub].
Qed.

(** X5: the crawl does not fetch the files it lists: in a completed crawl,
    the URL of a file entry is not among the fetches, unless it is the
    URL the crawl was called with. *)
Theorem files_are_not_fetched fuel u opts internals w c w' :
  valid_internals internals w ->
  crawl fetch fuel u opts internals w = (Fulfilled c, w') ->
  exists F, fetched w' = fetched w ++ F
            /\ forall x, x ∈ result_file_urls c -> x <> u -> x ∉ F.
Proof.
  intros Hv Hc.
  destruct (crawl_fetches fetch fuel _ _ _ _ _ _ Hc) as (_ & F & HF & Hx).
  exists F. split; [done|]. intros x Hfile Hne Hin.
  apply (Hx _ eq_refl) in Hin as [->|Hdir]; [done|].
  eapply result_file_not_dir; [|exact Hfile|exact Hdir].
  by eapply crawl_result_urls_NoDup.
Qed.

End Files.

Section Avoids.
Context `{lib : NodeLib}.
Variable fetch : Fetch.

Lemma extends_visited_in a w w' P x :
  a < length (arrays w) -> extends a w w' P -> x ∈ visited a w -> x ∈ visited a w'.
Proof.
  intros Ha Hext Hx. rewrite (extends_visited _ _ _ _ Ha Hext). apply elem_of_app. by left.
Qed.

Lemma fetched_do_fetch u w res w' :
  do_fetch fetch u w = (res, w') -> fetched w' = fetched w ++ [u].
Proof. unfold do_fetch. by intros [= _ <-]. Qed.

Opaque object_assign push_URL do_fetch.

Lemma process_links_avoids rec absURL absURLObj opts i a links x :
  rec_frame rec -> rec_avoids rec ->
  forall items w r w',
    ready i a w -> x ∈ visited a w ->
    process_links rec absURL absURLObj opts i links items w = (r, w') ->
    exists F, fetched w' = fetched w ++ F /\ x ∉ F.
Proof.
  intros Hframe Hrec. induction links as [|[name href] links IH];
    intros items w r w' Hw Hx Hp; simpl in Hp.
  { injection Hp as <- <-. exists []. split; [by rewrite app_nil_r|]. apply not_elem_of_nil. }
  assert (Hstop : forall (r0 : Completion (list Item)) w0, (r0, w0) = (r, w') ->
            fetched w0 = fetched w -> exists F, fetched w' = fetched w ++ F /\ x ∉ F).
  { intros r0 w0 [= <- <-] Hf. exists []. split; [by rewrite app_nil_r|]. apply not_elem_of_nil. }
  destruct (url_resolve _ _) as [urlObj|]; [|by eapply Hstop; [exact Hp|]].
  rewrite (ready_allURLs_of _ _ _ Hw) in Hp.
  case_bool_decide as Hin; [by eapply IH|].
  destruct (ready_push _ _ _ _ Hw Hin) as [Hext1 Hw1].
  set (w1 := push_URL i (url_format urlObj) w) in *.
  assert (Hf1 : fetched w1 = fetched w) by apply fetched_push_URL.
  assert (Hx1 : x ∈ visited a w1) by (eapply extends_visited_in; [apply Hw|done|done]).
  assert (Hskip : forall its r w', process_links rec absURL absURLObj opts i links its w1 = (r, w') ->
            exists F, fetched w' = fetched w ++ F /\ x ∉ F).
  { intros its r0 w0 H0. destruct (IH _ _ _ _ Hw1 Hx1 H0) as (F & HF & HxF).
    exists F. by rewrite HF, Hf1. }
  destruct (ignored _ _ _ _); [by eapply Hskip|].
  destruct href as [href|]; [|by eapply Hstop; [exact Hp|]].
  destruct (JsString.endsWith href "/").
  - destruct (object_assign i None w1) as [child w2] eqn:Has.
    destruct (ready_assign _ _ _ _ _ _ Hw1 Has) as (Hext2 & Hw2 & Hchild).
    assert (Hf2 : fetched w2 = fetched w1).
    { pose proof (fetched_object_assign i None w1) as H. by rewrite Has in H. }
    assert (Hx2 : x ∈ visited a w2) by (eapply extends_visited_in; [apply Hw1|done|done]).
    assert (Hne : x <> url_format urlObj) by (intros ->; done).
    destruct (rec _ _ _ _) as [rc w3] eqn:Hrc.
    destruct (Hrec _ _ _ _ _ _ _ _ Hchild Hx2 Hne Hrc) as (F1 & HF1 & HxF1).
    destruct (Hframe _ _ _ _ _ _ _ Hchild Hrc) as (Q & HQ & _).
    destruct rc as [c|e|].
    + assert (Hw3 : ready i a w3) by (by eapply extends_ready).
      assert (Hx3 : x ∈ visited a w3) by (eapply extends_visited_in; [apply Hw2|done|done]).
      destruct (IH _ _ _ _ Hw3 Hx3 Hp) as (F2 & HF2 & HxF2).
      exists (F1 ++ F2). split; [by rewrite HF2, HF1, Hf2, Hf1, app_assoc|].
      rewrite elem_of_app. tauto.
    + injection Hp as <- <-. exists F1. by rewrite HF1, Hf2, Hf1.
    + injection Hp as <- <-. exists F1. by rewrite HF1, Hf2, Hf1.
  - destruct (bad_extension _ _); by eapply Hskip.
Qed.

Lemma crawl_body_avoids rec :
  rec_frame rec -> rec_avoids rec -> rec_avoids (crawl_body fetch rec).
Proof.
  intros Hframe Hrec u opts i a w r w' x Hw Hx Hne Hc. unfold crawl_body in Hc.
  change (internals_param (Some i) w) with (i, w) in Hc. cbv beta iota zeta in Hc.
  rewrite (ready_init _ _ _ Hw) in Hc.
  destruct (url_parse u) as [U|].
  2:{ injection Hc as <- <-. exists []. split; [by rewrite app_nil_r|]. apply not_elem_of_nil. }
  destruct (do_fetch fetch u w) as [res w1] eqn:Hf.
  destruct (ready_fetch _ _ _ _ _ _ _ Hw Hf) as (_ & Hext1 & Hw1).
  pose proof (fetched_do_fetch _ _ _ _ Hf) as Hf1.
  assert (Hx1 : x ∈ visited a w1) by (eapply extends_visited_in; [apply Hw|done|done]).
  assert (Hu : x ∉ [u]) by (by intros ?%list_elem_of_singleton).
  assert (Hend : forall y w0, y = (r, w') \/ (y = (Rejected FAILED_DOWNLOAD, w') /\ r = Fulfilled EmptyArray) ->
            y.2 = w0 -> (exists F, fetched w0 = fetched w1 ++ F /\ x ∉ F) ->
            exists F, fetched w' = fetched w ++ F /\ x ∉ F).
  { intros y w0 Hy Hw0 (F & HF & HxF).
    assert (w0 = w') as -> by (destruct Hy as [->|[-> _]]; by simpl in Hw0).
    exists ([u] ++ F). split; [by rewrite HF, Hf1, <- app_assoc|].
    rewrite elem_of_app. tauto. }
  apply catch_failed_download_inv in Hc.
  destruct res as [|st [text|]].
  - destruct (_ <? _)%Z.
    + destruct (object_assign _ _ _) as [retry w2] eqn:Has.
      destruct (ready_assign _ _ _ _ _ _ Hw1 Has) as (Hext2 & Hw2 & Hretry).
      assert (Hf2 : fetched w2 = fetched w1).
      { pose proof (fetched_object_assign i (Some (attempts_of w1 i + 1)%Z) w1) as H.
        by rewrite Has in H. }
      assert (Hx2 : x ∈ visited a w2) by (eapply extends_visited_in; [apply Hw1|done|done]).
      destruct (rec _ _ _ _) as [rc w3] eqn:Hrc.
      destruct (Hrec _ _ _ _ _ _ _ _ Hretry Hx2 Hne Hrc) as (F & HF & HxF).
      eapply (Hend _ w3); [exact Hc|done|]. exists F. by rewrite HF, Hf2.
    + eapply (Hend _ w1); [exact Hc|done|]. exists []. split; [by rewrite app_nil_r|].
      apply not_elem_of_nil.
  - destruct (process_links _ _ _ _ _ _ _ _) as [rp wp] eqn:Hp.
    destruct (process_links_avoids _ _ _ _ _ _ _ _ Hframe Hrec _ _ _ _ Hw1 Hx1 Hp)
      as (F & HF & HxF).
    eapply (Hend _ wp); [exact Hc| |by exists F]. by destruct rp.
  - eapply (Hend _ w1); [exact Hc|done|]. exists []. split; [by rewrite app_nil_r|].
    apply not_elem_of_nil.
Qed.

Lemma crawl_avoids fuel : rec_avoids (crawl fetch fuel).
Proof.
  induction fuel as [|fuel IH].
  - intros u opts i a w r w' x _ _ _ [= <- <-]. exists []. split; [by rewrite app_nil_r|].
    apply not_elem_of_nil.
  - apply crawl_body_avoids; [apply crawl_frame|done].
Qed.

(** X6: a URL that is in the visited list when a call starts is not
    fetched by that call, however the call ends, unless it is the URL the
    call is made for. *)
Theorem visited_are_not_fetched fuel u opts i a w r w' x :
  ready i a w -> x ∈ visited a w -> x <> u ->
  crawl fetch fuel u opts (Some i) w = (r, w') ->
  exists F, fetched w' = fetched w ++ F /\ x ∉ F.
Proof. intros Hw Hx Hne Hc. by eapply (crawl_avoids fuel). Qed.

End Avoids.

Section Records.
Context `{lib : NodeLib}.
Variable fetch : Fetch.

Lemma do_fetch_outcome u w res w' :
  do_fetch fetch u w = (res, w') -> res = fetch (fetched w) u.
Proof. unfold do_fetch. by intros [= <- _]. Qed.

Opaque object_assign push_URL do_fetch.

Lemma process_links_records rec absURL absURLObj opts i a links :
  rec_frame rec ->
  forall items w its w',
    ready i a w ->
    process_links rec absURL absURLObj opts i links items w = (Fulfilled its, w') ->
    links_recorded absURL links (visited a w').
Proof.
  intros Hframe. induction links as [|[name href] links IH]; intros items w its w' Hw Hp.
  { intros n h Hin. by apply elem_of_nil in Hin. }
  simpl in Hp.
  destruct (url_resolve _ _) as [urlObj|] eqn:Hres; [|done].
  rewrite (ready_allURLs_of _ _ _ Hw) in Hp.
  assert (Hcons : forall w0 items0,
    ready i a w0 -> url_format urlObj ∈ visited a w0 ->
    process_links rec absURL absURLObj opts i links items0 w0 = (Fulfilled its, w') ->
    links_recorded absURL ((name, href) :: links) (visited a w')).
  { intros w0 items0 Hw0 Hin0 Hp0 n h Hin. apply elem_of_cons in Hin as [[= -> ->]|Hin].
    - exists urlObj. split; [done|].
      destruct (process_links_frame _ _ _ _ _ _ Hframe _ _ _ _ _ Hw0 Hp0) as (P & HP & _).
      eapply extends_visited_in; [apply Hw0|done|done].
    - exact (IH _ _ _ _ Hw0 Hp0 n h Hin). }
  case_bool_decide as Hin; [by eapply Hcons|].
  destruct (ready_push _ _ _ _ Hw Hin) as [Hext1 Hw1].
  set (w1 := push_URL i (url_format urlObj) w) in *.
  assert (Hin1 : url_format urlObj ∈ visited a w1).
  { rewrite (extends_visited _ _ _ _ (proj2 Hw) Hext1). apply elem_of_app. right.
    by apply list_elem_of_singleton. }
  destruct (ignored _ _ _ _); [by eapply Hcons|].
  destruct href as [href|]; [|done].
  destruct (JsString.endsWith href "/").
  - destruct (object_assign i None w1) as [child w2] eqn:Has.
    destruct (ready_assign _ _ _ _ _ _ Hw1 Has) as (Hext2 & Hw2 & Hchild).
    destruct (rec _ _ _ _) as [rc w3] eqn:Hrc.
    destruct (Hframe _ _ _ _ _ _ _ Hchild Hrc) as (Q & HQ & _).
    destruct rc as [c|e|]; [|done|done].
    eapply (Hcons w3); [by eapply extends_ready| |exact Hp].
    eapply extends_visited_in; [apply Hw2|done|].
    eapply extends_visited_in; [apply Hw1|done|done].
  - destruct (bad_extension _ _); by eapply Hcons.
Qed.

Lemma links_recorded_mono absURL links V V' :
  V ⊆ V' -> links_recorded absURL links V -> links_recorded absURL links V'.
Proof.
  intros Hsub H name href Hin. destruct (H name href Hin) as (U & HU & HV).
  exists U. split; [done|]. by apply Hsub.
Qed.

Lemma crawl_body_records rec :
  rec_frame rec -> rec_records fetch rec -> rec_records fetch (crawl_body fetch rec).
Proof.
  intros Hframe Hrec u opts i a w items w' Hw Hc. unfold crawl_body in Hc.
  change (internals_param (Some i) w) with (i, w) in Hc. cbv beta iota zeta in Hc.
  rewrite (ready_init _ _ _ Hw) in Hc.
  destruct (url_parse u) as [U|]; [|done].
  destruct (do_fetch fetch u w) as [res w1] eqn:Hf.
  destruct (ready_fetch _ _ _ _ _ _ _ Hw Hf) as (_ & Hext1 & Hw1).
  pose proof (do_fetch_outcome _ _ _ _ Hf) as Hres.
  apply catch_failed_download_inv in Hc as [Hc|[_ [=]]].
  destruct res as [|st [text|]]; [| |done].
  - destruct (_ <? _)%Z; [|done].
    destruct (object_assign _ _ _) as [retry w2] eqn:Has.
    destruct (ready_assign _ _ _ _ _ _ Hw1 Has) as (Hext2 & Hw2 & Hretry).
    by apply (Hrec _ _ _ _ _ _ _ Hretry Hc).
  - apply return_items_inv in Hc as (its & [= <-] & Hp).
    exists (fetched w), st, text. split; [done|].
    by eapply process_links_records.
Qed.

Lemma crawl_records fuel : rec_records fetch (crawl fetch fuel).
Proof.
  induction fuel as [|fuel IH]; [by intros u opts i a w items w' _|].
  apply crawl_body_records; [apply crawl_frame|done].
Qed.

(** X7: when a crawl completes with a tree, every link of the page it
    read is in the visited list, whether the link got an entry or was
    ignored by a check: a URL is recorded before it is filtered. *)
Theorem every_link_is_recorded fuel u opts internals w items w' :
  valid_internals internals w ->
  crawl fetch fuel u opts internals w = (Fulfilled (ResultObject items), w') ->
  exists log st text,
    fetch log u = FetchResponse st (Some text)
    /\ links_recorded u (getHTMLLinks text) (allURLs_of w' (start internals w).1).
Proof.
  intros Hv Hc. destruct fuel as [|fuel]; [done|]. simpl in Hc.
  destruct (start internals w) as [i w1] eqn:Hs.
  destruct (start_ready fetch _ _ _ _ Hv Hs) as (a & Hr & _ & _ & Heq & _).
  rewrite Heq in Hc.
  destruct (crawl_body_frame fetch _ (crawl_frame fetch fuel) _ _ _ _ _ _ _ Hr Hc)
    as (P & HP & _).
  destruct (crawl_body_records _ (crawl_frame fetch fuel) (crawl_records fuel)
              _ _ _ _ _ _ _ Hr Hc) as (log & st & text & Hf & Hrec).
  exists log, st, text. split; [done|]. simpl.
  by rewrite (ready_allURLs_of _ _ _ (extends_ready _ _ _ _ _ Hr HP)).
Qed.

End Records.

Section ProvenanceFacts.
Context `{lib : NodeLib}.
Variable fetch : Fetch.

Lemma entry_ok_Dir_Some opts absURL absURLObj links name u l :
  entry_ok fetch opts absURL absURLObj links (Dir name u (Some l))
  <-> made_from opts absURL absURLObj links name u true /\ listing_ok fetch opts u l.
Proof.
  simpl. unfold listing_ok.
  assert (Hall : forall U' links',
    (fix all (l : list Item) : Prop :=
       match l with
       | [] => True
       | c :: l' => entry_ok fetch opts u U' links' c /\ all l'
       end) l <-> Forall (entry_ok fetch opts u U' links') l).
  { intros U' links'. induction l as [|c l IH]; [by split|].
    rewrite Forall_cons, <- IH. done. }
  split; intros [Hm (U' & links' & Hs & Hl)]; (split; [done|]); exists U', links';
    (split; [done|]); by apply Hall.
Qed.

Lemma made_from_mono opts absURL absURLObj links links' name u d :
  links ⊆ links' ->
  made_from opts absURL absURLObj links name u d ->
  made_from opts absURL absURLObj links' name u d.
Proof.
  intros Hsub (label & href & urlObj & Hin & H). exists label, href, urlObj.
  split; [by apply Hsub|done].
Qed.

Opaque object_assign push_URL.

Lemma process_links_listing rec absURL absURLObj opts i page links :
  rec_listing fetch rec -> links ⊆ page ->
  forall items w its w',
    process_links rec absURL absURLObj opts i links items w = (Fulfilled its, w') ->
    exists new, its = items ++ new
                /\ Forall (entry_ok fetch opts absURL absURLObj page) new.
Proof.
  intros Hrec. induction links as [|[name href] links IH]; intros Hsub items w its w' Hp;
    simpl in Hp.
  { injection Hp as <- <-. exists []. by rewrite app_nil_r. }
  assert (Hsub' : links ⊆ page) by (intros l Hl; apply Hsub; by right).
  specialize (IH Hsub').
  destruct (url_resolve _ _) as [urlObj|] eqn:Hres; [|done].
  case_bool_decide; [by eapply IH|].
  destruct (ignored _ _ _ _) eqn:Hign; [by eapply IH|].
  destruct href as [href|]; [|done].
  assert (Hmade : forall d, JsString.endsWith href "/" = d ->
            (d = false -> bad_extension opts href = false) ->
            made_from opts absURL absURLObj page (entry_name name) (url_format urlObj) d).
  { intros d Hd Hext. exists name, href, urlObj. repeat split; try done.
    apply Hsub. by left. }
  destruct (JsString.endsWith href "/") eqn:Hdir.
  - destruct (object_assign i None _) as [child w2].
    destruct (rec _ _ _ _) as [[c|e|] w3] eqn:Hrc; [|done|done].
    destruct (IH _ _ _ _ Hp) as (new & -> & Hnew).
    eexists (_ :: new). split; [by rewrite <- app_assoc|].
    constructor; [|done]. destruct c as [l|]; simpl result_items.
    + apply entry_ok_Dir_Some. split; [by apply Hmade|]. by eapply Hrec.
    + simpl. split; [by apply Hmade|done].
  - destruct (bad_extension opts href) eqn:Hext; [by eapply IH|].
    destruct (IH _ _ _ _ Hp) as (new & -> & Hnew).
    eexists (_ :: new). split; [by rewrite <- app_assoc|].
    constructor; [|done]. simpl. by apply Hmade.
Qed.

Lemma crawl_body_listing rec :
  rec_listing fetch rec -> rec_listing fetch (crawl_body fetch rec).
Proof.
  intros Hrec u opts i w items w' Hc. unfold crawl_body in Hc.
  destruct (internals_param i w) as [j w0]. cbv beta iota zeta in Hc.
  destruct (url_parse u) as [U|] eqn:HU; [|done].
  unfold do_fetch in Hc.
  apply catch_failed_download_inv in Hc as [Hc|[_ [=]]].
  destruct (fetch _ u) as [|st [text|]] eqn:Hf; [| |done].
  - destruct (_ <? _)%Z; [|done].
    destruct (object_assign _ _ _) as [retry w2]. by eapply Hrec.
  - apply return_items_inv in Hc as (its & [= <-] & Hp).
    destruct (process_links_listing _ _ _ _ _ (getHTMLLinks text) _ Hrec
                ltac:(done) _ _ _ _ Hp) as (new & Hnew & Hall).
    simpl in Hnew. subst new.
    exists U, (getHTMLLinks text). split; [|done].
    split; [done|]. by eexists _, st, text.
Qed.

Lemma crawl_listing fuel : rec_listing fetch (crawl fetch fuel).
Proof.
  induction fuel as [|fuel IH]; [by intros u opts i w items w'|].
  by apply crawl_body_listing.
Qed.

(** X8: in the tree of a completed crawl, at every depth, the entries of
    a list were all made for links of one page that was fetched from the
    URL of their directory: each entry has the label of its link, cleaned,
    as its name and the resolved [href] as its URL, its URL passed the
    regular expression, host and containment checks against the URL of
    its directory, a directory entry is an [href] that ends with a slash,
    and a file entry passed the extension check. *)
Theorem every_entry_comes_from_a_link fuel u opts internals w items w' :
  crawl fetch fuel u opts internals w = (Fulfilled (ResultObject items), w') ->
  listing_ok fetch opts u items.
Proof. apply crawl_listing. Qed.

End ProvenanceFacts.

Section Order.
Context `{lib : NodeLib}.
Variable fetch : Fetch.

Lemma link_heads_cons_Some absURL name href links urlObj :
  url_resolve (href_string href) (absURL +:+ "/") = Some urlObj ->
  link_heads absURL ((name, href) :: links)
  = (entry_name name, url_format urlObj) :: link_heads absURL links.
Proof. intros H. unfold link_heads, link_head. simpl. by rewrite H. Qed.

Opaque object_assign push_URL.

Lemma process_links_ordered rec absURL absURLObj opts i links :
  forall items w its w',
    process_links rec absURL absURLObj opts i links items w = (Fulfilled its, w') ->
    exists new, its = items ++ new
                /\ sublist (map item_head new) (link_heads absURL links).
Proof.
  induction links as [|[name href] links IH]; intros items w its w' Hp; simpl in Hp.
  { injection Hp as <- <-. exists []. by rewrite app_nil_r. }
  destruct (url_resolve _ _) as [urlObj|] eqn:Hres; [|done].
  rewrite (link_heads_cons_Some _ _ _ _ _ Hres).
  assert (Hskip : forall w0,
    process_links rec absURL absURLObj opts i links items w0 = (Fulfilled its, w') ->
    exists new, its = items ++ new
      /\ sublist (map item_head new)
           ((entry_name name, url_format urlObj) :: link_heads absURL links)).
  { intros w0 H0. destruct (IH _ _ _ _ H0) as (new & -> & Hnew).
    exists new. split; [done|]. by apply sublist_cons. }
  assert (Hkeep : forall it w0,
    item_head it = (entry_name name, url_format urlObj) ->
    process_links rec absURL absURLObj opts i links (items ++ [it]) w0 = (Fulfilled its, w') ->
    exists new, its = items ++ new
      /\ sublist (map item_head new)
           ((entry_name name, url_format urlObj) :: link_heads absURL links)).
  { intros it w0 Hit H0. destruct (IH _ _ _ _ H0) as (new & -> & Hnew).
    exists (it :: new). split; [by rewrite <- app_assoc|].
    simpl. rewrite Hit. by apply sublist_skip. }
  case_bool_decide; [by eapply Hskip|].
  destruct (ignored _ _ _ _); [by eapply Hskip|].
  destruct href as [href|]; [|done].
  destruct (JsString.endsWith href "/").
  - destruct (object_assign i None _) as [child w2].
    destruct (rec _ _ _ _) as [[c|e|] w3]; [|done|done].
    by eapply Hkeep; [|exact Hp].
  - destruct (bad_extension opts href); [by eapply Hskip|].
    by eapply Hkeep; [|exact Hp].
Qed.

Lemma crawl_body_ordered rec :
  rec_ordered fetch rec -> rec_ordered fetch (crawl_body fetch rec).
Proof.
  intros Hrec u opts i w items w' Hc. unfold crawl_body in Hc.
  destruct (internals_param i w) as [j w0]. cbv beta iota zeta in Hc.
  destruct (url_parse u) as [U|] eqn:HU; [|done].
  unfold do_fetch in Hc.
  apply catch_failed_download_inv in Hc as [Hc|[_ [=]]].
  destruct (fetch _ u) as [|st [text|]] eqn:Hf; [| |done].
  - destruct (_ <? _)%Z; [|done].
    destruct (object_assign _ _ _) as [retry w2]. by eapply Hrec.
  - apply return_items_inv in Hc as (its & [= <-] & Hp).
    destruct (process_links_ordered _ _ _ _ _ _ _ _ _ _ Hp) as (new & Hnew & Hsub).
    simpl in Hnew. subst new. by eexists _, st, text.
Qed.

Lemma crawl_ordered fuel : rec_ordered fetch (crawl fetch fuel).
Proof.
  induction fuel as [|fuel IH]; [by intros u opts i w items w'|].
  by apply crawl_body_ordered.
Qed.

(** X9: the entries of a completed crawl are in the order of the links
    of the page: their names and URLs, in order, are what is left of the
    names and URLs of the links once some links are dropped. *)
Theorem entries_keep_link_order fuel u opts internals w items w' :
  crawl fetch fuel u opts internals w = (Fulfilled (ResultObject items), w') ->
  exists log st text,
    fetch log u = FetchResponse st (Some text)
    /\ sublist (map item_head items) (link_heads u (getHTMLLinks text)).
Proof. apply crawl_ordered. Qed.

End Order.

Section LinksOnly.
Context `{lib : NodeLib}.
Variable fetch : Fetch.

Lemma grown_refl a w : grown_by_links fetch a w w.
Proof. intros x Hx. by left. Qed.

Lemma grown_trans a w1 w2 w3 :
  grown_by_links fetch a w1 w2 -> grown_by_links fetch a w2 w3 ->
  grown_by_links fetch a w1 w3.
Proof.
  intros H12 H23 x Hx. destruct (H23 x Hx) as [H|H]; [by apply H12|by right].
Qed.

Lemma grown_same a w w' :
  visited a w' = visited a w -> grown_by_links fetch a w w'.
Proof. intros Heq x Hx. left. by rewrite <- Heq. Qed.

Lemma extends_nil_visited a w w' :
  a < length (arrays w) -> extends a w w' [] -> visited a w' = visited a w.
Proof. intros Ha He. rewrite (extends_visited _ _ _ _ Ha He). by rewrite app_nil_r. Qed.

Opaque object_assign push_URL do_fetch.

Lemma process_links_links_only rec absURL absURLObj opts i a links :
  rec_frame rec -> rec_links_only fetch rec ->
  (forall name href U, (name, href) ∈ links ->
     url_resolve (href_string href) (absURL +:+ "/") = Some U ->
     linked fetch (url_format U)) ->
  forall items w r w',
    ready i a w ->
    process_links rec absURL absURLObj opts i links items w = (r, w') ->
    grown_by_links fetch a w w'.
Proof.
  intros Hframe Hrec. induction links as [|[name href] links IH];
    intros Hl items w r w' Hw Hp; simpl in Hp.
  { injection Hp as <- <-. apply grown_refl. }
  assert (Hl' : forall name href U, (name, href) ∈ links ->
     url_resolve (href_string href) (absURL +:+ "/") = Some U ->
     linked fetch (url_format U)).
  { intros n h U Hin. apply (Hl n h U). by right. }
  specialize (IH Hl').
  destruct (url_resolve _ _) as [urlObj|] eqn:Hres.
  2:{ injection Hp as <- <-. apply grown_refl. }
  rewrite (ready_allURLs_of _ _ _ Hw) in Hp.
  case_bool_decide as Hin; [by eapply IH|].
  destruct (ready_push _ _ _ _ Hw Hin) as [Hext1 Hw1].
  set (w1 := push_URL i (url_format urlObj) w) in *.
  assert (H1 : grown_by_links fetch a w w1).
  { intros x Hx. rewrite (extends_visited _ _ _ _ (proj2 Hw) Hext1) in Hx.
    apply elem_of_app in Hx as [Hx|Hx]; [by left|right].
    apply list_elem_of_singleton in Hx as ->. apply (Hl name href urlObj); [by left|done]. }
  assert (Hskip : forall its r w',
    process_links rec absURL absURLObj opts i links its w1 = (r, w') ->
    grown_by_links fetch a w w').
  { intros its r0 w0 H0. eapply grown_trans; [exact H1|]. by eapply IH. }
  destruct (ignored _ _ _ _); [by eapply Hskip|].
  destruct href as [href|].
  2:{ by injection Hp as <- <-. }
  destruct (JsString.endsWith href "/").
  - destruct (object_assign i None w1) as [child w2] eqn:Has.
    destruct (ready_assign _ _ _ _ _ _ Hw1 Has) as (Hext2 & Hw2 & Hchild).
    assert (H2 : grown_by_links fetch a w w2).
    { eapply grown_trans; [exact H1|]. apply grown_same.
      by apply extends_nil_visited; [apply Hw1|]. }
    destruct (rec _ _ _ _) as [rc w3] eqn:Hrc.
    pose proof (Hrec _ _ _ _ _ _ _ Hchild Hrc) as H3.
    destruct (Hframe _ _ _ _ _ _ _ Hchild Hrc) as (Q & HQ & _).
    assert (H13 : grown_by_links fetch a w w3) by (by eapply grown_trans).
    destruct rc as [c|e|].
    + eapply grown_trans; [exact H13|]. eapply IH; [|exact Hp]. by eapply extends_ready.
    + by injection Hp as <- <-.
    + by injection Hp as <- <-.
  - destruct (bad_extension _ _); by eapply Hskip.
Qed.

Lemma crawl_body_links_only rec :
  rec_frame rec -> rec_links_only fetch rec -> rec_links_only fetch (crawl_body fetch rec).
Proof.
  intros Hframe Hrec u opts i a w r w' Hw Hc. unfold crawl_body in Hc.
  change (internals_param (Some i) w) with (i, w) in Hc. cbv beta iota zeta in Hc.
  rewrite (ready_init _ _ _ Hw) in Hc.
  destruct (url_parse u) as [U|].
  2:{ injection Hc as <- <-. apply grown_refl. }
  destruct (do_fetch fetch u w) as [res w1] eqn:Hf.
  destruct (ready_fetch _ _ _ _ _ _ _ Hw Hf) as (_ & Hext1 & Hw1).
  pose proof (do_fetch_outcome _ _ _ _ _ Hf) as Hres.
  assert (H1 : grown_by_links fetch a w w1).
  { apply grown_same. by apply extends_nil_visited; [apply Hw|]. }
  assert (Hend : forall y w0,
            y = (r, w') \/ (y = (Rejected FAILED_DOWNLOAD, w') /\ r = Fulfilled EmptyArray) ->
            y.2 = w0 -> grown_by_links fetch a w1 w0 -> grown_by_links fetch a w w').
  { intros y w0 Hy Hw0 H0.
    assert (w0 = w') as -> by (destruct Hy as [->|[-> _]]; by simpl in Hw0).
    by eapply grown_trans. }
  apply catch_failed_download_inv in Hc.
  destruct res as [|st [text|]].
  - destruct (_ <? _)%Z.
    + destruct (object_assign _ _ _) as [retry w2] eqn:Has.
      destruct (ready_assign _ _ _ _ _ _ Hw1 Has) as (Hext2 & Hw2 & Hretry).
      destruct (rec _ _ _ _) as [rc w3] eqn:Hrc.
      eapply (Hend _ w3); [exact Hc|done|].
      eapply grown_trans; [|by eapply Hrec].
      apply grown_same. by apply extends_nil_visited; [apply Hw1|].
    + eapply (Hend _ w1); [exact Hc|done|]. apply grown_refl.
  - destruct (process_links _ _ _ _ _ _ _ _) as [rp wp] eqn:Hp.
    eapply (Hend _ wp); [exact Hc|by destruct rp|].
    eapply process_links_links_only; [done|done| |exact Hw1|exact Hp].
    intros name href U0 Hin HU. by exists (fetched w), u, st, text, name, href, U0.
  - eapply (Hend _ w1); [exact Hc|done|]. apply grown_refl.
Qed.

Lemma crawl_links_only fuel : rec_links_only fetch (crawl fetch fuel).
Proof.
  induction fuel as [|fuel IH].
  - intros u opts i a w r w' _ [= <- <-]. apply grown_refl.
  - apply crawl_body_links_only; [apply crawl_frame|done].
Qed.

(** X10: only the URLs of links are recorded: whatever the visited list
    holds when a call ends, however it ends, was in the list when the
    call started, or is what a link of a page that was served resolves
    to.  The URL a crawl is called with is not recorded for being
    crawled. *)
Theorem recorded_are_links fuel u opts i a w r w' x :
  ready i a w ->
  crawl fetch fuel u opts (Some i) w = (r, w') ->
  x ∈ visited a w' -> x ∈ visited a w \/ linked fetch x.
Proof. intros Hw Hc. by apply (crawl_links_only fuel _ _ _ _ _ _ _ Hw Hc). Qed.

End LinksOnly.

Section Thrown.
Context `{lib : NodeLib}.
Variable fetch : Fetch.

Opaque object_assign push_URL.

Lemma process_links_thrown rec absURL absURLObj opts i links :
  rec_thrown fetch rec ->
  (forall name href, (name, href) ∈ links ->
     forall e,
       (e = TypeError "Cannot read property 'endsWith' of undefined" /\ href = None)
       \/ (e = TypeError "Invalid URL"
           /\ match url_resolve (href_string href) (absURL +:+ "/") with
              | None => True
              | Some urlObj => url_parse (url_format urlObj) = None
              end) ->
       thrown_on_page fetch e) ->
  forall items w e w',
    process_links rec absURL absURLObj opts i links items w = (Rejected e, w') ->
    thrown_on_page fetch e.
Proof.
  intros Hrec. induction links as [|[name href] links IH]; intros Hl items w e w' Hp;
    simpl in Hp; [done|].
  assert (Hhere := Hl name href ltac:(by left)).
  assert (Hl' : forall name href, (name, href) ∈ links ->
     forall e,
       (e = TypeError "Cannot read property 'endsWith' of undefined" /\ href = None)
       \/ (e = TypeError "Invalid URL"
           /\ match url_resolve (href_string href) (absURL +:+ "/") with
              | None => True
              | Some urlObj => url_parse (url_format urlObj) = None
              end) ->
       thrown_on_page fetch e).
  { intros n h Hin. apply (Hl n h). by right. }
  specialize (IH Hl').
  destruct (url_resolve _ _) as [urlObj|] eqn:Hres.
  2:{ injection Hp as <- <-. apply Hhere. right. split; [done|]. by rewrite ?Hres. }
  case_bool_decide; [by eapply IH|].
  destruct (ignored _ _ _ _); [by eapply IH|].
  destruct href as [href|].
  2:{ injection Hp as <- <-. apply Hhere. by left. }
  destruct (JsString.endsWith href "/").
  - destruct (object_assign i None _) as [child w2].
    destruct (rec _ _ _ _) as [[c|e0|] w3] eqn:Hrc; [by eapply IH| |done].
    injection Hp as <- <-.
    destruct (Hrec _ _ _ _ _ _ Hrc) as [[-> HU]|Hpage]; [|done].
    apply Hhere. right. split; [done|]. by rewrite ?Hres.
  - destruct (bad_extension _ _); by eapply IH.
Qed.

Lemma crawl_body_thrown rec :
  rec_thrown fetch rec -> rec_thrown fetch (crawl_body fetch rec).
Proof.
  intros Hrec u opts i w e w' Hc. unfold crawl_body in Hc.
  destruct (internals_param i w) as [j w0]. cbv beta iota zeta in Hc.
  destruct (url_parse u) as [U|] eqn:HU.
  2:{ injection Hc as <- <-. by left. }
  unfold do_fetch in Hc.
  pose proof (catch_failed_download_ne _ _ _ Hc) as Hne.
  apply catch_failed_download_inv in Hc as [Hc|[_ [=]]].
  destruct (fetch _ u) as [|st [text|]] eqn:Hf.
  - destruct (_ <? _)%Z.
    + destruct (object_assign _ _ _) as [retry w2].
      destruct (Hrec _ _ _ _ _ _ Hc) as [[_ HU']|Hpage]; [congruence|by right].
    + by injection Hc as <- <-.
  - apply return_items_inv in Hc. right.
    eapply process_links_thrown; [done| |exact Hc].
    intros name href Hin e0 He0. right. by eexists _, u, st, text, name, href.
  - injection Hc as <- <-. right. left. split; [done|]. by eexists _, u, st.
Qed.

Lemma crawl_thrown fuel : rec_thrown fetch (crawl fetch fuel).
Proof.
  induction fuel as [|fuel IH]; [by intros u opts i w e w'|].
  by apply crawl_body_thrown.
Qed.

(** X11: a crawl is rejected only with an exception that the code does
    not handle: the [TypeError] of the [URL] constructor, on the URL of
    the call, on the [href] of a link of a page that was served, or on
    the URL such a link resolved to; the [TypeError] of [endsWith] on a
    link without [href]; or the failure to read the body of a response.
    It is never rejected with the string ['FAILED_DOWNLOAD']. *)
Theorem rejection_has_a_cause fuel u opts internals w e w' :
  crawl fetch fuel u opts internals w = (Rejected e, w') ->
  e <> FAILED_DOWNLOAD
  /\ ((e = TypeError "Invalid URL" /\ url_parse u = None) \/ thrown_on_page fetch e).
Proof.
  intros Hc. split; [|by eapply crawl_thrown].
  destruct (crawl_fetches fetch fuel _ _ _ _ _ _ Hc) as [Hne _]. by intros ->.
Qed.

End Thrown.

Section Bare.
Context `{lib : NodeLib}.
Variable fetch : Fetch.

Opaque object_assign push_URL.

(** X12: a crawl completes with the bare array only by giving up: it
    fetched its URL once and once more for each attempt its internals had
    left, every one of these fetches was rejected, and it fetched nothing
    else. *)
Theorem bare_array_means_every_attempt_failed fuel u opts j w w' :
  crawl fetch fuel u opts (Some j) w = (Fulfilled EmptyArray, w') ->
  fetched w' = fetched w ++ replicate (S (Z.to_nat (maxAttempts opts - attempts_of w j))) u
  /\ forall m, m <= Z.to_nat (maxAttempts opts - attempts_of w j) ->
       fetch (fetched w ++ replicate m u) u = FetchRejected.
Proof.
  revert j w. induction fuel as [|fuel IH]; intros j w Hc; [done|].
  change (crawl fetch (S fuel)) with (crawl_body fetch (crawl fetch fuel)) in Hc.
  unfold crawl_body in Hc. change (internals_param (Some j) w) with (j, w) in Hc.
  cbv beta iota zeta in Hc.
  destruct (url_parse u) as [U|]; [|done].
  unfold do_fetch in Hc.
  set (w1 := init_allURLs j (init_attempts j w)) in *.
  set (w2 := mkWorld (objs w1) (arrays w1) (fetched w1 ++ [u])) in *.
  assert (Hf1 : fetched w1 = fetched w) by apply fetched_init.
  assert (Hat : attempts_of w2 j = attempts_of w j)
    by (rewrite <- (attempts_of_init j w); done).
  rewrite Hat, Hf1 in Hc.
  apply catch_failed_download_inv in Hc.
  destruct (fetch (fetched w) u) as [|st [text|]] eqn:Hf.
  - destruct (Z.ltb_spec (attempts_of w j) (maxAttempts opts)) as [Hlt|Hge].
    + destruct (object_assign j (Some (attempts_of w j + 1)%Z) w2) as [retry w3] eqn:Has.
      destruct (object_assign_attempts _ _ _ _ _ Has) as [Hat3 Hf3]. simpl in Hat3, Hf3.
      rewrite Hf1 in Hf3.
      destruct Hc as [Hc|[Hc _]].
      2:{ by destruct (crawl_fetches fetch fuel _ _ _ _ _ _ Hc) as [Hne _]. }
      destruct (IH _ _ Hc) as [HF Hrej]. rewrite Hat3, Hf3 in HF, Hrej.
      replace (Z.to_nat (maxAttempts opts - attempts_of w j))
        with (S (Z.to_nat (maxAttempts opts - (attempts_of w j + 1)))) by lia.
      split; [by rewrite HF, <- app_assoc|].
      intros [|m] Hm; [by rewrite app_nil_r|].
      specialize (Hrej m ltac:(lia)). by rewrite <- app_assoc in Hrej.
    + destruct Hc as [[=]|[[= <-] _]].
      replace (Z.to_nat (maxAttempts opts - attempts_of w j)) with 0 by lia.
      split; [simpl; by rewrite Hf1|].
      intros m Hm. assert (m = 0) as -> by lia. by rewrite app_nil_r.
  - destruct Hc as [Hc|[Hc _]].
    + by apply return_items_inv in Hc as (its & [=] & _).
    + apply return_items_inv in Hc.
      by destruct (process_links_fetches _ _ _ _ _ _ (crawl_fetches fetch fuel)
                     _ _ _ _ Hc) as [Hne _].
  - by destruct Hc as [[=]|[[=] _]].
Qed.

End Bare.

Section FetchOrder.
Context `{lib : NodeLib}.
Variable fetch : Fetch.
Hypothesis fetch_answers : forall log x, fetch log x <> FetchRejected.

Opaque object_assign push_URL.

Lemma process_links_fetch_order rec absURL absURLObj opts i links :
  rec_fetch_order rec ->
  forall items w its w',
    process_links rec absURL absURLObj opts i links items w = (Fulfilled its, w') ->
    exists new, its = items ++ new /\ fetched w' = fetched w ++ items_dir_urls new.
Proof.
  intros Hrec. induction links as [|[name href] links IH]; intros items w its w' Hp;
    simpl in Hp.
  { injection Hp as <- <-. exists []. by rewrite !app_nil_r. }
  destruct (url_resolve _ _) as [urlObj|]; [|done].
  case_bool_decide; [by eapply IH|].
  set (w1 := push_URL i (url_format urlObj) w) in *.
  assert (Hf1 : fetched w1 = fetched w) by apply fetched_push_URL.
  assert (Hskip : forall its w',
    process_links rec absURL absURLObj opts i links items w1 = (Fulfilled its, w') ->
    exists new, its = items ++ new /\ fetched w' = fetched w ++ items_dir_urls new).
  { intros its0 w0 H0. destruct (IH _ _ _ _ H0) as (new & -> & HF).
    exists new. by rewrite HF, Hf1. }
  destruct (ignored _ _ _ _); [by apply Hskip|].
  destruct href as [href|]; [|done].
  destruct (JsString.endsWith href "/").
  - pose proof (fetched_object_assign i None w1) as Hf2.
    destruct (object_assign i None w1) as [child w2]. simpl in Hf2.
    destruct (rec _ _ _ _) as [[c|e|] w3] eqn:Hrc; [|done|done].
    pose proof (Hrec _ _ _ _ _ _ Hrc) as HF1.
    destruct (IH _ _ _ _ Hp) as (new & -> & HF2).
    eexists (_ :: new). split; [by rewrite <- app_assoc|].
    change (items_dir_urls (?y :: new)) with (item_dir_urls y ++ items_dir_urls new).
    rewrite item_dir_urls_Dir, HF2, HF1, Hf2, Hf1. by rewrite <- !app_assoc.
  - destruct (bad_extension _ _); [by apply Hskip|].
    destruct (IH _ _ _ _ Hp) as (new & -> & HF).
    eexists (_ :: new). split; [by rewrite <- app_assoc|]. by rewrite HF, Hf1.
Qed.

Lemma crawl_fetch_order fuel : rec_fetch_order (crawl fetch fuel).
Proof.
  induction fuel as [|fuel IH]; [by intros u opts i w c w'|].
  intros u opts i w c w' Hc.
  change (crawl fetch (S fuel)) with (crawl_body fetch (crawl fetch fuel)) in Hc.
  unfold crawl_body in Hc.
  pose proof (fetched_start i w) as Hfs. unfold start in Hfs.
  destruct (internals_param i w) as [j w0]. simpl in Hfs. cbv beta iota zeta in Hc.
  set (w1 := init_allURLs j (init_attempts j w0)) in *.
  destruct (url_parse u) as [U|]; [|done].
  unfold do_fetch in Hc.
  set (w2 := mkWorld (objs w1) (arrays w1) (fetched w1 ++ [u])) in *.
  assert (Hf2 : fetched w2 = fetched w ++ [u]) by (simpl; by rewrite Hfs).
  apply catch_failed_download_inv in Hc.
  destruct (fetch (fetched w1) u) as [|st [text|]] eqn:Hf.
  - by apply fetch_answers in Hf.
  - destruct Hc as [Hc|[Hc _]].
    + apply return_items_inv in Hc as (its & -> & Hp).
      destruct (process_links_fetch_order _ _ _ _ _ _ IH _ _ _ _ Hp) as (new & Hnew & HF).
      simpl in Hnew. subst new. rewrite HF, Hf2. by rewrite <- app_assoc.
    + apply return_items_inv in Hc.
      by destruct (process_links_fetches _ _ _ _ _ _ (crawl_fetches fetch fuel)
                     _ _ _ _ Hc) as [Hne _].
  - by destruct Hc as [[=]|[[=] _]].
Qed.

(** X17: on a site whose fetches are never rejected, a completed crawl
    has fetched its URL, and then every directory of its tree once, a
    directory before the entries below it and in the order of the
    tree. *)
Theorem directories_are_fetched_in_tree_order fuel u opts internals w c w' :
  crawl fetch fuel u opts internals w = (Fulfilled c, w') ->
  fetched w' = fetched w ++ u :: result_dir_urls c.
Proof. apply crawl_fetch_order. Qed.

End FetchOrder.

Section Inherits.
Context `{lib : NodeLib}.
Variable fetch : Fetch.

Lemma allocates_refl n w w' : objs w' = objs w -> allocates n w w'.
Proof. intros H. exists []. by rewrite app_nil_r. Qed.

Lemma allocates_trans n w1 w2 w3 :
  allocates n w1 w2 -> allocates n w2 w3 -> allocates n w1 w3.
Proof.
  intros (new1 & H1 & HF1) (new2 & H2 & HF2). exists (new1 ++ new2).
  split; [by rewrite H2, H1, app_assoc|]. by apply Forall_app.
Qed.

Lemma allocates_mono n n' w w' : (n <= n')%Z -> allocates n' w w' -> allocates n w w'.
Proof.
  intros Hn (new & H & HF). exists new. split; [done|].
  eapply Forall_impl; [exact HF|]. intros o (m & Hm & Hle). exists m. split; [done|lia].
Qed.

Lemma objs_push_URL i x w : objs (push_URL i x w) = objs w.
Proof. unfold push_URL. by destruct (allURLs _). Qed.

Lemma objs_do_fetch u w res w' : do_fetch fetch u w = (res, w') -> objs w' = objs w.
Proof. unfold do_fetch. by intros [= _ <-]. Qed.

Lemma object_assign_allocates i a na w j w' :
  ready i a w -> object_assign i na w = (j, w') ->
  allocates (default (attempts_of w i) na) w w'
  /\ attempts_of w' j = default (attempts_of w i) na.
Proof.
  intros Hw Has. split; [|by apply (object_assign_attempts _ _ _ _ _ Has)].
  destruct (ready_get_obj _ _ _ Hw) as (n & E).
  revert Has. unfold object_assign. intros [= <- <-]. eexists [_]. split; [done|].
  apply Forall_singleton. simpl. unfold attempts_of. rewrite E. simpl.
  destruct na as [m|]; eexists; (split; [done|]); simpl; lia.
Qed.

Opaque object_assign push_URL do_fetch.

Lemma process_links_inherits rec absURL absURLObj opts i a links :
  rec_frame rec -> rec_inherits rec ->
  forall items w r w',
    ready i a w ->
    process_links rec absURL absURLObj opts i links items w = (r, w') ->
    allocates (attempts_of w i) w w'.
Proof.
  intros Hframe Hrec. induction links as [|[name href] links IH];
    intros items w r w' Hw Hp; simpl in Hp.
  { injection Hp as <- <-. by apply allocates_refl. }
  destruct (url_resolve _ _) as [urlObj|].
  2:{ injection Hp as <- <-. by apply allocates_refl. }
  rewrite (ready_allURLs_of _ _ _ Hw) in Hp.
  case_bool_decide as Hin; [by eapply IH|].
  destruct (ready_push _ _ _ _ Hw Hin) as [Hext1 Hw1].
  set (w1 := push_URL i (url_format urlObj) w) in *.
  assert (Hat1 : attempts_of w1 i = attempts_of w i) by apply push_URL_attempts.
  assert (H1 : allocates (attempts_of w i) w w1).
  { apply allocates_refl. apply objs_push_URL. }
  assert (Hskip : forall its r w',
    process_links rec absURL absURLObj opts i links its w1 = (r, w') ->
    allocates (attempts_of w i) w w').
  { intros its r0 w0 H0. eapply allocates_trans; [exact H1|].
    rewrite <- Hat1. by eapply IH. }
  destruct (ignored _ _ _ _); [by eapply Hskip|].
  destruct href as [href|].
  2:{ by injection Hp as <- <-. }
  destruct (JsString.endsWith href "/").
  - destruct (object_assign i None w1) as [child w2] eqn:Has.
    destruct (ready_assign _ _ _ _ _ _ Hw1 Has) as (Hext2 & Hw2 & Hchild).
    destruct (object_assign_allocates _ _ _ _ _ _ Hw1 Has) as [H2 Hat2].
    simpl in H2, Hat2. rewrite Hat1 in H2, Hat2.
    destruct (rec _ _ _ _) as [rc w3] eqn:Hrc.
    pose proof (Hrec _ _ _ _ _ _ _ Hchild Hrc) as H3. rewrite Hat2 in H3.
    destruct (Hframe _ _ _ _ _ _ _ Hchild Hrc) as (Q & HQ & _).
    assert (H13 : allocates (attempts_of w i) w w3).
    { eapply allocates_trans; [exact H1|]. by eapply allocates_trans. }
    destruct rc as [c|e|].
    + eapply allocates_trans; [exact H13|].
      assert (Hw3 : ready i a w3) by (by eapply extends_ready).
      assert (Hat3 : attempts_of w3 i = attempts_of w i).
      { rewrite (extends_attempts _ _ _ _ _ Hw2 HQ).
        by rewrite (extends_attempts _ _ _ _ _ Hw1 Hext2). }
      rewrite <- Hat3. by eapply IH.
    + by injection Hp as <- <-.
    + by injection Hp as <- <-.
  - destruct (bad_extension _ _); by eapply Hskip.
Qed.

Lemma crawl_body_inherits rec :
  rec_frame rec -> rec_inherits rec -> rec_inherits (crawl_body fetch rec).
Proof.
  intros Hframe Hrec u opts i a w r w' Hw Hc. unfold crawl_body in Hc.
  change (internals_param (Some i) w) with (i, w) in Hc. cbv beta iota zeta in Hc.
  rewrite (ready_init _ _ _ Hw) in Hc.
  destruct (url_parse u) as [U|].
  2:{ injection Hc as <- <-. by apply allocates_refl. }
  destruct (do_fetch fetch u w) as [res w1] eqn:Hf.
  destruct (ready_fetch _ _ _ _ _ _ _ Hw Hf) as (_ & Hext1 & Hw1).
  pose proof (objs_do_fetch _ _ _ _ Hf) as Ho1.
  assert (Hat1 : attempts_of w1 i = attempts_of w i) by (by eapply extends_attempts).
  assert (Hend : forall y w0,
            y = (r, w') \/ (y = (Rejected FAILED_DOWNLOAD, w') /\ r = Fulfilled EmptyArray) ->
            y.2 = w0 -> allocates (attempts_of w i) w1 w0 ->
            allocates (attempts_of w i) w w').
  { intros y w0 Hy Hw0 H0.
    assert (w0 = w') as -> by (destruct Hy as [->|[-> _]]; by simpl in Hw0).
    eapply allocates_trans; [by apply allocates_refl|done]. }
  apply catch_failed_download_inv in Hc.
  destruct res as [|st [text|]].
  - destruct (_ <? _)%Z.
    + destruct (object_assign _ _ _) as [retry w2] eqn:Has.
      destruct (ready_assign _ _ _ _ _ _ Hw1 Has) as (Hext2 & Hw2 & Hretry).
      destruct (object_assign_allocates _ _ _ _ _ _ Hw1 Has) as [H2 Hat2].
      simpl in H2, Hat2. rewrite Hat1 in H2, Hat2.
      destruct (rec _ _ _ _) as [rc w3] eqn:Hrc.
      pose proof (Hrec _ _ _ _ _ _ _ Hretry Hrc) as H3. rewrite Hat2 in H3.
      eapply (Hend _ w3); [exact Hc|done|].
      eapply allocates_trans; eapply allocates_mono; [|exact H2| |exact H3]; lia.
    + eapply (Hend _ w1); [exact Hc|done|]. by apply allocates_refl.
  - destruct (process_links _ _ _ _ _ _ _ _) as [rp wp] eqn:Hp.
    eapply (Hend _ wp); [exact Hc|by destruct rp|].
    rewrite <- Hat1. by eapply process_links_inherits.
  - eapply (Hend _ w1); [exact Hc|done|]. by apply allocates_refl.
Qed.

Lemma crawl_inherits fuel : rec_inherits (crawl fetch fuel).
Proof.
  induction fuel as [|fuel IH].
  - intros u opts i a w r w' _ [= <- <-]. by apply allocates_refl.
  - apply crawl_body_inherits; [apply crawl_frame|done].
Qed.

(** X18: the attempts are never reset: every object that a crawl makes,
    for a retry or for the crawl of a directory at any depth, has at
    least the attempts of the object the crawl was given.  The fetches
    that failed for a directory count against every directory below
    it. *)
Theorem attempts_are_inherited fuel u opts i a w r w' :
  ready i a w ->
  crawl fetch fuel u opts (Some i) w = (r, w') ->
  exists new, objs w' = objs w ++ new
              /\ Forall (fun o => exists m, attempts o = Some m
                                            /\ (attempts_of w i <= m)%Z) new.
Proof. intros Hw Hc. by apply (crawl_inherits fuel _ _ _ _ _ _ _ Hw Hc). Qed.

End Inherits.

Section Names.

Lemma endsWith_slash s : JsString.endsWith (s +:+ "/") "/" = true.
Proof.
  induction s as [|c s IH]; [done|].
  change (String c s +:+ "/") with (String c (s +:+ "/")).
  cbn [JsString.endsWith]. rewrite IH. by destruct (String.eqb _ _).
Qed.

Lemma slice_slash s : JsString.slice_0_m1 (s +:+ "/") = s.
Proof.
  induction s as [|c s IH]; [done|].
  change (String c s +:+ "/") with (String c (s +:+ "/")).
  cbn [JsString.slice_0_m1]. rewrite IH. by destruct s.
Qed.

(** X19: one slash at the end of the text of a link is not part of the
    name: the name of the entry for the text [s/] is [s], trimmed.  The
    slash is removed before the text is trimmed, and only one slash
    is. *)
Theorem entry_name_drops_the_slash s : entry_name (s +:+ "/") = JsString.trim s.
Proof. unfold entry_name. by rewrite endsWith_slash, slice_slash. Qed.

End Names.

Section Console.
Context `{lib : NodeLib}.
Variable fetch : Fetch.
Variable number : Z -> string.

Lemma emit_fst {A} lines (x : Logged A) : (emit lines x).1 = x.1.
Proof. done. Qed.

Opaque object_assign push_URL do_fetch.

Lemma process_links_log_erases recl rec absURL absURLObj opts i links :
  rec_erases recl rec ->
  forall items w,
    (process_links_log recl absURL absURLObj opts i links items w).1
    = process_links rec absURL absURLObj opts i links items w.
Proof.
  intros Hrec. induction links as [|[name href] links IH]; intros items w; [done|].
  simpl. destruct (url_resolve _ _) as [urlObj|]; [|done].
  case_bool_decide; [by rewrite emit_fst|].
  unfold ignored.
  destruct (match filterRegex opts with Some _ => _ | None => _ end);
    [by rewrite emit_fst|].
  destruct (negb (keepSeparateHosts opts) && _); [by rewrite emit_fst|].
  destruct (stayInSameDirectory opts && _); [by rewrite emit_fst|].
  simpl. destruct href as [href|]; [|done].
  destruct (JsString.endsWith href "/").
  - rewrite emit_fst. destruct (object_assign _ _ _) as [child w2].
    rewrite <- (Hrec _ _ _ _).
    destruct (recl _ _ _ _) as [[[c|e|] w3] out]; simpl; [|done|done].
    by rewrite IH.
  - destruct (bad_extension _ _); by rewrite emit_fst.
Qed.

Lemma crawl_body_log_erases recl rec :
  rec_erases recl rec -> rec_erases (crawl_body_log fetch number recl) (crawl_body fetch rec).
Proof.
  intros Hrec u opts i w. unfold crawl_body_log, crawl_body.
  destruct (internals_param i w) as [j w0].
  destruct (url_parse u) as [U|]; [|done].
  destruct (do_fetch _ _ _) as [[|st [text|]] w1]; [| |done].
  - destruct (_ <? _)%Z; [|done].
    destruct (object_assign _ _ _) as [retry w2].
    unfold emit. simpl. rewrite <- (Hrec _ _ _ _).
    by destruct (recl _ _ _ _) as [r out].
  - rewrite <- (process_links_log_erases _ _ _ _ _ _ _ Hrec).
    by destruct (process_links_log _ _ _ _ _ _ _ _) as [r out].
Qed.

Lemma crawl_log_erases fuel : rec_erases (crawl_log fetch number fuel) (crawl fetch fuel).
Proof.
  induction fuel as [|fuel IH]; [done|]. by apply crawl_body_log_erases.
Qed.

End Console.

Section ConsoleLines.
Context `{lib : NodeLib}.
Variable fetch : Fetch.
Variable number : Z -> string.

Lemma emit_inv {A} lines (x : Logged A) r out :
  emit lines x = (r, out) -> exists out', x = (r, out') /\ out = lines ++ out'.
Proof. destruct x as [r0 out0]. unfold emit. simpl. intros [= <- <-]. by exists out0. Qed.

Lemma catch_log_inv (x : Logged (Completion CrawlResult * World)) r w' out :
  (let '(r0, out0) := x in (catch_failed_download r0, out0)) = ((r, w'), out) ->
  x.2 = out /\ (x.1 = (r, w')
                \/ (x.1 = (Rejected FAILED_DOWNLOAD, w') /\ r = Fulfilled EmptyArray)).
Proof.
  destruct x as [r0 out0]. intros [= Hc <-]. split; [done|].
  by apply catch_failed_download_inv.
Qed.

Lemma tagged_app tag out1 out2 : tagged tag (out1 ++ out2) = tagged tag out1 ++ tagged tag out2.
Proof. unfold tagged. by rewrite omap_app. Qed.

Lemma items_file_urls_app l1 l2 :
  items_file_urls (l1 ++ l2) = items_file_urls l1 ++ items_file_urls l2.
Proof. unfold items_file_urls. by rewrite flat_map_app. Qed.

Lemma item_file_urls_Dir name u r :
  item_file_urls (Dir name u (result_items r)) = result_file_urls r.
Proof. by destruct r. Qed.

Opaque object_assign push_URL do_fetch.

Lemma process_links_log_tags recl absURL absURLObj opts i links :
  verbose opts = true -> rec_tags recl ->
  forall items w its w' out,
    process_links_log recl absURL absURLObj opts i links items w = ((Fulfilled its, w'), out) ->
    exists new, its = items ++ new
                /\ tagged "[File] " out = items_file_urls new
                /\ tagged "[Dir] " out = items_dir_urls new.
Proof.
  intros Hv Hrec. induction links as [|[name href] links IH]; intros items w its w' out Hp;
    simpl in Hp.
  { injection Hp as <- <- <-. exists []. by rewrite app_nil_r. }
  destruct (url_resolve _ _) as [urlObj|]; [|done].
  unfold verboseLog in Hp. rewrite Hv in Hp.
  assert (Hskip : forall msg w0,
    tagged "[File] " [console_error (msg +:+ url_format urlObj)] = [] ->
    tagged "[Dir] " [console_error (msg +:+ url_format urlObj)] = [] ->
    emit [console_error (msg +:+ url_format urlObj)]
      (process_links_log recl absURL absURLObj opts i links items w0)
    = ((Fulfilled its, w'), out) ->
    exists new, its = items ++ new
                /\ tagged "[File] " out = items_file_urls new
                /\ tagged "[Dir] " out = items_dir_urls new).
  { intros msg w0 HF HD (out' & H0 & ->)%emit_inv.
    destruct (IH _ _ _ _ _ H0) as (new & -> & HnF & HnD).
    exists new. rewrite !tagged_app, HF, HD. done. }
  case_bool_decide; [by eapply Hskip; [| |exact Hp]|].
  destruct (match filterRegex opts with Some _ => _ | None => _ end);
    [by eapply Hskip; [| |exact Hp]|].
  destruct (negb (keepSeparateHosts opts) && _); [by eapply Hskip; [| |exact Hp]|].
  destruct (stayInSameDirectory opts && _); [by eapply Hskip; [| |exact Hp]|].
  destruct href as [href|]; [|done].
  destruct (JsString.endsWith href "/").
  - apply emit_inv in Hp as (out1 & Hp & ->).
    destruct (object_assign _ _ _) as [child w2].
    destruct (recl _ _ _ _) as [[[c|e|] w3] outc] eqn:Hrc; [|done|done].
    apply emit_inv in Hp as (out2 & Hp & ->).
    destruct (Hrec _ _ _ _ _ _ _ Hv Hrc) as [HcF HcD].
    destruct (IH _ _ _ _ _ Hp) as (new & -> & HnF & HnD).
    eexists (_ :: new). split; [by rewrite <- app_assoc|].
    change (items_file_urls (?y :: new)) with (item_file_urls y ++ items_file_urls new).
    change (items_dir_urls (?y :: new)) with (item_dir_urls y ++ items_dir_urls new).
    rewrite item_file_urls_Dir, item_dir_urls_Dir.
    change ([?l] ++ ?o) with ([l] ++ o).
    rewrite !tagged_app, HcF, HcD, HnF, HnD. done.
  - destruct (bad_extension _ _); [by eapply Hskip; [| |exact Hp]|].
    apply emit_inv in Hp as (out1 & Hp & ->).
    destruct (IH _ _ _ _ _ Hp) as (new & -> & HnF & HnD).
    eexists (_ :: new). split; [by rewrite <- app_assoc|].
    rewrite !tagged_app, HnF, HnD. done.
Qed.

Lemma crawl_log_tags fuel : rec_tags (crawl_log fetch number fuel).
Proof.
  induction fuel as [|fuel IH]; [by intros u opts i w c w' out|].
  intros u opts i w c w' out Hv Hc.
  change (crawl_log fetch number (S fuel))
    with (crawl_body_log fetch number (crawl_log fetch number fuel)) in Hc.
  unfold crawl_body_log in Hc.
  destruct (internals_param i w) as [j w0]. cbv beta iota zeta in Hc.
  destruct (url_parse u) as [U|]; [|done].
  destruct (do_fetch _ _ _) as [[|st [text|]] w1]; [| |done].
  - destruct (_ <? _)%Z.
    + destruct (object_assign _ _ _) as [retry w2].
      destruct (crawl_log _ _ _ _ _ _ _) as [[rc w3] outc] eqn:Hrc.
      apply catch_log_inv in Hc as [<- Hc]. simpl in Hc.
      destruct Hc as [[= -> ->]|[[= -> ->] [= ->]]].
      * by apply (IH _ _ _ _ _ _ _ Hv Hrc).
      * pose proof (crawl_log_erases fetch number fuel u opts (Some retry) w2) as He.
        rewrite Hrc in He. symmetry in He.
        by destruct (crawl_fetches fetch fuel _ _ _ _ _ _ He) as [Hne _].
    + apply catch_log_inv in Hc as [<- Hc]. simpl in Hc.
      destruct Hc as [[=]|[[= <-] [= ->]]]. split; reflexivity.
  - destruct (process_links_log _ _ _ _ _ _ _ _) as [[rp wp] outp] eqn:Hp.
    apply (catch_log_inv (return_items (rp, wp), outp)) in Hc as [<- Hc].
    unfold fst in Hc. destruct Hc as [Hc|[Hc _]].
    + apply return_items_inv in Hc as (its & -> & [= -> ->]).
      destruct (process_links_log_tags _ _ _ _ _ _ Hv IH _ _ _ _ _ Hp)
        as (new & Hnew & HF & HD).
      simpl in Hnew. by subst new.
    + apply return_items_inv in Hc as [= -> ->].
      pose proof (process_links_log_erases _ _ u U opts j (getHTMLLinks text)
                    (crawl_log_erases fetch number fuel) [] w1) as He.
      rewrite Hp in He. symmetry in He.
      by destruct (process_links_fetches _ _ _ _ _ _ (crawl_fetches fetch fuel)
                     _ _ _ _ He) as [Hne _].
Qed.

(** X14: in verbose mode, the console lists the tree: the lines of a
    completed crawl that are tagged [[File]] are the URLs of the files of
    the tree, at every depth and in the order of the tree, and the lines
    tagged [[Dir]] are the URLs of its directories. *)
Theorem verbose_lines_list_the_tree fuel u opts internals w c w' out :
  verbose opts = true ->
  crawl_log fetch number fuel u opts internals w = ((Fulfilled c, w'), out) ->
  tagged "[File] " out = result_file_urls c /\ tagged "[Dir] " out = result_dir_urls c.
Proof. apply crawl_log_tags. Qed.

End ConsoleLines.

Section Quiet.
Context `{lib : NodeLib}.
Variable fetch : Fetch.
Variable number : Z -> string.

Lemma startsWith_append p s : JsString.startsWith (p +:+ s) p = true.
Proof.
  unfold JsString.startsWith. induction p as [|a p IH]; simpl; [by destruct s|].
  by destruct (ascii_dec a a).
Qed.

Lemma failure_line_failed s : failure_line (console_warn ("Failed to download: " +:+ s)) = true.
Proof. unfold failure_line. by rewrite startsWith_append. Qed.

Lemma failure_line_again s :
  failure_line (console_warn ("Trying again. Attempt " +:+ s)) = true.
Proof. unfold failure_line. by rewrite (startsWith_append _ s), orb_true_r. Qed.

Lemma failure_line_limit s :
  failure_line (console_error ("We've hit the download attempt limit (" +:+ s)) = true.
Proof. unfold failure_line. by rewrite startsWith_append. Qed.

Lemma attempts_of_do_fetch u w res w' j :
  do_fetch fetch u w = (res, w') -> attempts_of w' j = attempts_of w j.
Proof. unfold do_fetch. by intros [= _ <-]. Qed.

Opaque object_assign push_URL do_fetch.

Lemma process_links_log_quiet recl absURL absURLObj opts i links :
  verbose opts = false -> rec_quiet recl ->
  forall items w r out,
    process_links_log recl absURL absURLObj opts i links items w = (r, out) ->
    Forall (fun l => failure_line l = true) out.
Proof.
  intros Hv Hrec. induction links as [|[name href] links IH]; intros items w r out Hp;
    simpl in Hp.
  { by injection Hp as <- <-. }
  destruct (url_resolve _ _) as [urlObj|]; [|by injection Hp as <- <-].
  unfold verboseLog in Hp. rewrite Hv in Hp.
  assert (Hskip : forall its w0,
    emit [] (process_links_log recl absURL absURLObj opts i links its w0) = (r, out) ->
    Forall (fun l => failure_line l = true) out).
  { intros its w0 (out' & H0 & ->)%emit_inv. by eapply IH. }
  case_bool_decide; [by eapply Hskip|].
  destruct (match filterRegex opts with Some _ => _ | None => _ end); [by eapply Hskip|].
  destruct (negb (keepSeparateHosts opts) && _); [by eapply Hskip|].
  destruct (stayInSameDirectory opts && _); [by eapply Hskip|].
  destruct href as [href|]; [|by injection Hp as <- <-].
  destruct (JsString.endsWith href "/").
  - apply emit_inv in Hp as (out1 & Hp & ->).
    destruct (object_assign _ _ _) as [child w2].
    destruct (recl _ _ _ _) as [[rc w3] outc] eqn:Hrc.
    pose proof (Hrec _ _ _ _ _ _ Hv Hrc) as Hc.
    destruct rc as [c|e|].
    + apply emit_inv in Hp as (out2 & Hp & ->). rewrite app_nil_l.
      apply Forall_app. split; [done|]. by eapply IH.
    + injection Hp as <- <-. by rewrite app_nil_l.
    + injection Hp as <- <-. by rewrite app_nil_l.
  - destruct (bad_extension _ _); by eapply Hskip.
Qed.

Lemma crawl_body_log_quiet recl :
  rec_quiet recl -> rec_quiet (crawl_body_log fetch number recl).
Proof.
  intros Hrec u opts i w r out Hv Hc. unfold crawl_body_log in Hc.
  destruct (internals_param i w) as [j w0]. cbv beta iota zeta in Hc.
  destruct (url_parse u) as [U|]; [|by injection Hc as <- <-].
  destruct (do_fetch _ _ _) as [[|st [text|]] w1].
  - destruct (_ <? _)%Z.
    + destruct (object_assign _ _ _) as [retry w2].
      destruct (recl _ _ _ _) as [[rc w3] outc] eqn:Hrc.
      injection Hc as _ <-. simpl.
      constructor; [apply failure_line_failed|].
      constructor; [apply failure_line_again|]. by eapply Hrec.
    + injection Hc as _ <-. simpl. constructor; [apply failure_line_failed|].
      constructor; [apply failure_line_limit|]. constructor.
  - destruct (process_links_log _ _ _ _ _ _ _ _) as [[rp wp] outp] eqn:Hp.
    injection Hc as _ <-. by eapply process_links_log_quiet.
  - by injection Hc as _ <-.
Qed.

Lemma crawl_log_quiet fuel : rec_quiet (crawl_log fetch number fuel).
Proof.
  induction fuel as [|fuel IH]; [by intros u opts i w r out _ [= <- <-]|].
  by apply crawl_body_log_quiet.
Qed.

(** X15: without [verbose], however a crawl ends, it has written
    nothing to the console but the lines of the handler of a rejected
    fetch: that the download failed, that it is tried again, and that the
    limit of the attempts was hit. *)
Theorem quiet_crawl_writes_failures_only fuel u opts internals w r out :
  verbose opts = false ->
  crawl_log fetch number fuel u opts internals w = (r, out) ->
  Forall (fun l => failure_line l = true) out.
Proof. apply crawl_log_quiet. Qed.

(** X16: the console of a crawl that gives up: for a URL whose fetch is
    always rejected, each attempt writes that the download failed, each
    but the last that it is tried again, with the number of the next
    attempt, and the last that the limit was hit. *)
Theorem rejected_forever_lines u opts fuel j w :
  (forall log, fetch log u = FetchRejected) ->
  is_Some (url_parse u) ->
  Z.to_nat (maxAttempts opts - attempts_of w j) < fuel ->
  (crawl_log fetch number fuel u opts (Some j) w).2
  = give_up_lines number u opts (attempts_of w j)
      (Z.to_nat (maxAttempts opts - attempts_of w j)).
Proof.
  intros Hrej [U HU].
  remember (Z.to_nat (maxAttempts opts - attempts_of w j)) as k eqn:Hk.
  revert fuel j w Hk. induction k as [|k IH]; intros fuel j w Hk Hfuel;
    (destruct fuel as [|fuel]; [lia|]);
    change (crawl_log fetch number (S fuel))
      with (crawl_body_log fetch number (crawl_log fetch number fuel));
    unfold crawl_body_log; change (internals_param (Some j) w) with (j, w);
    cbv beta iota zeta; rewrite HU;
    destruct (do_fetch fetch u (init_allURLs j (init_attempts j w))) as [res w2] eqn:Hf;
    pose proof (do_fetch_outcome _ _ _ _ _ Hf) as Hres; rewrite Hrej in Hres; subst res;
    assert (Hat : attempts_of w2 j = attempts_of w j)
      by (rewrite <- (attempts_of_init j w); by eapply attempts_of_do_fetch);
    rewrite Hat.
  - destruct (Z.ltb_spec (attempts_of w j) (maxAttempts opts)) as [Hlt|Hge]; [lia|]. done.
  - destruct (Z.ltb_spec (attempts_of w j) (maxAttempts opts)) as [Hlt|Hge]; [|lia].
    destruct (object_assign j (Some (attempts_of w j + 1)%Z) w2) as [retry w3] eqn:Has.
    destruct (object_assign_attempts _ _ _ _ _ Has) as [Hat3 _]. simpl in Hat3.
    specialize (IH fuel retry w3 ltac:(lia) ltac:(lia)). rewrite Hat3 in IH.
    destruct (crawl_log _ _ _ _ _ _ _) as [rc outc]. simpl in IH. subst outc.
    done.
Qed.

End Quiet.

Section Verbose.
Context `{lib : NodeLib}.
Variable fetch : Fetch.
Variable number : Z -> string.
Variable opts : Opts.

Lemma quieter_refl {A} (a : A) : quieter (a, []) (a, []).
Proof. done. Qed.

Lemma quieter_verboseLog {A} tag s (x y : Logged A) :
  failure_line (console_error (tag +:+ s)) = false ->
  quieter x y ->
  quieter (emit (verboseLog (with_verbose false opts) (tag +:+ s)) x)
          (emit (verboseLog (with_verbose true opts) (tag +:+ s)) y).
Proof.
  intros Htag [H1 H2]. split; [done|].
  unfold emit, verboseLog. cbn [fst snd verbose with_verbose].
  rewrite List.filter_app. cbn [List.filter]. by rewrite Htag, H2.
Qed.

Lemma quieter_emit {A} lines (x y : Logged A) :
  Forall (fun l => failure_line l = true) lines ->
  quieter x y -> quieter (emit lines x) (emit lines y).
Proof.
  intros Hl [H1 H2]. split; [done|]. unfold emit. simpl.
  rewrite List.filter_app, H2. f_equal.
  induction Hl as [|l lines Hl _ IH]; [done|]. simpl. rewrite Hl. by f_equal.
Qed.

Lemma quieter_app {A} (a : A) out1 out2 (x y : Logged A) :
  out1 = List.filter failure_line out2 ->
  quieter x y -> quieter (emit out1 x) (emit out2 y).
Proof.
  intros -> [H1 H2]. split; [done|]. unfold emit. simpl.
  by rewrite List.filter_app, H2.
Qed.

Opaque object_assign push_URL do_fetch.

Lemma process_links_log_quieter recq recl absURL absURLObj i links :
  rec_quieter opts recq recl ->
  forall items w,
    quieter (process_links_log recq absURL absURLObj (with_verbose false opts) i links items w)
            (process_links_log recl absURL absURLObj (with_verbose true opts) i links items w).
Proof.
  intros Hrec. induction links as [|[name href] links IH]; intros items w; [done|].
  cbn [process_links_log].
  destruct (url_resolve _ _) as [urlObj|]; [|done].
  case_bool_decide; [by apply quieter_verboseLog|].
  change (filterRegex (with_verbose false opts)) with (filterRegex opts).
  change (filterRegex (with_verbose true opts)) with (filterRegex opts).
  destruct (match filterRegex opts with Some _ => _ | None => _ end);
    [by apply quieter_verboseLog|].
  change (keepSeparateHosts (with_verbose false opts)) with (keepSeparateHosts opts).
  change (keepSeparateHosts (with_verbose true opts)) with (keepSeparateHosts opts).
  destruct (negb (keepSeparateHosts opts) && _); [by apply quieter_verboseLog|].
  change (stayInSameDirectory (with_verbose false opts)) with (stayInSameDirectory opts).
  change (stayInSameDirectory (with_verbose true opts)) with (stayInSameDirectory opts).
  destruct (stayInSameDirectory opts && _); [by apply quieter_verboseLog|].
  destruct href as [href|]; [|done].
  change (bad_extension (with_verbose false opts) href) with (bad_extension opts href).
  change (bad_extension (with_verbose true opts) href) with (bad_extension opts href).
  destruct (JsString.endsWith href "/").
  - apply quieter_verboseLog; [done|].
    destruct (object_assign _ _ _) as [child w2].
    destruct (Hrec (url_format urlObj) (Some child) w2) as [H1 H2].
    destruct (recq _ _ _ _) as [[rq wq] outq], (recl _ _ _ _) as [[rl wl] outl].
    simpl in H1, H2. injection H1 as -> ->. subst outq.
    destruct rl as [c|e|]; [|done|done].
    by apply (quieter_app (Fulfilled items, w)).
  - destruct (bad_extension opts href); by apply quieter_verboseLog.
Qed.

Lemma quieter_map {A B} (f : A -> B) (x y : Logged A) :
  quieter x y -> quieter (let '(r, out) := x in (f r, out)) (let '(r, out) := y in (f r, out)).
Proof. destruct x as [rx ox], y as [ry oy]. intros [H1 H2]. simpl in *. by subst. Qed.

Lemma crawl_body_log_quieter recq recl :
  rec_quieter opts recq recl ->
  rec_quieter opts (crawl_body_log fetch number recq) (crawl_body_log fetch number recl).
Proof.
  intros Hrec u i w. unfold crawl_body_log.
  destruct (internals_param i w) as [j w0]. cbv beta iota zeta.
  destruct (url_parse u) as [U|]; [|done].
  destruct (do_fetch _ _ _) as [[|st [text|]] w1].
  - apply (quieter_map catch_failed_download).
    apply quieter_emit; [constructor; [apply failure_line_failed|constructor]|].
    change (maxAttempts (with_verbose false opts)) with (maxAttempts opts).
    change (maxAttempts (with_verbose true opts)) with (maxAttempts opts).
    destruct (_ <? _)%Z.
    + apply quieter_emit; [constructor; [apply failure_line_again|constructor]|].
      destruct (object_assign _ _ _) as [retry w2]. apply Hrec.
    + split; [done|]. cbn [snd List.filter]. by rewrite failure_line_limit.
  - apply (quieter_map catch_failed_download).
    apply (quieter_map return_items). by apply process_links_log_quieter.
  - done.
Qed.

Lemma crawl_log_quieter fuel :
  rec_quieter opts (crawl_log fetch number fuel) (crawl_log fetch number fuel).
Proof.
  induction fuel as [|fuel IH]; [by intros u i w|]. by apply crawl_body_log_quieter.
Qed.

(** X13: [verbose] only adds lines.  A crawl without [verbose] and the
    same crawl with it give the same result, leave the same heap and issue
    the same fetches; and what the first writes to the console is what the
    second writes without the lines of [verboseLog]: the lines of the
    handler of a rejected fetch, in the same order. *)
Theorem verbose_only_adds_lines fuel u internals w :
  (crawl_log fetch number fuel u (with_verbose false opts) internals w).1
  = (crawl_log fetch number fuel u (with_verbose true opts) internals w).1
  /\ (crawl_log fetch number fuel u (with_verbose false opts) internals w).2
     = List.filter failure_line
         (crawl_log fetch number fuel u (with_verbose true opts) internals w).2.
Proof. apply crawl_log_quieter. Qed.

End Verbose.

Module MoreWitnesses.
Import Scenario Sites.

Lemma fetched_are_root_and_directories_witness :
  exists F, fetched (run listing_site default_opts).2 = fetched empty_world ++ F
            /\ forall x, x ∈ F <-> x = root \/ x ∈ result_dir_urls listing_tree.
Proof.
  apply (fetched_are_root_and_directories (lib := lib) listing_site 12 root default_opts None
           empty_world listing_tree (run listing_site default_opts).2).
  vm_compute. reflexivity.
Defined.

Lemma files_are_not_fetched_witness :
  exists F, fetched (run listing_site default_opts).2 = fetched empty_world ++ F
            /\ forall x, x ∈ result_file_urls listing_tree -> x <> root -> x ∉ F.
Proof.
  apply (files_are_not_fetched (lib := lib) listing_site 12 root default_opts None
           empty_world listing_tree (run listing_site default_opts).2).
  - exact I.
  - vm_compute. reflexivity.
Defined.

Lemma visited_are_not_fetched_witness :
  exists F,
    fetched (crawl (lib := lib) listing_site 12 root default_opts (Some 0) b_visited_world).2
    = fetched b_visited_world ++ F
    /\ "http://host/a//b/" ∉ F.
Proof.
  apply (visited_are_not_fetched (lib := lib) listing_site 12 root default_opts 0 0
           b_visited_world
           (crawl (lib := lib) listing_site 12 root default_opts (Some 0) b_visited_world).1).
  - split; [exists 0%Z; reflexivity|vm_compute; lia].
  - vm_compute. apply list_elem_of_In. left. reflexivity.
  - discriminate.
  - vm_compute. reflexivity.
Defined.

Lemma every_link_is_recorded_witness :
  exists log st text,
    listing_site log root = FetchResponse st (Some text)
    /\ links_recorded (H := lib) root (getHTMLLinks (H := lib) text)
         (allURLs_of (run listing_site default_opts).2 (start None empty_world).1).
Proof.
  apply (every_link_is_recorded (lib := lib) listing_site 12 root default_opts None
           empty_world listing_items (run listing_site default_opts).2).
  - exact I.
  - vm_compute. reflexivity.
Defined.

Lemma every_entry_comes_from_a_link_witness :
  listing_ok (lib := lib) listing_site default_opts root listing_items.
Proof.
  apply (every_entry_comes_from_a_link (lib := lib) listing_site 12 root default_opts None
           empty_world listing_items (run listing_site default_opts).2).
  vm_compute. reflexivity.
Defined.

Lemma entries_keep_link_order_witness :
  exists log st text,
    listing_site log root = FetchResponse st (Some text)
    /\ sublist (map item_head listing_items)
         (link_heads (H := lib) root (getHTMLLinks (H := lib) text)).
Proof.
  apply (entries_keep_link_order (lib := lib) listing_site 12 root default_opts None
           empty_world listing_items (run listing_site default_opts).2).
  vm_compute. reflexivity.
Defined.

Lemma recorded_are_links_witness :
  "http://host/a//c.mp3" ∈ visited 0 started_world
  \/ linked (H := lib) listing_site "http://host/a//c.mp3".
Proof.
  apply (recorded_are_links (lib := lib) listing_site 12 root default_opts 0 0 started_world
           (crawl (lib := lib) listing_site 12 root default_opts (Some 0) started_world).1
           (crawl (lib := lib) listing_site 12 root default_opts (Some 0) started_world).2).
  - split; [exists 0%Z; reflexivity|vm_compute; lia].
  - vm_compute. reflexivity.
  - vm_compute. apply list_elem_of_In. right. left. reflexivity.
Defined.

Lemma rejection_has_a_cause_witness :
  TypeError "Invalid URL" <> FAILED_DOWNLOAD
  /\ ((TypeError "Invalid URL" = TypeError "Invalid URL"
       /\ url_parse (NodeLib := lib) root = None)
      \/ thrown_on_page (H := lib) hostless_link_site (TypeError "Invalid URL")).
Proof.
  apply (rejection_has_a_cause (lib := lib) hostless_link_site 12 root default_opts None
           empty_world (TypeError "Invalid URL") (run hostless_link_site default_opts).2).
  vm_compute. reflexivity.
Defined.

Lemma bare_array_witness :
  fetched (crawl (lib := lib) always_rejected 12 root default_opts (Some 0) started_world).2
  = fetched started_world
    ++ replicate (S (Z.to_nat (maxAttempts default_opts - attempts_of started_world 0))) root
  /\ forall m, m <= Z.to_nat (maxAttempts default_opts - attempts_of started_world 0) ->
       always_rejected (fetched started_world ++ replicate m root) root = FetchRejected.
Proof.
  apply (bare_array_means_every_attempt_failed (lib := lib) always_rejected 12 root
           default_opts 0 started_world).
  vm_compute. reflexivity.
Defined.

Lemma verbose_lines_witness :
  tagged "[File] " verbose_run.2 = result_file_urls listing_tree
  /\ tagged "[Dir] " verbose_run.2 = result_dir_urls listing_tree.
Proof.
  apply (verbose_lines_list_the_tree (lib := lib) listing_site decimal 12 root verbose_opts
           None empty_world listing_tree verbose_run.1.2 verbose_run.2).
  - reflexivity.
  - vm_compute. reflexivity.
Defined.

Lemma quiet_crawl_witness :
  Forall (fun l => failure_line l = true) flaky_run.2.
Proof.
  apply (quiet_crawl_writes_failures_only (lib := lib) flaky_root decimal 12 root default_opts
           None empty_world flaky_run.1 flaky_run.2).
  - reflexivity.
  - vm_compute. reflexivity.
Defined.

Lemma rejected_forever_lines_witness :
  (crawl_log (lib := lib) always_rejected decimal 12 root default_opts (Some 0)
     started_world).2
  = give_up_lines decimal root default_opts (attempts_of started_world 0)
      (Z.to_nat (maxAttempts default_opts - attempts_of started_world 0)).
Proof.
  apply (rejected_forever_lines (lib := lib) always_rejected decimal root default_opts 12 0
           started_world).
  - intros log. reflexivity.
  - vm_compute. eexists. reflexivity.
  - vm_compute. lia.
Defined.

Lemma directories_are_fetched_in_tree_order_witness :
  fetched (crawl (lib := lib) answering_site 12 root default_opts None empty_world).2
  = fetched empty_world ++ root :: result_dir_urls listing_tree.
Proof.
  refine (directories_are_fetched_in_tree_order (lib := lib) answering_site _ 12 root
            default_opts None empty_world listing_tree
            (crawl (lib := lib) answering_site 12 root default_opts None empty_world).2 _).
  - intros log x. unfold answering_site. by destruct (String.eqb x root).
  - vm_compute. reflexivity.
Defined.

Lemma attempts_are_inherited_witness :
  exists new,
    objs (crawl (lib := lib) flaky_root 12 root default_opts (Some 0) started_world).2
    = objs started_world ++ new
    /\ Forall (fun o => exists m, attempts o = Some m
                                  /\ (attempts_of started_world 0 <= m)%Z) new.
Proof.
  apply (attempts_are_inherited (lib := lib) flaky_root 12 root default_opts 0 0
           started_world
           (crawl (lib := lib) flaky_root 12 root default_opts (Some 0) started_world).1).
  - split; [exists 0%Z; reflexivity|vm_compute; lia].
  - vm_compute. reflexivity.
Defined.

End MoreWitnesses.
